(** * yaml-eslint-parser: the tree converter of [src/convert.ts]

    A shallow embedding of [convertRoot] and of the functions it calls,
    with the properties of the converter proved about the embedding.

    Conventions of the embedding:
    - a JavaScript string is the list of its UTF-16 code units;
    - offsets, lines and columns are integers ([Z]): the source subtracts
      from them without a guard;
    - the output tree is a graph with [parent] back references, so nodes
      live in a store (a list indexed by allocation order) and fields hold
      references into it;
    - the token buffer and the store are threaded through the walk as an
      explicit state; [throw] is the left injection of a sum. *)

From Stdlib Require Import ZArith NArith String Ascii SpecFloat Sorted.
From stdpp Require Import base option list gmap.

Set Warnings "-register-all".
Local Open Scope Z_scope.

(* ================================================================== *)
(** ** JavaScript strings *)

Module JS.

(** A string is a sequence of UTF-16 code units. *)
Abbreviation jsstring := (list N).

(** An ASCII literal as a JavaScript string. *)
Fixpoint js (s : string) : jsstring :=
  match s with
  | EmptyString => []
  | String a r => N_of_ascii a :: js r
  end.

Definition len (s : jsstring) : Z := Z.of_nat (length s).

(** Relative index of [String.prototype.slice]: a negative index counts
    from the end, and the result is clamped to the string. *)
Definition clamp (s : jsstring) (i : Z) : Z :=
  if i <? 0 then Z.max (len s + i) 0 else Z.min i (len s).

(** [s.slice(a, b)] *)
Definition slice (s : jsstring) (a b : Z) : jsstring :=
  let from := clamp s a in
  let to := clamp s b in
  take (Z.to_nat (to - from)) (drop (Z.to_nat from) s).

(** [s.slice(a)] *)
Definition sliceFrom (s : jsstring) (a : Z) : jsstring :=
  drop (Z.to_nat (clamp s a)) s.

(** [s[i]]: [None] stands for [undefined]. *)
Definition charAt (s : jsstring) (i : Z) : option N :=
  if i <? 0 then None else s !! Z.to_nat i.

(** [s.startsWith(p)] *)
Fixpoint startsWith (s p : jsstring) : bool :=
  match p, s with
  | [], _ => true
  | _ :: _, [] => false
  | c :: p', d :: s' => if decide (c = d) then startsWith s' p' else false
  end.

(** [a === b] on strings. *)
Definition eqb (a b : jsstring) : bool := bool_decide (a = b).

(** WhiteSpace and LineTerminator code points: the characters that [\s]
    matches and that [trim] removes. *)
Definition isSpace (c : N) : bool :=
  ((9 <=? c) && (c <=? 13) || (c =? 32) || (c =? 160) || (c =? 5760)
   || (8192 <=? c) && (c <=? 8202) || (c =? 8232) || (c =? 8233)
   || (c =? 8239) || (c =? 8287) || (c =? 12288) || (c =? 65279))%N.

Definition isHighSurrogate (c : N) : bool := ((55296 <=? c) && (c <=? 56319))%N.
Definition isLowSurrogate (c : N) : bool := ((56320 <=? c) && (c <=? 57343))%N.

(** [c.trim()] used as a condition, for a one-unit string [c]: the result
    is the empty string, which is falsy, exactly when [c] is a space. *)
Definition trimTruthy (c : N) : bool := negb (isSpace c).

(** [s.replace(/\S/gu, " ")]. With the [u] flag the pattern advances by
    code point: a high surrogate followed by a low surrogate is ONE match,
    and the two units are replaced by one space. No code point above
    U+FFFF is a space. *)
Fixpoint replaceNonSpace (s : jsstring) : jsstring :=
  match s with
  | [] => []
  | c :: r =>
      if isHighSurrogate c then
        match r with
        | d :: r' =>
            if isLowSurrogate d then 32%N :: replaceNonSpace r'
            else 32%N :: replaceNonSpace r
        | [] => [32%N]
        end
      else (if isSpace c then c else 32%N) :: replaceNonSpace r
  end.

(** *** Regular expressions

    The patterns of the source are all of the shape [^...$] without the
    [m] flag, so [test] asks for a match of the whole string. They are
    matched by derivatives. Their character classes are ASCII, so matching
    by code unit and matching by code point agree. *)
Inductive regex :=
| RNone
| REps
| RClass (p : N -> bool)
| RSeq (r s : regex)
| RAlt (r s : regex)
| RStar (r : regex).

Fixpoint nullable (r : regex) : bool :=
  match r with
  | RNone => false
  | REps => true
  | RClass _ => false
  | RSeq r s => nullable r && nullable s
  | RAlt r s => nullable r || nullable s
  | RStar _ => true
  end.

Fixpoint deriv (c : N) (r : regex) : regex :=
  match r with
  | RNone => RNone
  | REps => RNone
  | RClass p => if p c then REps else RNone
  | RSeq r s =>
      if nullable r then RAlt (RSeq (deriv c r) s) (deriv c s)
      else RSeq (deriv c r) s
  | RAlt r s => RAlt (deriv c r) (deriv c s)
  | RStar r => RSeq (deriv c r) (RStar r)
  end.

(** [/^r$/.test(s)] *)
Fixpoint test (r : regex) (s : jsstring) : bool :=
  match s with
  | [] => nullable r
  | c :: s' => test (deriv c r) s'
  end.

Definition ord (a : ascii) : N := N_of_ascii a.

(** a literal character *)
Definition chr (a : ascii) : regex := RClass (N.eqb (ord a)).
(** a literal character under the [i] flag (ASCII letters only fold to
    ASCII letters for the letters used here: i, n, f, a) *)
Definition chrI (lo up : ascii) : regex :=
  RClass (fun c => N.eqb (ord lo) c || N.eqb (ord up) c).
(** [[a-b]] *)
Definition between (a b : ascii) : regex :=
  RClass (fun c => (ord a <=? c)%N && (c <=? ord b)%N).
(** [r+] *)
Definition plus (r : regex) : regex := RSeq r (RStar r).
(** [r?] *)
Definition opt (r : regex) : regex := RAlt r REps.
Fixpoint seqs (l : list regex) : regex :=
  match l with
  | [] => REps
  | r :: l' => RSeq r (seqs l')
  end.

End JS.

Import JS.

(* ================================================================== *)
(** ** JavaScript values *)

(** A JavaScript number is a binary64 float. *)
Abbreviation number := spec_float.

(** The number nearest to an integer (round to nearest, ties to even). *)
Definition numberOfZ (z : Z) : number := binary_normalize 53 1024 z 0 false.

(** The values a scalar can resolve to: what [yaml.parse] and
    [Document.toJSON] can return. *)
Inductive JSValue :=
| JUndefined
| JNull
| JBool (b : bool)
| JNumber (x : number)
| JString (s : jsstring)
| JArray (l : list JSValue)
| JObject (l : list (jsstring * JSValue)).

(** ToBoolean: [undefined], [null], [false], [+0], [-0], [NaN] and the
    empty string are falsy. *)
Definition truthy (v : JSValue) : bool :=
  match v with
  | JUndefined | JNull => false
  | JBool b => b
  | JNumber (S754_zero _) | JNumber S754_nan => false
  | JNumber _ => true
  | JString [] => false
  | JString _ => true
  | JArray _ | JObject _ => true
  end.

(** [a || b] *)
Definition or_else (a b : JSValue) : JSValue := if truthy a then a else b.

(** [isFinite(x)] for a number [x] *)
Definition isFinite (x : number) : bool :=
  match x with
  | S754_zero _ | S754_finite _ _ _ => true
  | S754_infinity _ | S754_nan => false
  end.

(** The two entry points of the [yaml] package that the converter calls.
    They are external to the repository, so the development is
    parametric in them. *)
Record Yaml := {
  (** [yaml.parse(str)] *)
  parse : jsstring -> JSValue;
  (** [yaml.parseDocument(str).toJSON()] *)
  parseDocument_toJSON : jsstring -> JSValue
}.

(* ================================================================== *)
(** ** The input: the tree of yaml-unist-parser *)

Record Point := { offset : Z; line : Z; column : Z }.
Record Position := { start : Point; end_ : Point }.

Record Comment := { comment_position : Position; comment_value : jsstring }.
Record Anchor := { anchor_position : Position; anchor_value : jsstring }.
Record Tag := { tag_position : Position; tag_value : jsstring }.
Record Directive := { directive_position : Position }.

(** What every content node carries: [position], [anchor], [tag]. *)
Record Header := {
  position : Position;
  anchor : option Anchor;
  tag : option Tag
}.

Inductive Chomping := clip | keep | strip.

Section Items.
Variable C : Type.
(** [MappingKey] and [MappingValue]: [children] is [[]] or [[C]]. *)
Record MappingKey := { mk_position : Position; mk_children : list C }.
Record MappingValue := { mv_position : Position; mv_children : list C }.
(** [MappingItem] and [FlowMappingItem]: [children] is [[key, value]]. *)
Record MappingItem := {
  mi_position : Position;
  mi_key : MappingKey;
  mi_value : MappingValue
}.
(** [SequenceItem] and [FlowSequenceItem] *)
Record SequenceItem := { si_position : Position; si_children : list C }.
(** A child of a flow sequence, told apart by its [type]. *)
Inductive FlowSequenceChild :=
| flowSequenceItem (n : SequenceItem)
| flowMappingItem (n : MappingItem).
End Items.

Arguments mk_position {C}. Arguments mk_children {C}.
Arguments mv_position {C}. Arguments mv_children {C}.
Arguments mi_position {C}. Arguments mi_key {C}. Arguments mi_value {C}.
Arguments si_position {C}. Arguments si_children {C}.
Arguments flowSequenceItem {C}. Arguments flowMappingItem {C}.

(** [ContentNode], by its [type]. The last constructor stands for a node
    whose [type] is none of the ten that [convertContentNode] tests for;
    the TypeScript type has no such node, the run-time value may. *)
Inductive ContentNode :=
| mapping (h : Header) (children : list (MappingItem ContentNode))
| flowMapping (h : Header) (children : list (MappingItem ContentNode))
| sequence (h : Header) (children : list (SequenceItem ContentNode))
| flowSequence (h : Header) (children : list (FlowSequenceChild ContentNode))
| plain (h : Header) (value : jsstring)
| quoteDouble (h : Header) (value : jsstring)
| quoteSingle (h : Header) (value : jsstring)
| blockLiteral (h : Header) (chomping : Chomping) (indent : option Z)
    (value : jsstring)
| blockFolded (h : Header) (chomping : Chomping) (indent : option Z)
    (value : jsstring)
| alias (h : Header) (value : jsstring)
| otherNode (type : jsstring) (p : Position).

Record DocumentHead := { dh_position : Position; dh_children : list Directive }.
Record DocumentBody := { db_position : Position; db_children : list ContentNode }.
(** [Document]: [children] is [[head, body]]. *)
Record Document := {
  doc_position : Position;
  doc_head : DocumentHead;
  doc_body : DocumentBody
}.
Record Root := {
  root_position : Position;
  root_children : list Document;
  root_comments : list Comment
}.

(* ================================================================== *)
(** ** The output: tokens and the ESLint tree *)

Record Loc := { loc_line : Z; loc_column : Z }.
Record SourceLocation := { loc_start : Loc; loc_end : Loc }.
Record Locations := { range : Z * Z; loc : SourceLocation }.

Inductive TokenType :=
| Block | Marker | DirectiveT | Boolean | Numeric | Null | Identifier
| StringT | BlockLiteralT | BlockFoldedT | Punctuator.

Record Token := {
  tk_type : TokenType;
  tk_value : jsstring;
  tk_loc : Locations
}.

Record YAMLComment := { c_value : jsstring; c_loc : Locations }.

(** A reference to a node of the output tree: its index in the store. *)
Abbreviation ref := nat.

Inductive Style := block | flow.

(** The data of a scalar. For the plain and the quoted styles [value] is
    a getter; the constructor keeps what the getter's closure captured:
    [node.tag], and [strValue] / [tokenValue] / the source text. *)
Inductive Scalar :=
| plainScalar (strValue : jsstring) (node_tag : option Tag)
    (tokenValue : JSValue)
| doubleQuoted (strValue : jsstring) (node_tag : option Tag)
    (text : jsstring)
| singleQuoted (strValue : jsstring) (node_tag : option Tag)
    (text : jsstring)
| literal (chomping : Chomping) (indent : option Z) (value : jsstring)
| folded (chomping : Chomping) (indent : option Z) (value : jsstring).

(** The nodes of the output tree. [YAMLProgram.tokens] is the shared
    token buffer, kept in the state; its [parent] is [null]. *)
Inductive YAMLNode :=
| YAMLProgram (body : list ref) (comments : list YAMLComment)
    (l : Locations)
| YAMLDocument (directives : list ref) (content : option ref)
    (parent : ref) (anchors : gmap jsstring ref) (l : Locations)
| YAMLDirective (value : jsstring) (parent : ref) (l : Locations)
| YAMLMapping (style : Style) (pairs : list ref)
    (anchor tag : option ref) (parent : ref) (l : Locations)
| YAMLPair (key value : option ref) (parent : ref) (l : Locations)
| YAMLSequence (style : Style) (entries : list ref)
    (anchor tag : option ref) (parent : ref) (l : Locations)
| YAMLScalar (data : Scalar) (anchor tag : option ref) (parent : ref)
    (l : Locations)
| YAMLAlias (name : jsstring) (anchor tag : option ref) (parent : ref)
    (l : Locations)
| YAMLAnchor (name : jsstring) (parent : ref) (l : Locations)
| YAMLTag (tag : jsstring) (parent : ref) (l : Locations).

(** The state of a conversion: the token buffer and the store. *)
Record State := { tokens : list Token; store : list YAMLNode }.

Definition St (A : Type) : Type := State -> A * State.

(** [throw new Error(msg)] *)
Inductive Exn := Error (msg : jsstring).

Definition M (A : Type) : Type := State -> Exn + A * State.

Definition ret {A} (a : A) : St A := fun s => (a, s).
Definition bind {A B} (m : St A) (k : A -> St B) : St B :=
  fun s => let (a, s') := m s in k a s'.

Definition retM {A} (a : A) : M A := fun s => inr (a, s).
Definition bindM {A B} (m : M A) (k : A -> M B) : M B :=
  fun s => match m s with
           | inl e => inl e
           | inr (a, s') => k a s'
           end.
Definition throw {A} (msg : jsstring) : M A := fun _ => inl (Error msg).
Definition lift {A} (m : St A) : M A := fun s => inr (m s).

Declare Scope conv_scope.
Delimit Scope conv_scope with conv.
Notation "'let*' x := m 'in' k" := (bind m (fun x => k))
  (at level 10, x pattern, m at level 100, k at level 200) : conv_scope.
Notation "m ;; k" := (bind m (fun _ => k))
  (at level 100, k at level 200, right associativity) : conv_scope.
Notation "'let!' x := m 'in' k" := (bindM m (fun x => k))
  (at level 10, x pattern, m at level 100, k at level 200) : conv_scope.
Notation "m ;;! k" := (bindM m (fun _ => k))
  (at level 100, k at level 200, right associativity) : conv_scope.

(** [const ast = {...}]: a new object. *)
Definition alloc (n : YAMLNode) : St ref :=
  fun s => (length (store s),
            {| tokens := tokens s; store := store s ++ [n] |}).

(** An assignment to a field of the object [r], or a [push] on one of
    its arrays. *)
Definition modify (r : ref) (f : YAMLNode -> YAMLNode) : St unit :=
  fun s => (tt, {| tokens := tokens s; store := alter f r (store s) |}).

Definition push_body (x : ref) (n : YAMLNode) : YAMLNode :=
  match n with
  | YAMLProgram b c l => YAMLProgram (b ++ [x]) c l
  | _ => n
  end.
Definition push_directives (xs : list ref) (n : YAMLNode) : YAMLNode :=
  match n with
  | YAMLDocument d c p a l => YAMLDocument (d ++ xs) c p a l
  | _ => n
  end.
Definition set_content (x : option ref) (n : YAMLNode) : YAMLNode :=
  match n with
  | YAMLDocument d _ p a l => YAMLDocument d x p a l
  | _ => n
  end.
(** [doc.anchors[name] = x] *)
Definition set_anchors (name : jsstring) (x : ref) (n : YAMLNode) : YAMLNode :=
  match n with
  | YAMLDocument d c p a l => YAMLDocument d c p (<[name := x]> a) l
  | _ => n
  end.
Definition push_pairs (x : ref) (n : YAMLNode) : YAMLNode :=
  match n with
  | YAMLMapping s ps a t p l => YAMLMapping s (ps ++ [x]) a t p l
  | _ => n
  end.
Definition set_key (x : option ref) (n : YAMLNode) : YAMLNode :=
  match n with
  | YAMLPair _ v p l => YAMLPair x v p l
  | _ => n
  end.
Definition set_value (x : option ref) (n : YAMLNode) : YAMLNode :=
  match n with
  | YAMLPair k _ p l => YAMLPair k x p l
  | _ => n
  end.
Definition push_entries (xs : list ref) (n : YAMLNode) : YAMLNode :=
  match n with
  | YAMLSequence s es a t p l => YAMLSequence s (es ++ xs) a t p l
  | _ => n
  end.
(** [ast.anchor = a; ast.tag = t] *)
Definition set_anchor_tag (a t : option ref) (n : YAMLNode) : YAMLNode :=
  match n with
  | YAMLMapping s ps _ _ p l => YAMLMapping s ps a t p l
  | YAMLSequence s es _ _ p l => YAMLSequence s es a t p l
  | YAMLScalar d _ _ p l => YAMLScalar d a t p l
  | YAMLAlias nm _ _ p l => YAMLAlias nm a t p l
  | _ => n
  end.

(* ================================================================== *)
(** ** The converter *)

Local Open Scope conv_scope.

(** [getConvertLocation]: the column becomes 0-based. *)
Definition getConvertLocation (p : Position) : Locations :=
  {| range := (offset (start p), offset (end_ p));
     loc := {| loc_start := {| loc_line := line (start p);
                               loc_column := column (start p) - 1 |};
               loc_end := {| loc_line := line (end_ p);
                             loc_column := column (end_ p) - 1 |} |} |}.

(** [clone]: a deep copy. Values of the embedding have no identity, so
    the copy is the value. *)
Definition clone {A} (x : A) : A := x.

(** [code.slice(...range)] *)
Definition sliceRange (code : jsstring) (r : Z * Z) : jsstring :=
  slice code (fst r) (snd r).

(** [addToken] *)
Definition addToken (type : TokenType) (l : Locations) (code : jsstring)
  : St unit :=
  fun s =>
    (tt, {| tokens := tokens s ++
                      [{| tk_type := type;
                          tk_value := sliceRange code (range l);
                          tk_loc := l |}];
            store := store s |}).

Definition isTrue (str : jsstring) : bool :=
  eqb str (js "true") || eqb str (js "True") || eqb str (js "TRUE").

Definition isFalse (str : jsstring) : bool :=
  eqb str (js "false") || eqb str (js "False") || eqb str (js "FALSE").

Definition isNull (str : jsstring) : bool :=
  eqb str (js "null") || eqb str (js "Null") || eqb str (js "NULL")
  || eqb str (js "~").

Definition digit : regex := between "0" "9".
Definition sign : regex := RAlt (chr "-") (chr "+").

(** [/^0o([0-7]+)$/u] *)
Definition re_oct : regex := seqs [chr "0"; chr "o"; plus (between "0" "7")].
(** [/^[-+]?[0-9]+$/u] *)
Definition re_int : regex := seqs [opt sign; plus digit].
(** [/^0x([0-9a-fA-F]+)$/u] *)
Definition re_hex : regex :=
  seqs [chr "0"; chr "x";
        plus (RAlt digit (RAlt (between "a" "f") (between "A" "F")))].
(** [/^(?:[-+]?\.inf|(\.nan))$/iu] *)
Definition re_nan : regex :=
  RAlt (seqs [opt sign; chr "."; chrI "i" "I"; chrI "n" "N"; chrI "f" "F"])
       (seqs [chr "."; chrI "n" "N"; chrI "a" "A"; chrI "n" "N"]).
(** [/^[-+]?(?:\.[0-9]+|[0-9]+(?:\.[0-9]* )?)[eE][-+]?[0-9]+$/u] (a blank added after each star that a parenthesis follows) *)
Definition re_exp : regex :=
  seqs [opt sign;
        RAlt (seqs [chr "."; plus digit])
             (seqs [plus digit; opt (seqs [chr "."; RStar digit])]);
        RAlt (chr "e") (chr "E"); opt sign; plus digit].
(** [/^[-+]?(?:\.([0-9]+)|[0-9]+\.([0-9]* ))$/u] (a blank added after each star that a parenthesis follows) *)
Definition re_float : regex :=
  seqs [opt sign;
        RAlt (seqs [chr "."; plus digit])
             (seqs [plus digit; chr "."; RStar digit])].
(** [/^(?:[1-9]\d*|0)$/u] *)
Definition re_tag_int : regex :=
  RAlt (seqs [between "1" "9"; RStar digit]) (chr "0").

(** [needParse], local to [convertPlain] *)
Definition needParse (str : jsstring) : bool :=
  test re_oct str || test re_int str || test re_hex str
  || test re_nan str || test re_exp str || test re_float str.

(** The value of a run of decimal digits, and what is left after it. *)
Fixpoint digits (s : jsstring) (acc : Z) (seen : bool) : option Z :=
  match s with
  | c :: r =>
      if ((48 <=? c) && (c <=? 57))%N
      then digits r (10 * acc + (Z.of_N c - 48)) true
      else if seen then Some acc else None
  | [] => if seen then Some acc else None
  end.

(** [parseInt(str, 10)] on a string without leading space or sign (the
    call of the source is guarded by [re_tag_int]): the longest prefix of
    digits, or [NaN] when there is none. *)
Definition parseInt10 (str : jsstring) : number :=
  match digits str 0 false with
  | Some z => numberOfZ z
  | None => S754_nan
  end.

Section Converter.

Variable yaml : Yaml.

(** [getTaggedValue] *)
Definition getTaggedValue (tag : Tag) (text str : jsstring) : JSValue :=
  let delegate :=
    let tagText :=
      if startsWith (tag_value tag) (js "!") then tag_value tag
      else js "!<" ++ tag_value tag ++ js ">" in
    parseDocument_toJSON yaml (tagText ++ js " " ++ text) in
  if eqb (tag_value tag) (js "tag:yaml.org,2002:str") then JString str
  else if eqb (tag_value tag) (js "tag:yaml.org,2002:int") then
    if test re_tag_int str then JNumber (parseInt10 str) else delegate
  else if eqb (tag_value tag) (js "tag:yaml.org,2002:bool") then
    if isTrue str then JBool true
    else if isFalse str then JBool false
    else delegate
  else if eqb (tag_value tag) (js "tag:yaml.org,2002:null") then
    if isNull str || eqb str [] then JNull else delegate
  else delegate.

(** [tokenValue] of [convertPlain]: the classification of the raw text,
    made before any tag is looked at. *)
Definition plainTokenValue (strValue : jsstring) : JSValue :=
  if isTrue strValue then JBool true
  else if isFalse strValue then JBool false
  else if isNull strValue then JNull
  else if needParse strValue
       then or_else (parse yaml strValue) (JString strValue)
  else JString strValue.

(** The token type that [convertPlain] chooses from [tokenValue]. *)
Definition plainTokenType (tokenValue : JSValue) : TokenType :=
  match tokenValue with
  | JBool _ => Boolean
  | JNumber x => if isFinite x then Numeric else Identifier
  | JNull => Null
  | _ => Identifier
  end.

(** The getter [value] of a scalar node. The source caches the result in
    a local variable; the computation is a function of what the closure
    captured, so every read returns this value. Block scalars hold
    [node.value] itself. *)
Definition scalarValue (d : Scalar) : JSValue :=
  match d with
  | plainScalar strValue node_tag tokenValue =>
      match node_tag with
      | Some t => getTaggedValue t strValue strValue
      | None => tokenValue
      end
  | doubleQuoted strValue node_tag text
  | singleQuoted strValue node_tag text =>
      match node_tag with
      | Some t => getTaggedValue t text strValue
      | None => JString strValue
      end
  | literal _ _ value | folded _ _ value => JString value
  end.

(** The sigil and name tokens shared by [convertAlias], [convertAnchor]
    and [convertTag]: a Punctuator of [n] characters, then an Identifier
    for the rest of the range. *)
Definition sigilTokens (l : Locations) (n : Z) (code : jsstring) : St unit :=
  let punctuatorLoc :=
    {| range := (fst (range l), fst (range l) + n);
       loc := {| loc_start := clone (loc_start (loc l));
                 loc_end := {| loc_line := loc_line (loc_start (loc l));
                               loc_column :=
                                 loc_column (loc_start (loc l)) + n |} |} |} in
  addToken Punctuator punctuatorLoc code ;;
  let tokenLoc :=
    {| range := (snd (range punctuatorLoc), snd (range l));
       loc := {| loc_start := clone (loc_end (loc punctuatorLoc));
                 loc_end := clone (loc_end (loc l)) |} |} in
  addToken Identifier tokenLoc code.

(** [convertAnchor] *)
Definition convertAnchor (node : Anchor) (code : jsstring) (parent doc : ref)
  : St ref :=
  let l := getConvertLocation (anchor_position node) in
  let value := anchor_value node in
  let* ast := alloc (YAMLAnchor value parent l) in
  modify doc (set_anchors value ast) ;;
  let text := sliceRange code (range l) in
  (if startsWith text (js "&") then sigilTokens l 1 code
   else addToken Identifier (clone l) code) ;;
  ret ast.

(** [convertTag] *)
Definition convertTag (node : Tag) (code : jsstring) (parent : ref)
  : St ref :=
  let l := getConvertLocation (tag_position node) in
  let value := tag_value node in
  let* ast := alloc (YAMLTag value parent l) in
  let text := sliceRange code (range l) in
  (if startsWith text (js "!") then
     let offset := if startsWith text (js "!!") then 2 else 1 in
     sigilTokens l offset code
   else addToken Identifier (clone l) code) ;;
  ret ast.

(** [convertAnchorAndTag], followed by the two assignments
    [ast.anchor = anchor] and [ast.tag = tag] that every caller makes. *)
Definition convertAnchorAndTag (h : Header) (code : jsstring)
    (parent doc : ref) : St unit :=
  let* a := match anchor h with
            | Some n => let* r := convertAnchor n code parent doc in
                        ret (Some r)
            | None => ret None
            end in
  let* t := match tag h with
            | Some n => let* r := convertTag n code parent in ret (Some r)
            | None => ret None
            end in
  modify parent (set_anchor_tag a t).

(** [convertPlain] *)
Definition convertPlain (h : Header) (value : jsstring) (code : jsstring)
    (parent doc : ref) : St ref :=
  let l := getConvertLocation (position h) in
  let strValue := value in
  let tokenValue := plainTokenValue strValue in
  let* ast := alloc (YAMLScalar (plainScalar strValue (tag h) tokenValue)
                       None None parent l) in
  convertAnchorAndTag h code ast doc ;;
  addToken (plainTokenType tokenValue) (clone l) code ;;
  ret ast.

(** [convertQuoteDouble] *)
Definition convertQuoteDouble (h : Header) (value : jsstring)
    (code : jsstring) (parent doc : ref) : St ref :=
  let l := getConvertLocation (position h) in
  let strValue := value in
  let* ast := alloc (YAMLScalar
                       (doubleQuoted strValue (tag h)
                          (sliceRange code (range l)))
                       None None parent l) in
  convertAnchorAndTag h code ast doc ;;
  addToken StringT (clone l) code ;;
  ret ast.

(** [convertQuoteSingle] *)
Definition convertQuoteSingle (h : Header) (value : jsstring)
    (code : jsstring) (parent doc : ref) : St ref :=
  let l := getConvertLocation (position h) in
  let strValue := value in
  let* ast := alloc (YAMLScalar
                       (singleQuoted strValue (tag h)
                          (sliceRange code (range l)))
                       None None parent l) in
  convertAnchorAndTag h code ast doc ;;
  addToken StringT (clone l) code ;;
  ret ast.

(** The first loop of the block scalar converters: over the header,
    up to the first space. [rest] is [text] from [index] on. *)
Fixpoint headerScan (rest : jsstring) (line column index : Z) : Z * Z * Z :=
  match rest with
  | [] => (line, column, index)
  | c :: r =>
      if negb (trimTruthy c) then (line, column, index)
      else
        let column := column + 1 in
        if (c =? 10)%N then (line + 1, 0, index)
        else headerScan r line column (index + 1)
  end.

(** The second loop: over the spaces that follow the header. *)
Fixpoint bodyScan (rest : jsstring) (line column index : Z) : Z * Z * Z :=
  match rest with
  | [] => (line, column, index)
  | c :: r =>
      if trimTruthy c then (line, column, index)
      else
        let column := column + 1 in
        if (c =? 10)%N then bodyScan r (line + 1) 0 (index + 1)
        else bodyScan r line column (index + 1)
  end.

(** The tokens of a block scalar: what [convertBlockLiteral] and
    [convertBlockFolded] do after [convertAnchorAndTag], for the
    indicator [ind] and the token type [ty] of the style. *)
Definition blockTokens (ind : ascii) (ty : TokenType) (l : Locations)
    (code : jsstring) : St unit :=
  let text := sliceRange code (range l) in
  if startsWith text [ord ind] then
    let line := loc_line (loc_start (loc l)) in
    let column := loc_column (loc_start (loc l)) + 1 in
    let offset := fst (range l) in
    let '(line, column, index) := headerScan (drop 1 text) line column 1 in
    let punctuatorLoc :=
      {| range := (offset, offset + index);
         loc := {| loc_start := clone (loc_start (loc l));
                   loc_end := {| loc_line := line;
                                 loc_column := column |} |} |} in
    addToken Punctuator punctuatorLoc code ;;
    let '(line, column, index) :=
      bodyScan (drop (Z.to_nat index) text) line column index in
    let tokenLoc :=
      {| range := (offset + index, snd (range l));
         loc := {| loc_start := {| loc_line := line; loc_column := column |};
                   loc_end := clone (loc_end (loc l)) |} |} in
    addToken ty tokenLoc code
  else addToken ty (clone l) code.

(** [convertBlockLiteral] *)
Definition convertBlockLiteral (h : Header) (chomping : Chomping)
    (indent : option Z) (value : jsstring) (code : jsstring)
    (parent doc : ref) : St ref :=
  let l := getConvertLocation (position h) in
  let* ast := alloc (YAMLScalar (literal chomping indent value)
                       None None parent l) in
  convertAnchorAndTag h code ast doc ;;
  blockTokens "|" BlockLiteralT l code ;;
  ret ast.

(** [convertBlockFolded] *)
Definition convertBlockFolded (h : Header) (chomping : Chomping)
    (indent : option Z) (value : jsstring) (code : jsstring)
    (parent doc : ref) : St ref :=
  let l := getConvertLocation (position h) in
  let* ast := alloc (YAMLScalar (folded chomping indent value)
                       None None parent l) in
  convertAnchorAndTag h code ast doc ;;
  blockTokens ">" BlockFoldedT l code ;;
  ret ast.

(** [convertAlias] *)
Definition convertAlias (h : Header) (value : jsstring) (code : jsstring)
    (parent doc : ref) : St ref :=
  let l := getConvertLocation (position h) in
  let* ast := alloc (YAMLAlias value None None parent l) in
  convertAnchorAndTag h code ast doc ;;
  let text := sliceRange code (range l) in
  (if startsWith text (js "*") then sigilTokens l 1 code
   else addToken Identifier (clone l) code) ;;
  ret ast.

End Converter.

(** [for (const x of l) body(x)] *)
Definition forEach {A} (body : A -> M unit) : list A -> M unit :=
  fix go (l : list A) : M unit :=
    match l with
    | [] => retM tt
    | x :: r => body x ;;! go r
    end.

(** [for (const x of l) body(x)] for a body that cannot throw *)
Definition forEachSt {A} (body : A -> St unit) : list A -> St unit :=
  fix go (l : list A) : St unit :=
    match l with
    | [] => ret tt
    | x :: r => body x ;; go r
    end.

Section Walk.

Variable yaml : Yaml.

(** The functions between [convertContentNode] and its recursive calls
    take it as an argument; the knot is tied below. *)
Section Open.

Variable convertContentNode : ContentNode -> jsstring -> ref -> ref -> M ref.

(** [convertMappingKey] *)
Definition convertMappingKey (node : MappingKey ContentNode)
    (code : jsstring) (parent doc : ref) : M (option ref) :=
  match mk_children node with
  | c :: _ => let! r := convertContentNode c code parent doc in
              retM (Some r)
  | [] => retM None
  end.

(** [convertMappingValue] *)
Definition convertMappingValue (node : MappingValue ContentNode)
    (code : jsstring) (parent doc : ref) : M (option ref) :=
  match mv_children node with
  | c :: _ => let! r := convertContentNode c code parent doc in
              retM (Some r)
  | [] => retM None
  end.

(** [convertMappingItem] *)
Definition convertMappingItem (node : MappingItem ContentNode)
    (code : jsstring) (parent doc : ref) : M ref :=
  let l := getConvertLocation (mi_position node) in
  let! ast := lift (alloc (YAMLPair None None parent l)) in
  let! k := convertMappingKey (mi_key node) code ast doc in
  lift (modify ast (set_key k)) ;;!
  let! v := convertMappingValue (mi_value node) code ast doc in
  lift (modify ast (set_value v)) ;;!
  retM ast.

(** [convertMapping] ([style] is [block]) and [convertFlowMapping]
    ([style] is [flow]): the two bodies differ in nothing else. *)
Definition convertMappingOf (style : Style) (h : Header)
    (children : list (MappingItem ContentNode)) (code : jsstring)
    (parent doc : ref) : M ref :=
  let l := getConvertLocation (position h) in
  let! ast := lift (alloc (YAMLMapping style [] None None parent l)) in
  forEach (fun n =>
             let! p := convertMappingItem n code ast doc in
             lift (modify ast (push_pairs p))) children ;;!
  lift (convertAnchorAndTag h code ast doc) ;;!
  retM ast.

Definition convertMapping := convertMappingOf block.
Definition convertFlowMapping := convertMappingOf flow.

(** [convertSequenceItem]: a generator that yields at most once; the
    caller spreads it, so it runs to its end before the [push]. *)
Definition convertSequenceItem (node : SequenceItem ContentNode)
    (code : jsstring) (parent doc : ref) : M (list ref) :=
  match si_children node with
  | c :: _ => let! r := convertContentNode c code parent doc in
              retM [r]
  | [] => retM []
  end.

(** [convertSequence] *)
Definition convertSequence (h : Header)
    (children : list (SequenceItem ContentNode)) (code : jsstring)
    (parent doc : ref) : M ref :=
  let l := getConvertLocation (position h) in
  let! ast := lift (alloc (YAMLSequence block [] None None parent l)) in
  forEach (fun n =>
             let! es := convertSequenceItem n code ast doc in
             lift (modify ast (push_entries es))) children ;;!
  lift (convertAnchorAndTag h code ast doc) ;;!
  retM ast.

(** The body of the loop of [convertFlowSequence]. *)
Definition convertFlowSequenceChild (n : FlowSequenceChild ContentNode)
    (code : jsstring) (ast parent doc : ref) : M unit :=
  match n with
  | flowSequenceItem n =>
      let! es := convertSequenceItem n code ast doc in
      lift (modify ast (push_entries es))
  | flowMappingItem n =>
      let! map := lift (alloc (YAMLMapping block [] None None parent
                                 (getConvertLocation (mi_position n)))) in
      let! pr := convertMappingItem n code map doc in
      lift (modify map (push_pairs pr)) ;;!
      lift (modify ast (push_entries [map]))
  end.

(** [convertFlowSequence] *)
Definition convertFlowSequence (h : Header)
    (children : list (FlowSequenceChild ContentNode)) (code : jsstring)
    (parent doc : ref) : M ref :=
  let l := getConvertLocation (position h) in
  let! ast := lift (alloc (YAMLSequence flow [] None None parent l)) in
  forEach (fun n => convertFlowSequenceChild n code ast parent doc)
    children ;;!
  lift (convertAnchorAndTag h code ast doc) ;;!
  retM ast.

End Open.

(** [convertContentNode] *)
Fixpoint convertContentNode (node : ContentNode) (code : jsstring)
    (parent doc : ref) {struct node} : M ref :=
  match node with
  | mapping h children =>
      convertMapping convertContentNode h children code parent doc
  | flowMapping h children =>
      convertFlowMapping convertContentNode h children code parent doc
  | sequence h children =>
      convertSequence convertContentNode h children code parent doc
  | flowSequence h children =>
      convertFlowSequence convertContentNode h children code parent doc
  | plain h value => lift (convertPlain yaml h value code parent doc)
  | quoteDouble h value => lift (convertQuoteDouble h value code parent doc)
  | quoteSingle h value => lift (convertQuoteSingle h value code parent doc)
  | blockLiteral h chomping indent value =>
      lift (convertBlockLiteral h chomping indent value code parent doc)
  | blockFolded h chomping indent value =>
      lift (convertBlockFolded h chomping indent value code parent doc)
  | alias h value => lift (convertAlias h value code parent doc)
  | otherNode type _ => throw (js "Unsupported node: " ++ type)
  end.

(** The Marker token of [convertDocument] and [convertDocumentHead]:
    when the character before the end of the range is [c], a token on
    the last three characters of the range. *)
Definition markerToken (c : ascii) (l : Locations) (code : jsstring)
  : St unit :=
  if bool_decide (charAt code (snd (range l) - 1) = Some (ord c)) then
    let range := (snd (range l) - 3, snd (range l)) in
    addToken Marker
      {| range := range;
         loc := {| loc_start := {| loc_line := loc_line (loc_end (loc l));
                                   loc_column :=
                                     loc_column (loc_end (loc l)) - 3 |};
                   loc_end := clone (loc_end (loc l)) |} |}
      code
  else ret tt.

(** [convertDirective] *)
Definition convertDirective (node : Directive) (code : jsstring)
    (parent : ref) : St ref :=
  let l := getConvertLocation (directive_position node) in
  let value := sliceRange code (range l) in
  let* ast := alloc (YAMLDirective value parent l) in
  addToken DirectiveT (clone l) code ;;
  ret ast.

(** The loop of [convertDocumentHead], with the directives it yields. *)
Fixpoint convertDirectives (l : list Directive) (code : jsstring)
    (parent : ref) : St (list ref) :=
  match l with
  | [] => ret []
  | n :: r => let* d := convertDirective n code parent in
              let* ds := convertDirectives r code parent in
              ret (d :: ds)
  end.

(** [convertDocumentHead]: a generator; the caller spreads it, so the
    Marker test after the loop runs before the [push]. *)
Definition convertDocumentHead (node : DocumentHead) (code : jsstring)
    (parent : ref) : St (list ref) :=
  let* ds := convertDirectives (dh_children node) code parent in
  let l := getConvertLocation (dh_position node) in
  markerToken "-" l code ;;
  ret ds.

(** [convertDocumentBody] *)
Definition convertDocumentBody (node : DocumentBody) (code : jsstring)
    (parent : ref) : M (option ref) :=
  match db_children node with
  | contentNode :: _ =>
      let! r := convertContentNode contentNode code parent parent in
      retM (Some r)
  | [] => retM None
  end.

(** [convertDocument] *)
Definition convertDocument (node : Document) (code : jsstring)
    (parent : ref) : M ref :=
  let l := getConvertLocation (doc_position node) in
  let! ast := lift (alloc (YAMLDocument [] None parent ∅ l)) in
  let! ds := lift (convertDocumentHead (doc_head node) code ast) in
  lift (modify ast (push_directives ds)) ;;!
  let! c := convertDocumentBody (doc_body node) code ast in
  lift (modify ast (set_content c)) ;;!
  lift (markerToken "." l code) ;;!
  retM ast.

(** One step of the two [reduce] calls of [convertRoot]: the characters
    of [r] that are not spaces become blanks. *)
Definition blank (text : jsstring) (r : Z * Z) : jsstring :=
  slice text 0 (fst r) ++ replaceNonSpace (slice text (fst r) (snd r))
  ++ sliceFrom text (snd r).

(** [isPunctuator], local to [convertRoot] *)
Definition isPunctuator (c : N) : bool :=
  (N.eqb c (ord ":") || N.eqb c (ord "-") || N.eqb c (ord ",")
   || N.eqb c (ord "{") || N.eqb c (ord "}") || N.eqb c (ord "[")
   || N.eqb c (ord "]") || N.eqb c (ord "?")).

(** The scan of [convertRoot] over [stripTokensCode]; [rest] is the
    text from [index] on. *)
Fixpoint scan (stripTokensCode rest : jsstring) (index line column : Z)
  : St unit :=
  match rest with
  | [] => ret tt
  | c :: r =>
      if (c =? 10)%N then scan stripTokensCode r (index + 1) (line + 1) 0
      else
        (if trimTruthy c && isPunctuator c then
           addToken Punctuator
             {| range := (index, index + 1);
                loc := {| loc_start := {| loc_line := line;
                                          loc_column := column |};
                          loc_end := {| loc_line := line;
                                        loc_column := column + 1 |} |} |}
             stripTokensCode
         else ret tt) ;;
        scan stripTokensCode r (index + 1) line (column + 1)
  end.

(** [tokens.sort((a, b) => a.range[0] - b.range[0])]: the sort of an
    array is stable, so the result is the one of an insertion sort that
    never moves a token across one with the same start. *)
Definition startOf (t : Token) : Z := fst (range (tk_loc t)).

Fixpoint insertToken (t : Token) (l : list Token) : list Token :=
  match l with
  | [] => [t]
  | u :: r =>
      if startOf t <=? startOf u then t :: u :: r
      else u :: insertToken t r
  end.

Definition sortTokens (l : list Token) : list Token :=
  foldr insertToken [] l.

(** The comments of [convertRoot]. *)
Definition convertComments (node : Root) : list YAMLComment :=
  map (fun n => {| c_value := comment_value n;
                   c_loc := getConvertLocation (comment_position n) |})
    (root_comments node).

(** [stripCommentCode] of [convertRoot] *)
Definition stripComments (code : jsstring) (comments : list YAMLComment)
  : jsstring :=
  foldl (fun text comment => blank text (range (c_loc comment)))
    code comments.

(** [stripTokensCode] of [convertRoot] *)
Definition stripTokens (stripCommentCode : jsstring) (tokens : list Token)
  : jsstring :=
  foldl (fun text token => blank text (range (tk_loc token)))
    stripCommentCode tokens.

(** The first part of [convertRoot]: the Program node and the walk over
    the documents, from the empty token buffer. Its tokens are the ones
    that the text calls phase 1. *)
Definition convertDocuments (node : Root) (code : jsstring)
  : Exn + ref * State :=
  let comments := convertComments node in
  let stripCommentCode := stripComments code comments in
  (let! ast := lift (alloc (YAMLProgram [] comments
                              (getConvertLocation (root_position node)))) in
   forEach (fun n =>
              let! d := convertDocument n stripCommentCode ast in
              lift (modify ast (push_body d)))
     (root_children node) ;;!
   retM ast) {| tokens := []; store := [] |}.

(** The tokens that the scan of [convertRoot] adds to the buffer [toks]:
    phase 2. *)
Definition gapTokens (stripCommentCode : jsstring) (toks : list Token)
  : list Token :=
  let stripTokensCode := stripTokens stripCommentCode toks in
  tokens (scan stripTokensCode stripTokensCode 0 1 0
            {| tokens := []; store := [] |}).2.

(** [convertRoot]. The result is the reference to the Program node and
    the final state; [ast.tokens] is the token buffer of that state. *)
Definition convertRoot (node : Root) (code : jsstring) : Exn + ref * State :=
  match convertDocuments node code with
  | inl e => inl e
  | inr (ast, s) =>
      let stripCommentCode := stripComments code (convertComments node) in
      let stripTokensCode := stripTokens stripCommentCode (tokens s) in
      let '(_, s) := scan stripTokensCode stripTokensCode 0 1 0 s in
      inr (ast, {| tokens := sortTokens (tokens s); store := store s |})
  end.

End Walk.

(* ================================================================== *)
(** ** Reading the output *)

(** [node.value] for the scalar node at [r]. *)
Definition valueAt (yaml : Yaml) (s : list YAMLNode) (r : ref)
  : option JSValue :=
  match s !! r with
  | Some (YAMLScalar d _ _ _ _) => Some (scalarValue yaml d)
  | _ => None
  end.

(** [node.parent] *)
Definition parentOf (n : YAMLNode) : option ref :=
  match n with
  | YAMLProgram _ _ _ => None
  | YAMLDocument _ _ p _ _ | YAMLDirective _ p _
  | YAMLMapping _ _ _ _ p _ | YAMLPair _ _ p _ | YAMLSequence _ _ _ _ p _
  | YAMLScalar _ _ _ p _ | YAMLAlias _ _ _ p _ | YAMLAnchor _ p _
  | YAMLTag _ p _ => Some p
  end.

(** The node is a [YAMLContent]: a mapping, a sequence, a scalar or an
    alias. *)
Definition isContent (n : YAMLNode) : bool :=
  match n with
  | YAMLMapping _ _ _ _ _ _ | YAMLSequence _ _ _ _ _ _
  | YAMLScalar _ _ _ _ _ | YAMLAlias _ _ _ _ _ => true
  | _ => false
  end.

Definition isPair (n : YAMLNode) : bool :=
  match n with YAMLPair _ _ _ _ => true | _ => false end.

(* ================================================================== *)
(** ** Sample inputs

    Trees as yaml-unist-parser builds them, for the scenarios of the
    specification and for the concrete runs below. *)

Module Sample.

(** A point on line 1: the column is 1-based. *)
Definition pt (o : Z) : Point := {| offset := o; line := 1; column := o + 1 |}.
(** A point on line [l] at 1-based column [c]. *)
Definition ptAt (o l c : Z) : Point := {| offset := o; line := l; column := c |}.
Definition span (a b : Z) : Position := {| start := pt a; end_ := pt b |}.
Definition spanAt (a la ca b lb cb : Z) : Position :=
  {| start := ptAt a la ca; end_ := ptAt b lb cb |}.
Definition bare (p : Position) : Header :=
  {| position := p; anchor := None; tag := None |}.
Definition tagged (p : Position) (t : Tag) : Header :=
  {| position := p; anchor := None; tag := Some t |}.
Definition anchored (p : Position) (a : Anchor) : Header :=
  {| position := p; anchor := Some a; tag := None |}.

(** A block mapping item [k: v] on line 1. *)
Definition item (p pk pv : Position) (k v : list ContentNode)
  : MappingItem ContentNode :=
  {| mi_position := p;
     mi_key := {| mk_position := pk; mk_children := k |};
     mi_value := {| mv_position := pv; mv_children := v |} |}.

(** One document without directives whose body is [content]. *)
Definition document (p : Position) (headEnd : Point)
    (content : list ContentNode) : Document :=
  {| doc_position := p;
     doc_head := {| dh_position := {| start := start p; end_ := headEnd |};
                    dh_children := [] |};
     doc_body := {| db_position := p; db_children := content |} |}.

Definition root (p : Position) (docs : list Document) (cs : list Comment)
  : Root :=
  {| root_position := p; root_children := docs; root_comments := cs |}.

(** A stand-in for the [yaml] package that reads unsigned decimal
    integers and leaves everything else a string. *)
Definition decimalYaml : Yaml :=
  {| parse := fun s =>
       if test re_tag_int s then JNumber (parseInt10 s) else JString s;
     parseDocument_toJSON := fun _ => JUndefined |}.

(** The input [n: !!str 123]. *)
Definition strTagSource : jsstring := js "n: !!str 123".
Definition strTag : Tag :=
  {| tag_position := span 3 8; tag_value := js "tag:yaml.org,2002:str" |}.
Definition strTagTree : Root :=
  root (span 0 12)
    [document (span 0 12) (pt 0)
       [mapping (bare (span 0 12))
          [item (span 0 12) (span 0 1) (span 1 12)
             [plain (bare (span 0 1)) (js "n")]
             [plain (tagged (span 9 12) strTag) (js "123")]]]]
    [].

(** The input of two lines [a: 1 # (U+1F600)] and [b: 2]: the comment
    holds one character outside the basic plane, two code units. *)
Definition emojiSource : jsstring :=
  js "a: 1 # " ++ [55357; 56832; 10]%N ++ js "b: 2".
Definition emojiTree : Root :=
  root (spanAt 0 1 1 14 2 5)
    [document (spanAt 0 1 1 14 2 5) (pt 0)
       [mapping (bare (spanAt 0 1 1 14 2 5))
          [item (span 0 4) (span 0 1) (span 1 4)
             [plain (bare (span 0 1)) (js "a")]
             [plain (bare (span 3 4)) (js "1")];
           item (spanAt 10 2 1 14 2 5) (spanAt 10 2 1 11 2 2)
             (spanAt 11 2 2 14 2 5)
             [plain (bare (spanAt 10 2 1 11 2 2)) (js "b")]
             [plain (bare (spanAt 13 2 4 14 2 5)) (js "2")]]]]
    [{| comment_position := span 5 9;
        comment_value := [32; 55357; 56832]%N |}].

(** The input of two lines [a: 1 # c] and [b: 2]: a comment of basic
    characters. *)
Definition commentSource : jsstring :=
  js "a: 1 # c" ++ [10%N] ++ js "b: 2".
Definition commentTree : Root :=
  root (spanAt 0 1 1 13 2 5)
    [document (spanAt 0 1 1 13 2 5) (pt 0)
       [mapping (bare (spanAt 0 1 1 13 2 5))
          [item (span 0 4) (span 0 1) (span 1 4)
             [plain (bare (span 0 1)) (js "a")]
             [plain (bare (span 3 4)) (js "1")];
           item (spanAt 9 2 1 13 2 5) (spanAt 9 2 1 10 2 2)
             (spanAt 10 2 2 13 2 5)
             [plain (bare (spanAt 9 2 1 10 2 2)) (js "b")]
             [plain (bare (spanAt 12 2 4 13 2 5)) (js "2")]]]]
    [{| comment_position := span 5 8; comment_value := js " c" |}].

(** The input [{(U+1F600): 1}]: a flow mapping whose key is one
    character outside the basic plane; no comment. *)
Definition emojiKeySource : jsstring :=
  js "{" ++ [55357; 56832]%N ++ js ": 1}".
Definition emojiKeyTree : Root :=
  root (span 0 7)
    [document (span 0 7) (pt 0)
       [flowMapping (bare (span 0 7))
          [item (span 1 6) (span 1 3) (span 3 6)
             [plain (bare (span 1 3)) [55357; 56832]%N]
             [plain (bare (span 5 6)) (js "1")]]]]
    [].

(** The input [a: b.] without a line break at its end: the document
    ends where its content ends. *)
Definition dotSource : jsstring := js "a: b.".
Definition dotTree : Root :=
  root (span 0 5)
    [document (span 0 5) (pt 0)
       [mapping (bare (span 0 5))
          [item (span 0 5) (span 0 1) (span 1 5)
             [plain (bare (span 0 1)) (js "a")]
             [plain (bare (span 3 5)) (js "b.")]]]]
    [].

(** The input [a: 1]. *)
Definition pairSource : jsstring := js "a: 1".
Definition pairTree : Root :=
  root (span 0 4)
    [document (span 0 4) (pt 0)
       [mapping (bare (span 0 4))
          [item (span 0 4) (span 0 1) (span 1 4)
             [plain (bare (span 0 1)) (js "a")]
             [plain (bare (span 3 4)) (js "1")]]]]
    [].

(** The flow sequence [[a: 1, b]], with an item without body added at
    its end, and a store to convert it in: a Program and a Document. *)
Definition flowSource : jsstring := js "[a: 1, b]".
Definition flowNode : ContentNode :=
  flowSequence (bare (span 0 9))
    [flowMappingItem
       (item (span 1 5) (span 1 2) (span 2 5)
          [plain (bare (span 1 2)) (js "a")]
          [plain (bare (span 4 5)) (js "1")]);
     flowSequenceItem
       {| si_position := span 7 8;
          si_children := [plain (bare (span 7 8)) (js "b")] |};
     flowSequenceItem {| si_position := span 8 8; si_children := [] |}].
Definition flowStart : State :=
  {| tokens := [];
     store := [YAMLProgram [1%nat] [] (getConvertLocation (span 0 9));
               YAMLDocument [] None 0 ∅ (getConvertLocation (span 0 9))] |}.

(** The input of two lines [- &a x] and [- &a y]: the anchor name [a]
    is defined twice in one document. *)
Definition twoAnchorsSource : jsstring :=
  js "- &a x" ++ [10%N] ++ js "- &a y".
Definition twoAnchorsTree : Root :=
  root (spanAt 0 1 1 13 2 7)
    [document (spanAt 0 1 1 13 2 7) (pt 0)
       [sequence (bare (spanAt 0 1 1 13 2 7))
          [{| si_position := span 0 6;
              si_children :=
                [plain (anchored (span 5 6)
                          {| anchor_position := span 2 4;
                             anchor_value := js "a" |}) (js "x")] |};
           {| si_position := spanAt 7 2 1 13 2 7;
              si_children :=
                [plain (anchored (spanAt 12 2 6 13 2 7)
                          {| anchor_position := spanAt 9 2 3 11 2 5;
                             anchor_value := js "a" |}) (js "y")] |}]]]
    [].

End Sample.

(** The type and the text of each token, in order. *)
Definition tokenSummary (l : list Token) : list (TokenType * jsstring) :=
  map (fun t => (tk_type t, tk_value t)) l.

(** The range and the text of each token, in order. *)
Definition tokenTexts (l : list Token) : list (Z * Z * jsstring) :=
  map (fun t => (range (tk_loc t), tk_value t)) l.

(* ================================================================== *)
(** ** How the store changes during a walk *)

(** A node without the fields that are assigned after its creation:
    what is left never changes. *)
Definition skeleton (n : YAMLNode) : YAMLNode :=
  match n with
  | YAMLProgram _ c l => YAMLProgram [] c l
  | YAMLDocument _ _ p _ l => YAMLDocument [] None p ∅ l
  | YAMLDirective v p l => YAMLDirective v p l
  | YAMLMapping s _ _ _ p l => YAMLMapping s [] None None p l
  | YAMLPair _ _ p l => YAMLPair None None p l
  | YAMLSequence s _ _ _ p l => YAMLSequence s [] None None p l
  | YAMLScalar d _ _ p l => YAMLScalar d None None p l
  | YAMLAlias nm _ _ p l => YAMLAlias nm None None p l
  | YAMLAnchor nm p l => YAMLAnchor nm p l
  | YAMLTag t p l => YAMLTag t p l
  end.

(** A node without its anchor registry. *)
Definition eraseAnchors (n : YAMLNode) : YAMLNode :=
  match n with
  | YAMLDocument d c p _ l => YAMLDocument d c p ∅ l
  | _ => n
  end.

(** [doc.anchors] *)
Definition anchorsOf (n : YAMLNode) : gmap jsstring ref :=
  match n with
  | YAMLDocument _ _ _ a _ => a
  | _ => ∅
  end.

Definition isDocument (n : YAMLNode) : bool :=
  match n with YAMLDocument _ _ _ _ _ => true | _ => false end.

(** The name of the Anchor node at [r], if there is one. *)
Definition anchorAt (s : list YAMLNode) (r : ref) : option jsstring :=
  match s !! r with
  | Some (YAMLAnchor nm _ _) => Some nm
  | _ => None
  end.

(** The Anchor nodes at the references [lo], ..., [hi - 1], with their
    names, in the order of their creation. *)
Definition anchorsBetween (s : list YAMLNode) (lo hi : nat)
  : list (jsstring * ref) :=
  omap (fun r => match anchorAt s r with
                 | Some nm => Some (nm, r)
                 | None => None
                 end) (seq lo (hi - lo)).

(** The registry after the assignments [anchors[name] = r] of a log. *)
Definition register (m : gmap jsstring ref) (log : list (jsstring * ref))
  : gmap jsstring ref :=
  foldl (fun m e => <[e.1 := e.2]> m) m log.

(** [evolves lo doc s s']: the store [s'] comes from [s] by a part of
    the walk in the document [doc] that creates nodes and assigns only
    to nodes at [lo] or above, and to the registry of [doc]. *)
Record evolves (lo : nat) (doc : ref) (s s' : list YAMLNode) : Prop := {
  ev_len : (length s ≤ length s')%nat;
  ev_kind : ∀ r n, s !! r = Some n →
            ∃ n', s' !! r = Some n' ∧ skeleton n' = skeleton n;
  ev_frame : ∀ r n, (r < lo)%nat → s !! r = Some n →
             ∃ n', s' !! r = Some n' ∧ eraseAnchors n' = eraseAnchors n
                   ∧ (r ≠ doc → n' = n);
  ev_anchors : ∀ n, s !! doc = Some n → isDocument n = true →
               ∃ n', s' !! doc = Some n'
                     ∧ anchorsOf n'
                       = register (anchorsOf n)
                           (anchorsBetween s' (length s) (length s'))
}.

(** What a converter promises of the node it returns: the node is
    new, the store evolved above the old nodes, and the node satisfies
    [Q] and has the parent it was given. *)
Definition built (Q : YAMLNode → bool) (parent doc : ref)
    (st : State) (r : ref) (st' : State) : Prop :=
  r = length (store st)
  ∧ evolves (length (store st)) doc (store st) (store st')
  ∧ ∃ n, store st' !! r = Some n ∧ Q n = true ∧ parentOf n = Some parent.

(** *** Induction on content nodes

    The children of a node sit in lists inside records, so the
    induction hypothesis is stated for every child of every item. *)
Section ContentNodeInd.

Variable P : ContentNode → Prop.

Definition PItem (n : MappingItem ContentNode) : Prop :=
  Forall P (mk_children (mi_key n)) ∧ Forall P (mv_children (mi_value n)).
Definition PSeqItem (n : SequenceItem ContentNode) : Prop :=
  Forall P (si_children n).
Definition PFlowChild (n : FlowSequenceChild ContentNode) : Prop :=
  match n with
  | flowSequenceItem n => PSeqItem n
  | flowMappingItem n => PItem n
  end.

Hypothesis Hmapping : ∀ h cs, Forall PItem cs → P (mapping h cs).
Hypothesis HflowMapping : ∀ h cs, Forall PItem cs → P (flowMapping h cs).
Hypothesis Hsequence : ∀ h cs, Forall PSeqItem cs → P (sequence h cs).
Hypothesis HflowSequence :
  ∀ h cs, Forall PFlowChild cs → P (flowSequence h cs).
Hypothesis Hplain : ∀ h v, P (plain h v).
Hypothesis HquoteDouble : ∀ h v, P (quoteDouble h v).
Hypothesis HquoteSingle : ∀ h v, P (quoteSingle h v).
Hypothesis HblockLiteral : ∀ h c i v, P (blockLiteral h c i v).
Hypothesis HblockFolded : ∀ h c i v, P (blockFolded h c i v).
Hypothesis Halias : ∀ h v, P (alias h v).
Hypothesis HotherNode : ∀ t p, P (otherNode t p).

Fixpoint ContentNode_nested_ind (n : ContentNode) : P n :=
  let all :=
    fix all (l : list ContentNode) : Forall P l :=
      match l with
      | [] => @List.Forall_nil _ P
      | c :: r => @List.Forall_cons _ P c r (ContentNode_nested_ind c) (all r)
      end in
  let item (i : MappingItem ContentNode) : PItem i :=
    conj (all (mk_children (mi_key i))) (all (mv_children (mi_value i))) in
  let items :=
    fix items (l : list (MappingItem ContentNode)) : Forall PItem l :=
      match l with
      | [] => @List.Forall_nil _ PItem
      | i :: r => @List.Forall_cons _ PItem i r (item i) (items r)
      end in
  let seqItems :=
    fix seqItems (l : list (SequenceItem ContentNode)) : Forall PSeqItem l :=
      match l with
      | [] => @List.Forall_nil _ PSeqItem
      | i :: r => @List.Forall_cons _ PSeqItem i r
                    (all (si_children i)) (seqItems r)
      end in
  let flowChildren :=
    fix flowChildren (l : list (FlowSequenceChild ContentNode))
      : Forall PFlowChild l :=
      match l with
      | [] => @List.Forall_nil _ PFlowChild
      | i :: r =>
          @List.Forall_cons _ PFlowChild i r
            (match i return PFlowChild i with
             | flowSequenceItem n => all (si_children n)
             | flowMappingItem n => item n
             end)
            (flowChildren r)
      end in
  match n with
  | mapping h cs => Hmapping h cs (items cs)
  | flowMapping h cs => HflowMapping h cs (items cs)
  | sequence h cs => Hsequence h cs (seqItems cs)
  | flowSequence h cs => HflowSequence h cs (flowChildren cs)
  | plain h v => Hplain h v
  | quoteDouble h v => HquoteDouble h v
  | quoteSingle h v => HquoteSingle h v
  | blockLiteral h c i v => HblockLiteral h c i v
  | blockFolded h c i v => HblockFolded h c i v
  | alias h v => Halias h v
  | otherNode t p => HotherNode t p
  end.

End ContentNodeInd.

(* ================================================================== *)
(** ** The first node that the walk cannot convert *)

Definition firstSome {A B} (f : A → option B) : list A → option B :=
  fix go (l : list A) : option B :=
    match l with
    | [] => None
    | x :: r => match f x with Some b => Some b | None => go r end
    end.

Definition headSome {A B} (f : A → option B) (l : list A) : option B :=
  match l with
  | x :: _ => f x
  | [] => None
  end.

Definition orElse {B} (u v : option B) : option B :=
  match u with Some b => Some b | None => v end.

(** The [type] of the first node outside the dispatch table that the
    walk reaches from [n], in the order of the walk: of an item the walk
    visits [children[0]] only. *)
Fixpoint unsupported (n : ContentNode) : option jsstring :=
  let item (i : MappingItem ContentNode) :=
    orElse (headSome unsupported (mk_children (mi_key i)))
           (headSome unsupported (mv_children (mi_value i))) in
  match n with
  | mapping _ cs | flowMapping _ cs => firstSome item cs
  | sequence _ cs =>
      firstSome (fun i => headSome unsupported (si_children i)) cs
  | flowSequence _ cs =>
      firstSome (fun n => match n with
                          | flowSequenceItem i =>
                              headSome unsupported (si_children i)
                          | flowMappingItem i => item i
                          end) cs
  | otherNode type _ => Some type
  | _ => None
  end.

Definition rootUnsupported (node : Root) : option jsstring :=
  firstSome (fun d => headSome unsupported (db_children (doc_body d)))
    (root_children node).

(** The error of [convertContentNode]. *)
Definition unsupportedError (type : jsstring) : Exn :=
  Error (js "Unsupported node: " ++ type).

(** [outcome u m]: from every state, the computation [m] throws the
    error for [t] when [u] is [Some t], and returns when [u] is
    [None]. *)
Definition outcome {A} (u : option jsstring) (m : M A) : Prop :=
  ∀ s, match u with
       | Some t => m s = inl (unsupportedError t)
       | None => ∃ a s', m s = inr (a, s')
       end.

(* ================================================================== *)
(** ** The entries of a flow sequence *)

(** The children of a flow sequence that give an entry: an item with a
    body, and a key/value pair. *)
Definition contributes (n : FlowSequenceChild ContentNode) : bool :=
  match n with
  | flowSequenceItem i =>
      match si_children i with [] => false | _ :: _ => true end
  | flowMappingItem _ => true
  end.

(** [entryOf s seq parent n e]: in the store [s], the entry [e] of the
    sequence [seq], whose own parent is [parent], is what the child [n]
    gave: for an item, a content node below [seq]; for a key/value pair
    [m], a block mapping at the location of [m], with [parent] as its
    parent, whose one pair has the mapping as its parent. *)
Definition entryOf (s : list YAMLNode) (seq parent : ref)
    (n : FlowSequenceChild ContentNode) (e : ref) : Prop :=
  (seq < e)%nat
  ∧ match n with
    | flowSequenceItem i =>
        ∃ x, s !! e = Some x ∧ isContent x = true ∧ parentOf x = Some seq
    | flowMappingItem m =>
        ∃ p k v l,
          (seq < p)%nat
          ∧ s !! e = Some (YAMLMapping block [p] None None parent
                             (getConvertLocation (mi_position m)))
          ∧ s !! p = Some (YAMLPair k v e l)
    end.

(* ================================================================== *)
(** ** The documents of a program *)

(** Where the nodes of the [i]-th document of [body] end: at the next
    document, or at the end of the store. *)
Definition segmentEnd (body : list ref) (i : nat) (total : nat) : nat :=
  match body !! S i with
  | Some d => d
  | None => total
  end.

(** [lastAnchor s lo hi name x]: [x] is the last Anchor node named
    [name] among the nodes [lo], ..., [hi - 1] of the store [s]. *)
Definition lastAnchor (s : list YAMLNode) (lo hi : nat) (name : jsstring)
    (x : ref) : Prop :=
  (lo ≤ x < hi)%nat ∧ anchorAt s x = Some name
  ∧ ∀ x', (x < x' < hi)%nat → anchorAt s x' ≠ Some name.

(** The state of the Program node [0] and of its documents between two
    rounds of the loop of [convertRoot]: every document of [body] is a
    Document node below the Program, and its registry holds the Anchor
    nodes of its segment of the store. *)
Definition documentsOK (s : list YAMLNode) (body : list ref) : Prop :=
  ∀ i d, body !! i = Some d →
    (0 < d < length s)%nat
    ∧ (d < segmentEnd body i (length s) ≤ length s)%nat
    ∧ ∃ ds c a ld,
        s !! d = Some (YAMLDocument ds c 0%nat a ld)
        ∧ a = register ∅
                (anchorsBetween s (S d) (segmentEnd body i (length s))).

(* ================================================================== *)
(** ** The order of the tokens *)

Definition endOf (t : Token) : Z := snd (range (tk_loc t)).

(** The range of the token is not empty and lies in a text of [n]
    units. *)
Definition inBounds (n : Z) (t : Token) : Prop :=
  0 <= startOf t ∧ startOf t < endOf t ∧ endOf t <= n.

(** The ranges of two tokens do not meet. *)
Definition apart (a b : Token) : Prop :=
  endOf a <= startOf b ∨ endOf b <= startOf a.

(** No two tokens of the list meet. *)
Fixpoint pairwiseApart (l : list Token) : Prop :=
  match l with
  | [] => True
  | a :: r => Forall (apart a) r ∧ pairwiseApart r
  end.

(** Ordered by start offset. *)
Definition ordered (l : list Token) : Prop :=
  StronglySorted (fun a b => startOf a <= startOf b) l.

(** Strictly ordered by start offset, and every token ends before the
    later ones start. *)
Definition strictlyOrdered (l : list Token) : Prop :=
  StronglySorted (fun a b => startOf a < startOf b ∧ endOf a <= startOf b) l.

(** What [replace(/\S/gu, " ")] does to one unit that is not part of a
    surrogate pair. *)
Definition blankUnit (c : N) : N := if isSpace c then c else 32%N.

(** The tokens that [scan] pushes, as a list. *)
Fixpoint scanList (stripTokensCode rest : jsstring) (index line column : Z)
  : list Token :=
  match rest with
  | [] => []
  | c :: r =>
      if (c =? 10)%N then scanList stripTokensCode r (index + 1) (line + 1) 0
      else
        (if trimTruthy c && isPunctuator c then
           [{| tk_type := Punctuator;
               tk_value := sliceRange stripTokensCode (index, index + 1);
               tk_loc :=
                 {| range := (index, index + 1);
                    loc := {| loc_start := {| loc_line := line;
                                              loc_column := column |};
                              loc_end := {| loc_line := line;
                                            loc_column := column + 1 |} |}
                 |} |}]
         else [])
        ++ scanList stripTokensCode r (index + 1) line (column + 1)
  end.

(** No unit of the text is the first half of a surrogate pair. *)
Definition noHighSurrogate (text : jsstring) : Prop :=
  Forall (fun c => isHighSurrogate c = false) text.

(* ================================================================== *)
(** ** Statements about the walk *)

(** The promise of [convertContentNode] for one node. *)
Definition walk_ok (yaml : Yaml) (c : ContentNode) : Prop :=
  ∀ code parent doc st r st',
    convertContentNode yaml c code parent doc st = inr (r, st') →
    built isContent parent doc st r st'.

(** [convertContentNode] fails on [c] as [unsupported] says. *)
Definition fails_as_predicted (yaml : Yaml) (c : ContentNode) : Prop :=
  ∀ code parent doc,
    outcome (unsupported c) (convertContentNode yaml c code parent doc).

Definition itemUnsupported (i : MappingItem ContentNode) : option jsstring :=
  orElse (headSome unsupported (mk_children (mi_key i)))
         (headSome unsupported (mv_children (mi_value i))).

Definition seqItemUnsupported (i : SequenceItem ContentNode)
  : option jsstring :=
  headSome unsupported (si_children i).

Definition flowChildUnsupported (n : FlowSequenceChild ContentNode)
  : option jsstring :=
  match n with
  | flowSequenceItem i => headSome unsupported (si_children i)
  | flowMappingItem i => itemUnsupported i
  end.

(* ================================================================== *)
(** ** Statements about the token buffer *)

(** The token holds the text of [code] at its range: what [addToken]
    makes from [code]. *)
Definition fromCode (code : jsstring) (t : Token) : Prop :=
  tk_value t = sliceRange code (range (tk_loc t)).

(** From [st] to [st'] the buffer only grew, by tokens that satisfy
    [P]. *)
Definition pushes (P : Token → Prop) (st st' : State) : Prop :=
  ∃ new, tokens st' = tokens st ++ new ∧ Forall P new.

Definition pushesSt (P : Token → Prop) {A} (m : St A) : Prop :=
  ∀ s, pushes P s (m s).2.

Definition pushesM (P : Token → Prop) {A} (m : M A) : Prop :=
  ∀ s a s', m s = inr (a, s') → pushes P s s'.

(** The token is one structural character: the kind of token that the
    scan of [convertRoot] makes. *)
Definition isGapToken (t : Token) : Prop :=
  tk_type t = Punctuator
  ∧ ∃ i c, range (tk_loc t) = (i, i + 1) ∧ 0 <= i
           ∧ isPunctuator c = true ∧ tk_value t = [c].

(** A range that lies in a text of [n] units. *)
Definition rangeInside (n : Z) (r : Z * Z) : Prop :=
  0 <= fst r ∧ fst r <= snd r ∧ snd r <= n.

(** The ranges [r] and [q] do not meet. *)
Definition rangesApart (r q : Z * Z) : Prop :=
  snd r <= fst q ∨ snd q <= fst r.

(** [convertContentNode] on [c] only pushes tokens made from [code]. *)
Definition walk_pushes (yaml : Yaml) (code : jsstring) (c : ContentNode)
  : Prop :=
  ∀ parent doc,
    pushesM (fromCode code) (convertContentNode yaml c code parent doc).

(** The number of line feeds in a text. *)
Definition lineFeeds (text : jsstring) : Z :=
  Z.of_nat (length (filter (fun c => c = 10%N) text)).

(** [atPosition text t]: the token [t] covers one unit of [text]; its
    line is one more than the number of line feeds before it, and its
    column is the number of units between the start of its line and
    it. The line starts at [k]: at the start of the text or after a line
    feed, with no line feed from there to the token. *)
Definition atPosition (text : jsstring) (t : Token) : Prop :=
  ∃ (pre : jsstring) (c : N) (rest : jsstring) (k : nat),
    text = pre ++ c :: rest
    ∧ range (tk_loc t) = (len pre, len pre + 1)
    ∧ (k ≤ length pre)%nat
    ∧ (k = 0%nat ∨ pre !! (k - 1)%nat = Some 10%N)
    ∧ Forall (fun c => c ≠ 10%N) (drop k pre)
    ∧ loc (tk_loc t)
      = {| loc_start := {| loc_line := 1 + lineFeeds pre;
                           loc_column := len pre - Z.of_nat k |};
           loc_end := {| loc_line := 1 + lineFeeds pre;
                         loc_column := len pre - Z.of_nat k + 1 |} |}.

(* ================================================================== *)
(** ** What the patterns match *)





(* ================================================================== *)
(** ** The documents of the Program *)

(** The Directive node for [dir] in the document [doc], read from the
    text [code]. *)
Definition directiveNode (code : jsstring) (doc : ref) (dir : Directive)
  : YAMLNode :=
  let l := getConvertLocation (directive_position dir) in
  YAMLDirective (sliceRange code (range l)) doc l.

(** [documentShape code parent s d doc]: in the store [s], the node [d]
    is the Document node of the upstream document [doc] below [parent].
    Its directives are the nodes created right after it, one for each
    upstream directive and in their order; its content is the node
    created after them, when the body of [doc] has a content node, and
    [null] otherwise. *)
Definition documentShape (code : jsstring) (parent : ref)
    (s : list YAMLNode) (d : ref) (doc : Document) : Prop :=
  let dirs := dh_children (doc_head doc) in
  let first := (S d + length dirs)%nat in
  (∃ a, s !! d
        = Some (YAMLDocument (seq (S d) (length dirs))
                  (match db_children (doc_body doc) with
                   | [] => None
                   | _ :: _ => Some first
                   end)
                  parent a (getConvertLocation (doc_position doc))))
  ∧ (∀ i dir, dirs !! i = Some dir →
       s !! (S d + i)%nat = Some (directiveNode code d dir))
  ∧ match db_children (doc_body doc) with
    | [] => True
    | _ :: _ => ∃ n, s !! first = Some n
                     ∧ isContent n = true ∧ parentOf n = Some d
    end.

(** The input of three lines [%YAML 1.2], [---] and [a: 1]: one document
    with a directive in its head. *)
Definition directiveSource : jsstring :=
  js "%YAML 1.2" ++ [10%N] ++ js "---" ++ [10%N] ++ js "a: 1".
Definition directiveTree : Root :=
  Sample.root (Sample.spanAt 0 1 1 18 3 5)
    [{| doc_position := Sample.spanAt 0 1 1 18 3 5;
        doc_head :=
          {| dh_position := Sample.spanAt 0 1 1 13 2 4;
             dh_children :=
               [{| directive_position := Sample.span 0 9 |}] |};
        doc_body :=
          {| db_position := Sample.spanAt 14 3 1 18 3 5;
             db_children :=
               [mapping (Sample.bare (Sample.spanAt 14 3 1 18 3 5))
                  [Sample.item (Sample.spanAt 14 3 1 18 3 5)
                     (Sample.spanAt 14 3 1 15 3 2)
                     (Sample.spanAt 15 3 2 18 3 5)
                     [plain (Sample.bare (Sample.spanAt 14 3 1 15 3 2))
                        (js "a")]
                     [plain (Sample.bare (Sample.spanAt 17 3 4 18 3 5))
                        (js "1")]]] |} |}]
    [].


(* ================================================================== *)
(** ** The store under the primitive operations *)

Lemma lookup_alloc (s : list YAMLNode) (n : YAMLNode) (r : nat) :
  (r < length s)%nat → (s ++ [n]) !! r = s !! r.
Proof. intros. by apply lookup_app_l. Qed.

Lemma lookup_alloc_new (s : list YAMLNode) (n : YAMLNode) :
  (s ++ [n]) !! length s = Some n.
Proof. by rewrite lookup_app_r, Nat.sub_diag. Qed.

Lemma lookup_set_anchors (s : list YAMLNode) doc name x r n :
  s !! r = Some n → (∀ d c p a l, n ≠ YAMLDocument d c p a l) →
  alter (set_anchors name x) doc s !! r = Some n.
Proof.
  intros Hr Hn. destruct (decide (doc = r)) as [->|Hne].
  - rewrite list_lookup_alter_eq, Hr. simpl.
    destruct n; try done. exfalso. by eapply Hn.
  - by rewrite list_lookup_alter_ne.
Qed.

Section ScalarValues.

Variable yaml : Yaml.

(** After [convertAnchorAndTag] a scalar node has its data, its parent
    and its location as before, and the tag reference it was given. *)
Lemma convertAnchorAndTag_scalar h code ast doc s d p l :
  store s !! ast = Some (YAMLScalar d None None p l) →
  ∃ a t, store (convertAnchorAndTag h code ast doc s).2 !! ast
         = Some (YAMLScalar d a t p l)
         ∧ (tag h = None → t = None).
Proof.
  intros Hast. pose proof (lookup_lt_Some _ _ _ Hast) as Hlt.
  unfold convertAnchorAndTag, convertAnchor, convertTag, sigilTokens.
  destruct (anchor h) as [an|], (tag h) as [tg|];
    unfold bind, ret, alloc, modify, addToken; simpl;
    repeat (match goal with
            | |- context [if ?b then _ else _] => destruct b
            end; simpl);
    rewrite list_lookup_alter_eq;
    repeat first
      [ rewrite lookup_alloc
          by (rewrite ?length_alter, ?length_app; simpl; lia)
      | erewrite lookup_set_anchors;
          [ | rewrite lookup_alloc by lia; exact Hast | done ] ];
    rewrite ?Hast; simpl;
    (do 2 eexists; split; [reflexivity | intros; congruence]).
Qed.

End ScalarValues.

(* ================================================================== *)
(** ** Scalars: the node that a scalar converter builds *)

Section ScalarNodes.

Variable yaml : Yaml.

Lemma convertPlain_node h value code parent doc st :
  let res := convertPlain yaml h value code parent doc st in
  res.1 = length (store st)
  ∧ ∃ a t, store res.2 !! res.1
           = Some (YAMLScalar
                     (plainScalar value (tag h) (plainTokenValue yaml value))
                     a t parent (getConvertLocation (position h)))
           ∧ (tag h = None → t = None).
Proof.
  unfold convertPlain, bind, ret. simpl.
  set (n := YAMLScalar _ None None parent _).
  set (s1 := {| tokens := tokens st; store := store st ++ [n] |}).
  destruct (convertAnchorAndTag_scalar h code (length (store st)) doc s1
              _ parent _ (lookup_alloc_new (store st) n))
    as (a & t & Hl & Ht).
  destruct (convertAnchorAndTag h code (length (store st)) doc s1)
    as [u s2] eqn:E. simpl in *.
  split; [done|]. by exists a, t.
Qed.

Lemma convertPlain_token h value code parent doc st :
  last (tokens (convertPlain yaml h value code parent doc st).2)
  = Some {| tk_type := plainTokenType (plainTokenValue yaml value);
            tk_value := sliceRange code
                          (range (getConvertLocation (position h)));
            tk_loc := getConvertLocation (position h) |}.
Proof.
  unfold convertPlain, bind, ret. simpl.
  destruct (convertAnchorAndTag h code _ doc _) as [u s2]. simpl.
  by rewrite last_snoc.
Qed.

Lemma convertQuote_node (mk : jsstring → option Tag → jsstring → Scalar)
    h value code parent doc st :
  let l := getConvertLocation (position h) in
  let res :=
    (let* ast := alloc (YAMLScalar (mk value (tag h)
                                      (sliceRange code (range l)))
                          None None parent l) in
     convertAnchorAndTag h code ast doc ;;
     addToken StringT (clone l) code ;;
     ret ast) st in
  res.1 = length (store st)
  ∧ ∃ a t, store res.2 !! res.1
           = Some (YAMLScalar (mk value (tag h) (sliceRange code (range l)))
                     a t parent l)
           ∧ (tag h = None → t = None).
Proof.
  unfold bind, ret. simpl.
  set (n := YAMLScalar _ None None parent _).
  set (s1 := {| tokens := tokens st; store := store st ++ [n] |}).
  destruct (convertAnchorAndTag_scalar h code (length (store st)) doc s1
              _ parent _ (lookup_alloc_new (store st) n))
    as (a & t & Hl & Ht).
  destruct (convertAnchorAndTag h code (length (store st)) doc s1)
    as [u s2] eqn:E. simpl in *.
  split; [done|]. by exists a, t.
Qed.

Lemma existsb_eqb (str : jsstring) (l : list jsstring) :
  existsb (eqb str) l = bool_decide (str ∈ l).
Proof.
  induction l as [|x l IH]; simpl.
  - done.
  - rewrite IH. unfold eqb.
    destruct (decide (str = x)) as [->|Hne].
    + rewrite (bool_decide_eq_true_2 (x = x)) by done.
      symmetry. apply bool_decide_eq_true_2, list_elem_of_here.
    + rewrite (bool_decide_eq_false_2 (str = x)) by done. simpl.
      apply bool_decide_ext. rewrite elem_of_cons.
      split; [by right | by intros [?|?]].
Qed.

Lemma isTrue_spec str :
  isTrue str = bool_decide (str ∈ [js "true"; js "True"; js "TRUE"]).
Proof.
  rewrite <- existsb_eqb. unfold isTrue. simpl.
  by rewrite orb_false_r, orb_assoc.
Qed.

Lemma isFalse_spec str :
  isFalse str = bool_decide (str ∈ [js "false"; js "False"; js "FALSE"]).
Proof.
  rewrite <- existsb_eqb. unfold isFalse. simpl.
  by rewrite orb_false_r, orb_assoc.
Qed.

Lemma isNull_spec str :
  isNull str
  = bool_decide (str ∈ [js "null"; js "Null"; js "NULL"; js "~"]).
Proof.
  rewrite <- existsb_eqb. unfold isNull. simpl.
  by rewrite orb_false_r, !orb_assoc.
Qed.


(** C5. An untagged double-quoted or single-quoted scalar resolves to
    its decoded text [node.value], a string, whatever the text looks
    like: also where the same text as a plain scalar would resolve to a
    boolean, to [null] or to a number. *)
Theorem C5_untagged_quoted_value
    (p : Position) (a : option Anchor) (str code : jsstring)
    (parent doc : ref) (st : State) :
  let h := {| position := p; anchor := a; tag := None |} in
  let dq := convertQuoteDouble h str code parent doc st in
  let sq := convertQuoteSingle h str code parent doc st in
  valueAt yaml (store dq.2) dq.1 = Some (JString str)
  ∧ valueAt yaml (store sq.2) sq.1 = Some (JString str)
  ∧ (∀ (b : bool) (x : number) (q : option JSValue),
       q ∈ [valueAt yaml (store dq.2) dq.1;
            valueAt yaml (store sq.2) sq.1] →
       q ≠ Some (JBool b) ∧ q ≠ Some JNull ∧ q ≠ Some (JNumber x)).
Proof.
  intros h dq sq.
  destruct (convertQuote_node doubleQuoted h str code parent doc st)
    as (_ & a1 & t1 & Hd & _).
  destruct (convertQuote_node singleQuoted h str code parent doc st)
    as (_ & a2 & t2 & Hs & _).
  assert (Hdq : valueAt yaml (store dq.2) dq.1 = Some (JString str)).
  { unfold valueAt, dq, convertQuoteDouble. by rewrite Hd. }
  assert (Hsq : valueAt yaml (store sq.2) sq.1 = Some (JString str)).
  { unfold valueAt, sq, convertQuoteSingle. by rewrite Hs. }
  split; [done|]. split; [done|].
  intros b x q Hq. rewrite Hdq, Hsq in Hq.
  rewrite !elem_of_cons in Hq.
  destruct Hq as [->|[->|[]%elem_of_nil]]; by repeat split.
Qed.

(** C1. The token that [convertPlain] emits for a plain scalar is the
    last one it pushes; it is the same token whether the node carries a
    tag or not, and its type is the classification of the value that the
    untagged scalar has: Boolean, Numeric, Null or Identifier. For the
    input [n: !!str 123], where [yaml.parse] reads 123, the value of the
    scalar is the string "123" and its token is Numeric. *)
Theorem C1_plain_token_type_before_tag
    (p : Position) (a : option Anchor) (t : option Tag)
    (str code : jsstring) (parent doc : ref) (st : State) :
  let withTag :=
    convertPlain yaml {| position := p; anchor := a; tag := t |}
      str code parent doc st in
  let without :=
    convertPlain yaml {| position := p; anchor := a; tag := None |}
      str code parent doc st in
  (∃ tok v,
      last (tokens withTag.2) = Some tok
      ∧ last (tokens without.2) = Some tok
      ∧ tk_loc tok = getConvertLocation p
      ∧ valueAt yaml (store without.2) without.1 = Some v
      ∧ tk_type tok = plainTokenType v
      ∧ tk_type tok ∈ [Boolean; Numeric; Null; Identifier])
  ∧ (parse yaml (js "123") = JNumber (numberOfZ 123) →
     ∃ s, convertRoot yaml Sample.strTagTree Sample.strTagSource
          = inr (0%nat, s)
          ∧ tokenSummary (tokens s)
            = [(Identifier, js "n"); (Punctuator, js ":");
               (Punctuator, js "!!"); (Identifier, js "str");
               (Numeric, js "123")]
          ∧ valueAt yaml (store s) 5 = Some (JString (js "123"))).
Proof.
  intros withTag without. split.
  - exists {| tk_type := plainTokenType (plainTokenValue yaml str);
              tk_value := sliceRange code (range (getConvertLocation p));
              tk_loc := getConvertLocation p |}, (plainTokenValue yaml str).
    split; [exact (convertPlain_token _ _ _ _ _ _)|].
    split; [exact (convertPlain_token _ _ _ _ _ _)|].
    split; [done|].
    destruct (convertPlain_node {| position := p; anchor := a; tag := None |}
                str code parent doc st) as (_ & a' & t' & Hl & _).
    split; [unfold valueAt, without; by rewrite Hl|].
    split; [done|]. simpl.
    destruct (plainTokenValue yaml str) as [| |b|x|s|l|l]; simpl;
      try destruct (isFinite x); set_solver.
  - intros Hparse.
    vm_compute in Hparse.
    eexists. split; [|split].
    + vm_compute. rewrite Hparse. vm_compute. reflexivity.
    + vm_compute. reflexivity.
    + reflexivity.
Qed.

End ScalarNodes.

(** The hypothesis of C1 holds of a parser of decimal integers. *)
Lemma C1_plain_token_type_before_tag_witness :
  ∃ s, convertRoot Sample.decimalYaml Sample.strTagTree Sample.strTagSource
       = inr (0%nat, s)
       ∧ tokenSummary (tokens s)
         = [(Identifier, js "n"); (Punctuator, js ":");
            (Punctuator, js "!!"); (Identifier, js "str");
            (Numeric, js "123")]
       ∧ valueAt Sample.decimalYaml (store s) 5
         = Some (JString (js "123")).
Proof.
  apply (C1_plain_token_type_before_tag Sample.decimalYaml
           (Sample.span 0 0) None None [] [] 0%nat 0%nat
           {| tokens := []; store := [] |}).
  reflexivity.
Defined.

(* ================================================================== *)
(** ** Concrete runs *)

Section Runs.

Variable yaml : Yaml.

(** C2. On the two lines [a: 1 # (U+1F600)] and [b: 2] the tokens of
    the second line do not hold the text of the source at their range:
    the token of [b], at 10 to 11, holds ":" and the token of [2], at
    13 to 14, holds the empty string. Blanking the comment made the
    working copy one unit shorter than the source. *)
Theorem C2_token_value_not_source_slice :
  ∃ s, convertRoot yaml Sample.emojiTree Sample.emojiSource = inr (0%nat, s)
       ∧ tokenTexts (tokens s)
         = [((0, 1), js "a"); ((1, 2), js ":"); ((3, 4), js "1");
            ((10, 11), js ":"); ((13, 14), [])]
       ∧ sliceRange Sample.emojiSource (10, 11) = js "b"
       ∧ sliceRange Sample.emojiSource (13, 14) = js "2"
       ∧ length (stripComments Sample.emojiSource
                   (convertComments Sample.emojiTree)) = 13%nat
       ∧ length Sample.emojiSource = 14%nat.
Proof.
  eexists. split; [vm_compute; reflexivity|].
  repeat split; vm_compute; reflexivity.
Qed.

(** The same defect without a comment: on [{(U+1F600): 1}] blanking the
    token of the key shortens the text that the scan reads, so the
    Punctuator of the colon is put at 2 to 3, inside the key, and the
    closing brace gets no token. *)
Lemma emoji_key_run :
  ∃ s, convertRoot yaml Sample.emojiKeyTree Sample.emojiKeySource
       = inr (0%nat, s)
       ∧ tokenTexts (tokens s)
         = [((0, 1), js "{"); ((1, 3), [55357; 56832]%N);
            ((2, 3), js ":"); ((5, 6), js "1")]
       ∧ sliceRange Sample.emojiKeySource (2, 3) = [56832]%N.
Proof.
  eexists. split; [vm_compute; reflexivity|].
  repeat split; vm_compute; reflexivity.
Qed.

(** C7. On [a: b.] the range of the document ends in "b.", not in the
    marker "...", and a Marker token is emitted all the same: it holds
    " b." and covers the token of the scalar. *)
Theorem C7_marker_without_marker_text :
  ∃ s, convertRoot yaml Sample.dotTree Sample.dotSource = inr (0%nat, s)
       ∧ tokenSummary (tokens s)
         = [(Identifier, js "a"); (Punctuator, js ":");
            (Marker, js " b."); (Identifier, js "b.")]
       ∧ tokenTexts (tokens s)
         = [((0, 1), js "a"); ((1, 2), js ":");
            ((2, 5), js " b."); ((3, 5), js "b.")]
       ∧ sliceRange Sample.dotSource (2, 5) ≠ js "...".
Proof.
  eexists. split; [vm_compute; reflexivity|].
  repeat split; try (vm_compute; reflexivity). by vm_compute.
Qed.

End Runs.

(* ================================================================== *)
(** ** The store during a walk *)

Lemma skeleton_idemp n : skeleton (skeleton n) = skeleton n.
Proof. by destruct n. Qed.

Lemma skeleton_isDocument n n' :
  skeleton n' = skeleton n → isDocument n' = isDocument n.
Proof. by destruct n, n'. Qed.

Lemma skeleton_isContent n n' :
  skeleton n' = skeleton n → isContent n' = isContent n.
Proof. by destruct n, n'. Qed.

Lemma skeleton_parentOf n n' :
  skeleton n' = skeleton n → parentOf n' = parentOf n.
Proof. destruct n, n'; simpl; congruence. Qed.

Lemma eraseAnchors_not_document n n' :
  isDocument n = false → eraseAnchors n' = eraseAnchors n → n' = n.
Proof. by destruct n, n'. Qed.

Lemma anchorAt_skeleton (s s' : list YAMLNode) r n n' :
  s !! r = Some n → s' !! r = Some n' → skeleton n' = skeleton n →
  anchorAt s' r = anchorAt s r.
Proof.
  unfold anchorAt. intros -> -> H. destruct n, n'; simpl in *; congruence.
Qed.

Lemma anchorsBetween_nil s lo : anchorsBetween s lo lo = [].
Proof. unfold anchorsBetween. by rewrite Nat.sub_diag. Qed.

Lemma anchorsBetween_app s lo mid hi :
  (lo ≤ mid)%nat → (mid ≤ hi)%nat →
  anchorsBetween s lo hi = anchorsBetween s lo mid ++ anchorsBetween s mid hi.
Proof.
  intros H1 H2. unfold anchorsBetween.
  replace (hi - lo)%nat with ((mid - lo) + (hi - mid))%nat by lia.
  rewrite seq_app, omap_app. do 3 f_equal. lia.
Qed.

Lemma anchorsBetween_ext s s' lo hi :
  (∀ r, (lo ≤ r < hi)%nat → anchorAt s' r = anchorAt s r) →
  anchorsBetween s' lo hi = anchorsBetween s lo hi.
Proof.
  intros H. unfold anchorsBetween.
  assert (Hin : ∀ r, r ∈ seq lo (hi - lo) → (lo ≤ r < hi)%nat).
  { intros r Hr%elem_of_seq. lia. }
  induction (seq lo (hi - lo)) as [|r l IH]; [done|]. csimpl.
  rewrite H by (apply Hin; left).
  rewrite IH; [done|]. intros r' Hr'. apply Hin. by right.
Qed.

Lemma anchorsBetween_single s r :
  anchorsBetween s r (S r)
  = match anchorAt s r with Some nm => [(nm, r)] | None => [] end.
Proof.
  unfold anchorsBetween. replace (S r - r)%nat with 1%nat by lia. csimpl.
  by destruct (anchorAt s r).
Qed.

Lemma register_app m l1 l2 :
  register m (l1 ++ l2) = register (register m l1) l2.
Proof. unfold register. by rewrite foldl_app. Qed.

Section Evolves.

Lemma evolves_refl lo doc s : evolves lo doc s s.
Proof.
  split; [done| eauto | eauto |].
  intros n Hn _. exists n. split; [done|].
  by rewrite anchorsBetween_nil.
Qed.

Lemma evolves_trans lo doc s1 s2 s3 :
  evolves lo doc s1 s2 → evolves lo doc s2 s3 → evolves lo doc s1 s3.
Proof.
  intros [L1 K1 F1 A1] [L2 K2 F2 A2]. split.
  - lia.
  - intros r n Hn. destruct (K1 r n Hn) as (n1 & H1 & E1).
    destruct (K2 r n1 H1) as (n2 & H2 & E2). exists n2. split; congruence.
  - intros r n Hr Hn. destruct (F1 r n Hr Hn) as (n1 & H1 & E1 & X1).
    destruct (F2 r n1 Hr H1) as (n2 & H2 & E2 & X2).
    exists n2. split; [done|]. split; [congruence|].
    intros Hne. rewrite X2, X1; done.
  - intros n Hn Hd. destruct (A1 n Hn Hd) as (n1 & H1 & E1).
    destruct (K1 doc n Hn) as (n1' & H1' & S1).
    assert (n1' = n1) by congruence. subst n1'.
    assert (Hd1 : isDocument n1 = true)
      by (by rewrite (skeleton_isDocument _ _ S1)).
    destruct (A2 n1 H1 Hd1) as (n2 & H2 & E2).
    exists n2. split; [done|].
    rewrite (anchorsBetween_app s3 (length s1) (length s2) (length s3))
      by done.
    rewrite register_app, E2, E1. do 2 f_equal.
    symmetry. apply anchorsBetween_ext. intros r Hr.
    destruct (lookup_lt_is_Some_2 s2 r) as [x Hx]; [lia|].
    destruct (K2 r x Hx) as (x' & Hx' & Sx).
    by apply (anchorAt_skeleton _ _ _ x x').
Qed.

Lemma evolves_weaken lo lo' doc s s' :
  (lo' ≤ lo)%nat → evolves lo doc s s' → evolves lo' doc s s'.
Proof.
  intros Hle [L K F A]. split; [done|done| |done].
  intros r n Hr. apply F. lia.
Qed.

(** A new node that is not an Anchor. *)
Lemma evolves_alloc lo doc s n :
  (∀ nm p l, n ≠ YAMLAnchor nm p l) → evolves lo doc s (s ++ [n]).
Proof.
  intros Hn. split.
  - rewrite length_app. lia.
  - intros r x Hx. exists x. split; [|done]. by apply lookup_app_l_Some.
  - intros r x _ Hx. exists x. split; [by apply lookup_app_l_Some|done].
  - intros x Hx _. exists x. split; [by apply lookup_app_l_Some|].
    rewrite length_app. simpl.
    replace (length s + 1)%nat with (S (length s)) by lia.
    rewrite anchorsBetween_single. unfold anchorAt.
    rewrite lookup_alloc_new. destruct n; try done. exfalso. by eapply Hn.
Qed.

(** An assignment to a field other than the registry, at [lo] or
    above. *)
Lemma evolves_modify lo doc s r f :
  (lo ≤ r)%nat →
  (∀ n, skeleton (f n) = skeleton n) →
  (∀ n, anchorsOf (f n) = anchorsOf n) →
  evolves lo doc s (alter f r s).
Proof.
  intros Hr Hs Ha. split.
  - by rewrite length_alter.
  - intros r' n Hn. destruct (decide (r = r')) as [->|Hne].
    + exists (f n). by rewrite list_lookup_alter_eq, Hn.
    + exists n. by rewrite list_lookup_alter_ne.
  - intros r' n Hr' Hn. exists n.
    rewrite list_lookup_alter_ne by lia. done.
  - intros n Hn _. rewrite length_alter, anchorsBetween_nil. simpl.
    destruct (decide (r = doc)) as [->|Hne].
    + exists (f n). by rewrite list_lookup_alter_eq, Hn.
    + exists n. by rewrite list_lookup_alter_ne.
Qed.

(** The store after [convertAnchor]: one Anchor node more, and one
    entry more in the registry of [doc]. *)
Lemma evolves_anchor lo doc s nm p l :
  evolves lo doc s
    (alter (set_anchors nm (length s)) doc (s ++ [YAMLAnchor nm p l])).
Proof.
  split.
  - rewrite length_alter, length_app. lia.
  - intros r n Hn. destruct (decide (doc = r)) as [->|Hne].
    + exists (set_anchors nm (length s) n).
      rewrite list_lookup_alter_eq, (lookup_app_l_Some _ _ _ _ Hn).
      split; [done|]. by destruct n.
    + exists n. rewrite list_lookup_alter_ne by done.
      by rewrite (lookup_app_l_Some _ _ _ _ Hn).
  - intros r n _ Hn. destruct (decide (doc = r)) as [->|Hne].
    + exists (set_anchors nm (length s) n).
      rewrite list_lookup_alter_eq, (lookup_app_l_Some _ _ _ _ Hn).
      split; [done|]. split; [by destruct n|done].
    + exists n. rewrite list_lookup_alter_ne by done.
      by rewrite (lookup_app_l_Some _ _ _ _ Hn).
  - intros n Hn Hd. exists (set_anchors nm (length s) n).
    rewrite list_lookup_alter_eq, (lookup_app_l_Some _ _ _ _ Hn).
    split; [done|].
    rewrite length_alter, length_app. simpl.
    replace (length s + 1)%nat with (S (length s)) by lia.
    rewrite anchorsBetween_single. unfold anchorAt.
    pose proof (lookup_lt_Some _ _ _ Hn) as Hlt.
    rewrite list_lookup_alter_ne by lia.
    rewrite lookup_alloc_new. by destruct n.
Qed.

End Evolves.

(** The token functions leave the store as it is. *)
Lemma store_addToken ty l code s : store (addToken ty l code s).2 = store s.
Proof. done. Qed.

Lemma store_sigilTokens l n code s :
  store (sigilTokens l n code s).2 = store s.
Proof. done. Qed.

Lemma store_blockTokens ind ty l code s :
  store (blockTokens ind ty l code s).2 = store s.
Proof.
  unfold blockTokens. destruct (startsWith _ _); [|done].
  destruct (headerScan _ _ _ _) as [[? ?] ?]. unfold bind. simpl.
  by destruct (bodyScan _ _ _ _) as [[? ?] ?].
Qed.

Lemma store_markerToken c l code s :
  store (markerToken c l code s).2 = store s.
Proof. unfold markerToken. by destruct (bool_decide _). Qed.

Lemma evolves_convertAnchor lo doc n code parent s :
  let res := convertAnchor n code parent doc s in
  res.1 = length (store s) ∧ evolves lo doc (store s) (store res.2).
Proof.
  unfold convertAnchor, bind, ret. simpl.
  destruct (startsWith _ _); simpl; (split; [done|]); apply evolves_anchor.
Qed.

Lemma evolves_convertTag lo doc n code parent s :
  let res := convertTag n code parent s in
  res.1 = length (store s) ∧ evolves lo doc (store s) (store res.2).
Proof.
  unfold convertTag, bind, ret. simpl.
  destruct (startsWith _ _); simpl; (split; [done|]);
    by apply evolves_alloc.
Qed.

Lemma set_anchor_tag_skeleton a t n :
  skeleton (set_anchor_tag a t n) = skeleton n.
Proof. by destruct n. Qed.

Lemma set_anchor_tag_anchors a t n :
  anchorsOf (set_anchor_tag a t n) = anchorsOf n.
Proof. by destruct n. Qed.

Lemma evolves_convertAnchorAndTag lo doc h code ast s :
  (lo ≤ ast)%nat →
  evolves lo doc (store s) (store (convertAnchorAndTag h code ast doc s).2).
Proof.
  intros Hast. unfold convertAnchorAndTag, bind, ret.
  destruct (anchor h) as [an|].
  - destruct (evolves_convertAnchor lo doc an code ast s) as [_ E1].
    destruct (convertAnchor an code ast doc s) as [r1 s1]. simpl in *.
    destruct (tag h) as [tg|].
    + destruct (evolves_convertTag lo doc tg code ast s1) as [_ E2].
      destruct (convertTag tg code ast s1) as [r2 s2]. simpl in *.
      eapply evolves_trans; [exact E1|].
      eapply evolves_trans; [exact E2|].
      apply evolves_modify; auto using set_anchor_tag_skeleton,
        set_anchor_tag_anchors.
    + simpl. eapply evolves_trans; [exact E1|].
      apply evolves_modify; auto using set_anchor_tag_skeleton,
        set_anchor_tag_anchors.
  - destruct (tag h) as [tg|].
    + destruct (evolves_convertTag lo doc tg code ast s) as [_ E2].
      destruct (convertTag tg code ast s) as [r2 s2]. simpl in *.
      eapply evolves_trans; [exact E2|].
      apply evolves_modify; auto using set_anchor_tag_skeleton,
        set_anchor_tag_anchors.
    + simpl.
      apply evolves_modify; auto using set_anchor_tag_skeleton,
        set_anchor_tag_anchors.
Qed.

(* ================================================================== *)
(** ** The walk *)

Lemma bindM_inr {A B} (m : M A) (k : A → M B) s b s2 :
  bindM m k s = inr (b, s2) →
  ∃ a s1, m s = inr (a, s1) ∧ k a s1 = inr (b, s2).
Proof.
  unfold bindM. destruct (m s) as [e|[a s1]]; [done|]. eauto.
Qed.

Lemma lift_inr {A} (m : St A) s a s1 :
  lift m s = inr (a, s1) → m s = (a, s1).
Proof. unfold lift. congruence. Qed.

Lemma retM_inr {A} (a : A) s b s1 : retM a s = inr (b, s1) → b = a ∧ s1 = s.
Proof. unfold retM. intros [= -> ->]. done. Qed.

(** A loop whose every round evolves the store evolves the store. *)
Lemma forEach_evolves {A} (body : A → M unit) (l : list A) lo doc :
  Forall (λ x, ∀ s s', (lo ≤ length (store s))%nat →
               body x s = inr (tt, s') →
               evolves lo doc (store s) (store s')) l →
  ∀ s s', (lo ≤ length (store s))%nat → forEach body l s = inr (tt, s') →
          evolves lo doc (store s) (store s').
Proof.
  induction 1 as [|x l Hx _ IH]; intros s s' Hlo Hrun; simpl in Hrun.
  - apply retM_inr in Hrun as [_ ->]. apply evolves_refl.
  - apply bindM_inr in Hrun as ([] & s1 & H1 & H2).
    pose proof (Hx s s1 Hlo H1) as E1.
    eapply evolves_trans; [exact E1|].
    apply IH; [|done]. pose proof (ev_len _ _ _ _ E1). lia.
Qed.

Lemma built_St Q N (k : ref → St ref) parent doc st :
  (∀ n n', skeleton n' = skeleton n → Q n' = Q n) →
  (∀ nm p l, N ≠ YAMLAnchor nm p l) →
  Q N = true → parentOf N = Some parent →
  (∀ s, (length (store st) < length (store s))%nat →
        (k (length (store st)) s).1 = length (store st)
        ∧ evolves (length (store st)) doc (store s)
            (store (k (length (store st)) s).2)) →
  let res := bind (alloc N) k st in
  built Q parent doc st res.1 res.2.
Proof.
  intros HQ HN HQN Hp Hk. unfold bind, alloc. simpl.
  set (s1 := {| tokens := tokens st; store := store st ++ [N] |}).
  destruct (Hk s1) as [Hr E].
  { simpl. rewrite length_app. simpl. lia. }
  destruct (k (length (store st)) s1) as [r s2]. simpl in *. subst r.
  split; [done|]. split.
  - eapply evolves_trans; [by apply evolves_alloc|exact E].
  - destruct (ev_kind _ _ _ _ E (length (store st)) N
                (lookup_alloc_new _ _)) as (n' & Hn' & Hs).
    exists n'. split; [done|].
    by rewrite (HQ _ _ Hs), (skeleton_parentOf _ _ Hs).
Qed.

Lemma built_M Q N (k : ref → M ref) parent doc st r st' :
  (∀ n n', skeleton n' = skeleton n → Q n' = Q n) →
  (∀ nm p l, N ≠ YAMLAnchor nm p l) →
  Q N = true → parentOf N = Some parent →
  (∀ s r s', (length (store st) < length (store s))%nat →
             k (length (store st)) s = inr (r, s') →
             r = length (store st)
             ∧ evolves (length (store st)) doc (store s) (store s')) →
  bindM (lift (alloc N)) k st = inr (r, st') →
  built Q parent doc st r st'.
Proof.
  intros HQ HN HQN Hp Hk Hrun.
  apply bindM_inr in Hrun as (ast & s1 & H1 & H2).
  apply lift_inr in H1. unfold alloc in H1. injection H1 as <- <-.
  assert (Hlt : (length (store st)
                 < length (store {| tokens := tokens st;
                                    store := store st ++ [N] |}))%nat).
  { simpl. rewrite length_app. simpl. lia. }
  destruct (Hk _ _ _ Hlt H2) as [-> E]. simpl in E.
  split; [done|]. split.
  - eapply evolves_trans; [by apply evolves_alloc|exact E].
  - destruct (ev_kind _ _ _ _ E (length (store st)) N
                (lookup_alloc_new _ _)) as (n' & Hn' & Hs).
    exists n'. split; [done|].
    by rewrite (HQ _ _ Hs), (skeleton_parentOf _ _ Hs).
Qed.

Lemma skeleton_isPair n n' : skeleton n' = skeleton n → isPair n' = isPair n.
Proof. by destruct n, n'. Qed.

Section WalkOk.

Variable yaml : Yaml.

Lemma head_child_ok (cs : list ContentNode) code parent doc st (o : option ref) st' :
  Forall (walk_ok yaml) cs →
  match cs with
  | c :: _ => let! r := convertContentNode yaml c code parent doc in
              retM (Some r)
  | [] => retM None
  end st = inr (o, st') →
  evolves (length (store st)) doc (store st) (store st')
  ∧ match cs with
    | c :: _ => ∃ n, o = Some (length (store st))
                     ∧ store st' !! length (store st) = Some n
                     ∧ isContent n = true ∧ parentOf n = Some parent
    | [] => o = None ∧ st' = st
    end.
Proof.
  intros Hcs Hrun. destruct cs as [|c cs].
  - apply retM_inr in Hrun as [-> ->]. split; [apply evolves_refl|done].
  - apply Forall_cons_1 in Hcs as [Hc _].
    apply bindM_inr in Hrun as (r & s1 & H1 & H2).
    apply retM_inr in H2 as [-> ->].
    destruct (Hc _ _ _ _ _ _ H1) as (-> & E & n & Hn & Hq & Hp).
    split; [done|]. by exists n.
Qed.

Lemma set_key_skeleton x n : skeleton (set_key x n) = skeleton n.
Proof. by destruct n. Qed.
Lemma set_key_anchors x n : anchorsOf (set_key x n) = anchorsOf n.
Proof. by destruct n. Qed.
Lemma set_value_skeleton x n : skeleton (set_value x n) = skeleton n.
Proof. by destruct n. Qed.
Lemma set_value_anchors x n : anchorsOf (set_value x n) = anchorsOf n.
Proof. by destruct n. Qed.
Lemma push_pairs_skeleton x n : skeleton (push_pairs x n) = skeleton n.
Proof. by destruct n. Qed.
Lemma push_pairs_anchors x n : anchorsOf (push_pairs x n) = anchorsOf n.
Proof. by destruct n. Qed.
Lemma push_entries_skeleton x n : skeleton (push_entries x n) = skeleton n.
Proof. by destruct n. Qed.
Lemma push_entries_anchors x n : anchorsOf (push_entries x n) = anchorsOf n.
Proof. by destruct n. Qed.

Lemma evolves_modify_state lo doc r f s u s' :
  (lo ≤ r)%nat →
  (∀ n, skeleton (f n) = skeleton n) →
  (∀ n, anchorsOf (f n) = anchorsOf n) →
  lift (modify r f) s = inr (u, s') →
  evolves lo doc (store s) (store s').
Proof.
  intros Hr Hs Ha Hrun. apply lift_inr in Hrun.
  unfold modify in Hrun. injection Hrun as _ <-. simpl.
  by apply evolves_modify.
Qed.

Lemma item_ok (n : MappingItem ContentNode) code parent doc st r st' :
  PItem (walk_ok yaml) n →
  convertMappingItem (convertContentNode yaml) n code parent doc st
  = inr (r, st') →
  built isPair parent doc st r st'.
Proof.
  intros [Hk Hv]. unfold convertMappingItem.
  apply built_M; [apply skeleton_isPair|done|done|done|].
  intros s r' s' Hlt Hrun. set (lo := length (store st)) in *.
  apply bindM_inr in Hrun as (k & s1 & H1 & Hrun).
  apply head_child_ok in H1 as [E1 _]; [|done].
  apply bindM_inr in Hrun as ([] & s2 & H2 & Hrun).
  apply evolves_modify_state with (lo := lo) (doc := doc) in H2;
    [|done|apply set_key_skeleton|apply set_key_anchors].
  apply bindM_inr in Hrun as (v & s3 & H3 & Hrun).
  apply head_child_ok in H3 as [E3 _]; [|done].
  apply bindM_inr in Hrun as ([] & s4 & H4 & Hrun).
  apply evolves_modify_state with (lo := lo) (doc := doc) in H4;
    [|done|apply set_value_skeleton|apply set_value_anchors].
  apply retM_inr in Hrun as [-> ->]. split; [done|].
  pose proof (ev_len _ _ _ _ E1). pose proof (ev_len _ _ _ _ H2).
  pose proof (ev_len _ _ _ _ E3).
  eapply evolves_trans; [eapply evolves_weaken; [|exact E1]; lia|].
  eapply evolves_trans; [exact H2|].
  eapply evolves_trans; [eapply evolves_weaken; [|exact E3]; lia|].
  exact H4.
Qed.

Lemma seqItem_ok (n : SequenceItem ContentNode) code parent doc st es st' :
  PSeqItem (walk_ok yaml) n →
  convertSequenceItem (convertContentNode yaml) n code parent doc st
  = inr (es, st') →
  evolves (length (store st)) doc (store st) (store st').
Proof.
  intros Hn Hrun. unfold convertSequenceItem in Hrun.
  unfold PSeqItem in Hn. destruct (si_children n) as [|c cs].
  - apply retM_inr in Hrun as [_ ->]. apply evolves_refl.
  - apply Forall_cons_1 in Hn as [Hc _].
    apply bindM_inr in Hrun as (r & s1 & H1 & H2).
    apply retM_inr in H2 as [_ ->].
    by destruct (Hc _ _ _ _ _ _ H1) as (_ & E & _).
Qed.

(** The last two steps of a collection converter. *)
Lemma finish_collection lo doc h code ast s r s' :
  (lo ≤ ast)%nat →
  (lift (convertAnchorAndTag h code ast doc) ;;! retM ast) s = inr (r, s') →
  r = ast ∧ evolves lo doc (store s) (store s').
Proof.
  intros Hlo Hrun.
  apply bindM_inr in Hrun as ([] & s1 & H1 & H2).
  apply retM_inr in H2 as [-> ->]. split; [done|].
  apply lift_inr in H1.
  pose proof (evolves_convertAnchorAndTag lo doc h code ast s Hlo) as E.
  by rewrite H1 in E.
Qed.

Lemma mappingOf_ok style h cs code parent doc st r st' :
  Forall (PItem (walk_ok yaml)) cs →
  convertMappingOf (convertContentNode yaml) style h cs code parent doc st
  = inr (r, st') →
  built isContent parent doc st r st'.
Proof.
  intros Hcs. unfold convertMappingOf.
  apply built_M; [apply skeleton_isContent|done|done|done|].
  intros s r' s' Hlt Hrun. set (lo := length (store st)) in *.
  apply bindM_inr in Hrun as ([] & s1 & H1 & Hrun).
  apply forEach_evolves with (lo := lo) (doc := doc) in H1; [| |lia].
  - pose proof (ev_len _ _ _ _ H1).
    apply finish_collection with (lo := lo) in Hrun as [-> E]; [|done].
    split; [done|]. by eapply evolves_trans.
  - eapply Forall_impl; [exact Hcs|]. intros n Hn s0 s0' Hlo Hbody.
    apply bindM_inr in Hbody as (p & s2 & Hb1 & Hb2).
    apply item_ok in Hb1 as (-> & E & _); [|done].
    apply evolves_modify_state with (lo := lo) (doc := doc) in Hb2;
      [|done|apply push_pairs_skeleton|apply push_pairs_anchors].
    eapply evolves_trans; [eapply evolves_weaken; [|exact E]; lia|done].
Qed.

Lemma sequence_ok h cs code parent doc st r st' :
  Forall (PSeqItem (walk_ok yaml)) cs →
  convertSequence (convertContentNode yaml) h cs code parent doc st
  = inr (r, st') →
  built isContent parent doc st r st'.
Proof.
  intros Hcs. unfold convertSequence.
  apply built_M; [apply skeleton_isContent|done|done|done|].
  intros s r' s' Hlt Hrun. set (lo := length (store st)) in *.
  apply bindM_inr in Hrun as ([] & s1 & H1 & Hrun).
  apply forEach_evolves with (lo := lo) (doc := doc) in H1; [| |lia].
  - pose proof (ev_len _ _ _ _ H1).
    apply finish_collection with (lo := lo) in Hrun as [-> E]; [|done].
    split; [done|]. by eapply evolves_trans.
  - eapply Forall_impl; [exact Hcs|]. intros n Hn s0 s0' Hlo Hbody.
    apply bindM_inr in Hbody as (es & s2 & Hb1 & Hb2).
    apply seqItem_ok in Hb1; [|done].
    apply evolves_modify_state with (lo := lo) (doc := doc) in Hb2;
      [|done|apply push_entries_skeleton|apply push_entries_anchors].
    eapply evolves_trans; [eapply evolves_weaken; [|exact Hb1]; lia|done].
Qed.

Lemma flowChild_ok n code ast parent doc lo s u s' :
  PFlowChild (walk_ok yaml) n → (lo ≤ ast)%nat → (lo ≤ length (store s))%nat →
  convertFlowSequenceChild (convertContentNode yaml) n code ast parent doc s
  = inr (u, s') →
  evolves lo doc (store s) (store s').
Proof.
  intros Hn Hast Hlo Hrun. destruct n as [n|n]; simpl in Hrun.
  - apply bindM_inr in Hrun as (es & s2 & Hb1 & Hb2).
    apply seqItem_ok in Hb1; [|done].
    apply evolves_modify_state with (lo := lo) (doc := doc) in Hb2;
      [|done|apply push_entries_skeleton|apply push_entries_anchors].
    eapply evolves_trans; [eapply evolves_weaken; [|exact Hb1]; lia|done].
  - apply bindM_inr in Hrun as (map & s1 & H1 & Hrun).
    apply lift_inr in H1. unfold alloc in H1. injection H1 as <- <-.
    apply bindM_inr in Hrun as (pr & s2 & H2 & Hrun).
    apply item_ok in H2 as (-> & E2 & _); [|done]. simpl in E2.
    apply bindM_inr in Hrun as ([] & s3 & H3 & H4).
    pose proof (ev_len _ _ _ _ E2) as L2. rewrite length_app in L2.
    apply evolves_modify_state with (lo := lo) (doc := doc) in H3;
      [|lia|apply push_pairs_skeleton|apply push_pairs_anchors].
    apply evolves_modify_state with (lo := lo) (doc := doc) in H4;
      [|lia|apply push_entries_skeleton|apply push_entries_anchors].
    eapply evolves_trans;
      [by apply (evolves_alloc lo doc (store s)
                   (YAMLMapping block [] None None parent
                      (getConvertLocation (mi_position n))))|].
    eapply evolves_trans;
      [eapply evolves_weaken; [|exact E2]; rewrite length_app; lia|].
    by eapply evolves_trans.
Qed.

Lemma flowSequence_ok h cs code parent doc st r st' :
  Forall (PFlowChild (walk_ok yaml)) cs →
  convertFlowSequence (convertContentNode yaml) h cs code parent doc st
  = inr (r, st') →
  built isContent parent doc st r st'.
Proof.
  intros Hcs. unfold convertFlowSequence.
  apply built_M; [apply skeleton_isContent|done|done|done|].
  intros s r' s' Hlt Hrun. set (lo := length (store st)) in *.
  apply bindM_inr in Hrun as ([] & s1 & H1 & Hrun).
  apply forEach_evolves with (lo := lo) (doc := doc) in H1; [| |lia].
  - pose proof (ev_len _ _ _ _ H1).
    apply finish_collection with (lo := lo) in Hrun as [-> E]; [|done].
    split; [done|]. by eapply evolves_trans.
  - eapply Forall_impl; [exact Hcs|]. intros n Hn s0 s0' Hlo Hbody.
    eapply flowChild_ok; [exact Hn| |exact Hlo|exact Hbody]. lia.
Qed.

(** A scalar or alias converter: a new node, then
    [convertAnchorAndTag], then tokens. *)
Lemma leaf_ok N h code (toks : St unit) parent doc st :
  (∀ nm p l, N ≠ YAMLAnchor nm p l) →
  isContent N = true → parentOf N = Some parent →
  (∀ s, store (toks s).2 = store s) →
  let res := (let* ast := alloc N in
              convertAnchorAndTag h code ast doc ;; toks ;; ret ast) st in
  built isContent parent doc st res.1 res.2.
Proof.
  intros HN HQ Hp Htoks.
  apply built_St; [apply skeleton_isContent|done|done|done|].
  intros s _. unfold bind, ret.
  pose proof (evolves_convertAnchorAndTag (length (store st)) doc h code
                (length (store st)) s ltac:(lia)) as E.
  destruct (convertAnchorAndTag h code (length (store st)) doc s) as [u s1].
  simpl in E. specialize (Htoks s1). destruct (toks s1) as [u' s2].
  simpl in *. split; [done|]. by rewrite Htoks.
Qed.

(** The node of such a converter is the one it created, up to the
    [anchor] and [tag] references that it is given afterwards. *)
Lemma leaf_skeleton N h code (toks : St unit) doc st :
  (∀ nm p l, N ≠ YAMLAnchor nm p l) →
  (∀ s, store (toks s).2 = store s) →
  ∃ st' n,
    (let* ast := alloc N in
     convertAnchorAndTag h code ast doc ;; toks ;; ret ast) st
    = (length (store st), st')
    ∧ store st' !! length (store st) = Some n
    ∧ skeleton n = skeleton N.
Proof.
  intros HN Htoks. unfold bind, ret, alloc. simpl.
  set (s1 := {| tokens := tokens st; store := store st ++ [N] |}).
  pose proof (evolves_convertAnchorAndTag (length (store st)) doc h code
                (length (store st)) s1 ltac:(lia)) as E.
  destruct (convertAnchorAndTag h code (length (store st)) doc s1) as [u s2].
  simpl in E. specialize (Htoks s2). destruct (toks s2) as [u' s3].
  simpl in *.
  destruct (ev_kind _ _ _ _ E (length (store st)) N (lookup_alloc_new _ _))
    as (n & Hn & Hs).
  exists s3, n. rewrite Htoks. done.
Qed.

Lemma skeleton_scalar n d p l :
  skeleton n = skeleton (YAMLScalar d None None p l) →
  ∃ a t, n = YAMLScalar d a t p l.
Proof. destruct n; simpl; intros [=]; subst; eauto. Qed.

(** The scalar converters return a scalar node, whose [value] is
    therefore defined. *)
Lemma scalar_value_defined h v ch ind code parent doc st c :
  c ∈ [plain h v; quoteDouble h v; quoteSingle h v;
       blockLiteral h ch ind v; blockFolded h ch ind v] →
  ∃ r st' x, convertContentNode yaml c code parent doc st = inr (r, st')
             ∧ valueAt yaml (store st') r = Some x.
Proof.
  intros Hc. rewrite !elem_of_cons in Hc.
  destruct Hc as [->|[->|[->|[->|[->|[]%elem_of_nil]]]]]; simpl;
    unfold lift, convertPlain, convertQuoteDouble, convertQuoteSingle,
      convertBlockLiteral, convertBlockFolded;
    match goal with
    | |- context [bind (alloc ?N)
                    (λ ast, convertAnchorAndTag _ _ _ _ ;; ?toks ;; _) st] =>
        destruct (leaf_skeleton N h code toks doc st)
          as (st' & n & -> & Hn & Hs);
        [done|try done; intros; apply store_blockTokens|]
    end;
    apply skeleton_scalar in Hs as (a & t & ->);
    eexists _, _, _; (split; [reflexivity|]);
    unfold valueAt; by rewrite Hn.
Qed.

(** Every content node keeps the promise. *)
Lemma walk_built (c : ContentNode) : (walk_ok yaml) c.
Proof.
  induction c using ContentNode_nested_ind;
    intros code parent doc st r st' Hrun; simpl in Hrun.
  - by eapply mappingOf_ok.
  - by eapply mappingOf_ok.
  - by eapply sequence_ok.
  - by eapply flowSequence_ok.
  - apply lift_inr in Hrun.
    pose proof (leaf_ok (YAMLScalar (plainScalar v (tag h)
                                       (plainTokenValue yaml v))
                           None None parent
                           (getConvertLocation (position h)))
                  h code
                  (addToken (plainTokenType (plainTokenValue yaml v))
                     (clone (getConvertLocation (position h))) code)
                  parent doc st) as B.
    unfold convertPlain in Hrun. rewrite Hrun in B. by apply B.
  - apply lift_inr in Hrun.
    pose proof (leaf_ok (YAMLScalar
                           (doubleQuoted v (tag h)
                              (sliceRange code
                                 (range (getConvertLocation (position h)))))
                           None None parent
                           (getConvertLocation (position h)))
                  h code
                  (addToken StringT
                     (clone (getConvertLocation (position h))) code)
                  parent doc st) as B.
    unfold convertQuoteDouble in Hrun. rewrite Hrun in B. by apply B.
  - apply lift_inr in Hrun.
    pose proof (leaf_ok (YAMLScalar
                           (singleQuoted v (tag h)
                              (sliceRange code
                                 (range (getConvertLocation (position h)))))
                           None None parent
                           (getConvertLocation (position h)))
                  h code
                  (addToken StringT
                     (clone (getConvertLocation (position h))) code)
                  parent doc st) as B.
    unfold convertQuoteSingle in Hrun. rewrite Hrun in B. by apply B.
  - apply lift_inr in Hrun.
    pose proof (leaf_ok (YAMLScalar (literal c i v) None None parent
                           (getConvertLocation (position h)))
                  h code
                  (blockTokens "|" BlockLiteralT
                     (getConvertLocation (position h)) code)
                  parent doc st) as B.
    unfold convertBlockLiteral in Hrun. rewrite Hrun in B.
    apply B; try done. intros s. apply store_blockTokens.
  - apply lift_inr in Hrun.
    pose proof (leaf_ok (YAMLScalar (folded c i v) None None parent
                           (getConvertLocation (position h)))
                  h code
                  (blockTokens ">" BlockFoldedT
                     (getConvertLocation (position h)) code)
                  parent doc st) as B.
    unfold convertBlockFolded in Hrun. rewrite Hrun in B.
    apply B; try done. intros s. apply store_blockTokens.
  - apply lift_inr in Hrun.
    pose proof (leaf_ok (YAMLAlias v None None parent
                           (getConvertLocation (position h)))
                  h code
                  (if startsWith
                        (sliceRange code
                           (range (getConvertLocation (position h))))
                        (js "*")
                   then sigilTokens (getConvertLocation (position h)) 1 code
                   else addToken Identifier
                          (clone (getConvertLocation (position h))) code)
                  parent doc st) as B.
    unfold convertAlias in Hrun. rewrite Hrun in B.
    apply B; try done. intros s. by destruct (startsWith _ _).
  - done.
Qed.

End WalkOk.

(* ================================================================== *)
(** ** Failure *)

Lemma orElse_None_r {B} (u : option B) : orElse u None = u.
Proof. by destruct u. Qed.

Lemma outcome_ret {A} (a : A) : outcome None (retM a).
Proof. intros s. by exists a, s. Qed.

Lemma outcome_lift {A} (m : St A) : outcome None (lift m).
Proof. intros s. exists (m s).1, (m s).2. unfold lift. by destruct (m s). Qed.

Lemma outcome_throw {A} t :
  outcome (Some t) (@throw A (js "Unsupported node: " ++ t)).
Proof. by intros s. Qed.

Lemma outcome_bind {A B} u v (m : M A) (k : A → M B) :
  outcome u m → (∀ a, outcome v (k a)) → outcome (orElse u v) (bindM m k).
Proof.
  intros Hm Hk s. specialize (Hm s). unfold bindM.
  destruct u as [t|]; simpl.
  - by rewrite Hm.
  - destruct Hm as (a & s' & ->). apply Hk.
Qed.

Lemma outcome_forEach {A} (u : A → option jsstring) (body : A → M unit) l :
  Forall (λ x, outcome (u x) (body x)) l →
  outcome (firstSome u l) (forEach body l).
Proof.
  induction 1 as [|x l Hx _ IH]; simpl.
  - apply outcome_ret.
  - apply (outcome_bind (u x) (firstSome u l)); [done|]. by intros _.
Qed.

(** A step that cannot fail, then the rest. *)
Lemma outcome_then {A B} v (m : M A) (k : A → M B) :
  outcome None m → (∀ a, outcome v (k a)) → outcome v (bindM m k).
Proof. intros Hm Hk. by apply (outcome_bind None v). Qed.

(** A step that can fail, then a rest that cannot. *)
Lemma outcome_first {A B} u (m : M A) (k : A → M B) :
  outcome u m → (∀ a, outcome None (k a)) → outcome u (bindM m k).
Proof.
  intros Hm Hk. rewrite <- (orElse_None_r u). by apply outcome_bind.
Qed.

Section Failure.

Variable yaml : Yaml.

Lemma outcome_head (cs : list ContentNode) {B} (wrap : ref → B) (none : B)
    code parent doc :
  Forall (fails_as_predicted yaml) cs →
  outcome (headSome unsupported cs)
    (match cs with
     | c :: _ => let! r := convertContentNode yaml c code parent doc in
                 retM (wrap r)
     | [] => retM none
     end).
Proof.
  intros Hcs. destruct cs as [|c cs]; simpl.
  - apply outcome_ret.
  - apply Forall_cons_1 in Hcs as [Hc _].
    apply outcome_first; [apply Hc|]. intros ?. apply outcome_ret.
Qed.

Lemma outcome_item (n : MappingItem ContentNode) code parent doc :
  PItem (fails_as_predicted yaml) n →
  outcome (itemUnsupported n)
    (convertMappingItem (convertContentNode yaml) n code parent doc).
Proof.
  intros [Hk Hv]. unfold convertMappingItem, itemUnsupported.
  apply outcome_then; [apply outcome_lift|]. intros ast.
  apply outcome_bind; [by apply outcome_head|]. intros k.
  apply outcome_then; [apply outcome_lift|]. intros _.
  apply outcome_first; [by apply outcome_head|]. intros x.
  apply outcome_then; [apply outcome_lift|]. intros _.
  apply outcome_ret.
Qed.

Lemma outcome_finish h code ast doc :
  outcome None (lift (convertAnchorAndTag h code ast doc) ;;! retM ast).
Proof.
  apply outcome_then; [apply outcome_lift|].
  intros _. apply outcome_ret.
Qed.

Lemma outcome_mappingOf style h cs code parent doc :
  Forall (PItem (fails_as_predicted yaml)) cs →
  outcome (firstSome itemUnsupported cs)
    (convertMappingOf (convertContentNode yaml) style h cs code parent doc).
Proof.
  intros Hcs. unfold convertMappingOf.
  apply outcome_then; [apply outcome_lift|]. intros ast.
  apply outcome_first; [|intros _; apply outcome_finish].
  apply outcome_forEach. eapply Forall_impl; [exact Hcs|].
  intros n Hn.
  apply outcome_first; [by apply outcome_item|].
  intros p. apply outcome_lift.
Qed.

Lemma outcome_seqItem (n : SequenceItem ContentNode) code parent doc :
  PSeqItem (fails_as_predicted yaml) n →
  outcome (headSome unsupported (si_children n))
    (convertSequenceItem (convertContentNode yaml) n code parent doc).
Proof. intros Hn. unfold convertSequenceItem. by apply outcome_head. Qed.

Lemma outcome_sequence h cs code parent doc :
  Forall (PSeqItem (fails_as_predicted yaml)) cs →
  outcome (firstSome seqItemUnsupported cs)
    (convertSequence (convertContentNode yaml) h cs code parent doc).
Proof.
  intros Hcs. unfold convertSequence.
  apply outcome_then; [apply outcome_lift|]. intros ast.
  apply outcome_first; [|intros _; apply outcome_finish].
  apply outcome_forEach. eapply Forall_impl; [exact Hcs|].
  intros n Hn.
  apply outcome_first; [by apply outcome_seqItem|].
  intros p. apply outcome_lift.
Qed.

Lemma outcome_flowSequence h cs code parent doc :
  Forall (PFlowChild (fails_as_predicted yaml)) cs →
  outcome (firstSome flowChildUnsupported cs)
    (convertFlowSequence (convertContentNode yaml) h cs code parent doc).
Proof.
  intros Hcs. unfold convertFlowSequence.
  apply outcome_then; [apply outcome_lift|]. intros ast.
  apply outcome_first; [|intros _; apply outcome_finish].
  apply outcome_forEach. eapply Forall_impl; [exact Hcs|].
  intros [n|n] Hn; simpl.
  - apply outcome_first; [by apply outcome_seqItem|].
    intros p. apply outcome_lift.
  - apply outcome_then; [apply outcome_lift|]. intros map.
    apply outcome_first; [by apply outcome_item|]. intros pr.
    apply outcome_then; [apply outcome_lift|]. intros _.
    apply outcome_lift.
Qed.

Lemma walk_fails_as_predicted (c : ContentNode) : (fails_as_predicted yaml) c.
Proof.
  induction c using ContentNode_nested_ind; intros code parent doc;
    simpl; try apply outcome_lift.
  - by apply outcome_mappingOf.
  - by apply outcome_mappingOf.
  - by apply outcome_sequence.
  - by apply outcome_flowSequence.
  - apply outcome_throw.
Qed.

Lemma outcome_document (d : Document) code parent :
  outcome (headSome unsupported (db_children (doc_body d)))
    (convertDocument yaml d code parent).
Proof.
  unfold convertDocument.
  apply outcome_then; [apply outcome_lift|]. intros ast.
  apply outcome_then; [apply outcome_lift|]. intros ds.
  apply outcome_then; [apply outcome_lift|]. intros _.
  apply outcome_first.
  - unfold convertDocumentBody. apply outcome_head.
    apply Forall_forall. intros c _. apply walk_fails_as_predicted.
  - intros c.
    apply outcome_then; [apply outcome_lift|]. intros _.
    apply outcome_then; [apply outcome_lift|]. intros _.
    apply outcome_ret.
Qed.

Lemma convertDocuments_outcome (node : Root) code :
  match rootUnsupported node with
  | Some t => convertDocuments yaml node code = inl (unsupportedError t)
  | None => ∃ r s, convertDocuments yaml node code = inr (r, s)
  end.
Proof.
  unfold convertDocuments, rootUnsupported.
  set (u := fun d : Document =>
              headSome unsupported (db_children (doc_body d))).
  set (s0 := {| tokens := []; store := [] |}).
  match goal with
  | |- context [bindM ?m ?k s0] =>
      assert (H : outcome (firstSome u (root_children node)) (bindM m k))
  end.
  { apply outcome_then; [apply outcome_lift|]. intros ast.
    apply outcome_first; [|intros _; apply outcome_ret].
    apply outcome_forEach. apply Forall_forall. intros d _.
    apply outcome_first; [apply outcome_document|].
    intros r. apply outcome_lift. }
  exact (H s0).
Qed.

Lemma convertRoot_outcome (node : Root) code :
  match rootUnsupported node with
  | Some t => convertRoot yaml node code = inl (unsupportedError t)
  | None => ∃ r s, convertRoot yaml node code = inr (r, s)
  end.
Proof.
  pose proof (convertDocuments_outcome node code) as H.
  unfold convertRoot. destruct (rootUnsupported node) as [t|].
  - by rewrite H.
  - destruct H as (r & s & ->).
    destruct (scan _ _ _ _ _ s) as [u s1]. eauto.
Qed.

(** C8. A node whose type is outside the dispatch table makes
    [convertContentNode] throw "Unsupported node: " followed by the
    type; every converter above it lets the error through, so the
    conversion of a node, and [convertRoot], fail with that error exactly
    when the walk reaches such a node, and return otherwise. The scalar
    and alias converters never throw, whatever the text and the tag, and
    the value of the scalar they build is defined. *)
Theorem C8_unsupported_node_is_the_only_failure :
  (∀ type p code parent doc st,
     convertContentNode yaml (otherNode type p) code parent doc st
     = inl (Error (js "Unsupported node: " ++ type)))
  ∧ (∀ c code parent doc st,
       match unsupported c with
       | Some type =>
           convertContentNode yaml c code parent doc st
           = inl (Error (js "Unsupported node: " ++ type))
       | None =>
           ∃ r st', convertContentNode yaml c code parent doc st
                    = inr (r, st')
       end)
  ∧ (∀ node code,
       match rootUnsupported node with
       | Some type =>
           convertRoot yaml node code
           = inl (Error (js "Unsupported node: " ++ type))
       | None => ∃ r s, convertRoot yaml node code = inr (r, s)
       end)
  ∧ (∀ h v ch ind code parent doc st c,
       c ∈ [plain h v; quoteDouble h v; quoteSingle h v;
            blockLiteral h ch ind v; blockFolded h ch ind v] →
       ∃ r st' x, convertContentNode yaml c code parent doc st
                  = inr (r, st')
                  ∧ valueAt yaml (store st') r = Some x).
Proof.
  split; [done|]. split; [|split].
  - intros c code parent doc st.
    apply (walk_fails_as_predicted c code parent doc st).
  - apply convertRoot_outcome.
  - intros h v ch ind code parent doc st c Hc.
    by apply (scalar_value_defined yaml h v ch ind).
Qed.

End Failure.

(* ================================================================== *)
(** ** Flow sequences *)

Lemma evolves_keep lo doc s s' r n :
  evolves lo doc s s' → (r < lo)%nat → s !! r = Some n →
  isDocument n = false → s' !! r = Some n.
Proof.
  intros E Hr Hn Hd.
  destruct (ev_frame _ _ _ _ E r n Hr Hn) as (n' & Hn' & He & _).
  by rewrite (eraseAnchors_not_document n n' Hd He) in Hn'.
Qed.

Lemma lookup_set_anchors_keep (s : list YAMLNode) doc name x r n :
  s !! r = Some n → isDocument n = false →
  alter (set_anchors name x) doc s !! r = Some n.
Proof.
  intros Hr Hn. apply lookup_set_anchors; [done|].
  intros d c p a l ->. done.
Qed.

(** What [convertAnchorAndTag] does to a node that is not a document:
    nothing, unless the node is the one the anchor and the tag are
    assigned to. *)
Lemma convertAnchorAndTag_lookup h code ast doc s r n :
  store s !! r = Some n → isDocument n = false →
  ∃ a t, store (convertAnchorAndTag h code ast doc s).2 !! r
         = Some (if decide (ast = r) then set_anchor_tag a t n else n).
Proof.
  intros Hr Hd. pose proof (lookup_lt_Some _ _ _ Hr) as Hlt.
  unfold convertAnchorAndTag, convertAnchor, convertTag, sigilTokens.
  destruct (decide (ast = r)) as [->|Hne];
    destruct (anchor h) as [an|], (tag h) as [tg|];
    unfold bind, ret, alloc, modify, addToken; simpl;
    repeat (match goal with
            | |- context [if startsWith ?a ?b then _ else _] =>
                destruct (startsWith a b)
            end; simpl);
    rewrite ?list_lookup_alter_eq, ?(list_lookup_alter_ne _ _ ast r) by done;
    repeat first
      [ rewrite lookup_alloc
          by (rewrite ?length_alter, ?length_app; simpl; lia)
      | erewrite lookup_set_anchors_keep;
          [ | rewrite lookup_alloc by lia; exact Hr | done ] ];
    rewrite ?Hr; simpl;
    first [ by exists None, None | by eexists _, _ ].
Qed.

Section FlowSequence.

Variable yaml : Yaml.

Lemma entryOf_keep s s' seq parent n e :
  (∀ r x, r ≠ seq → s !! r = Some x → isDocument x = false →
          s' !! r = Some x) →
  entryOf s seq parent n e → entryOf s' seq parent n e.
Proof.
  intros K [He H]. split; [done|]. destruct n as [i|m].
  - destruct H as (x & Hx & Hc & Hp). exists x.
    split; [|done]. apply K; [lia|done|by destruct x].
  - destruct H as (p & k & v & l & Hp & Hm & Hpr). exists p, k, v, l.
    split; [done|]. split; apply K; try done; lia.
Qed.

Lemma isPair_inv n : isPair n = true → ∃ k v p l, n = YAMLPair k v p l.
Proof. destruct n; try done. eauto. Qed.

(** One round of the loop of [convertFlowSequence]. *)
Lemma flowChild_round n code ast parent doc s s' es l :
  store s !! ast = Some (YAMLSequence flow es None None parent l) →
  convertFlowSequenceChild (convertContentNode yaml) n code ast parent doc s
  = inr (tt, s') →
  (∀ r x, r ≠ ast → store s !! r = Some x → isDocument x = false →
          store s' !! r = Some x)
  ∧ ∃ new, store s' !! ast
           = Some (YAMLSequence flow (es ++ new) None None parent l)
           ∧ Forall2 (entryOf (store s') ast parent)
               (filter (λ n, contributes n = true) [n]) new.
Proof.
  intros Hast Hrun. pose proof (lookup_lt_Some _ _ _ Hast) as Hlt.
  destruct n as [i|m]; simpl in Hrun.
  - apply bindM_inr in Hrun as (new & s1 & H1 & H2).
    apply lift_inr in H2. unfold modify in H2. injection H2 as <-.
    unfold convertSequenceItem in H1.
    rewrite filter_cons, filter_nil. unfold contributes.
    destruct (si_children i) as [|c cs].
    + apply retM_inr in H1 as [-> ->]. simpl. split.
      * intros r x Hr Hx _. by rewrite list_lookup_alter_ne.
      * exists []. rewrite list_lookup_alter_eq, Hast. simpl.
        split; [done|]. constructor.
    + apply bindM_inr in H1 as (e & s2 & H1 & H3).
      apply retM_inr in H3 as [-> ->].
      destruct (walk_built yaml c _ _ _ _ _ _ H1)
        as (-> & E & x & Hx & Hc & Hp).
      simpl. split.
      * intros r y Hr Hy Hd. rewrite list_lookup_alter_ne by done.
        eapply evolves_keep; [exact E| |done|done].
        by eapply lookup_lt_Some.
      * exists [length (store s)]. rewrite list_lookup_alter_eq.
        rewrite (evolves_keep _ _ _ _ _ _ E Hlt Hast eq_refl). simpl.
        split; [done|].
        constructor; [|constructor]. split; [lia|].
        exists x. rewrite list_lookup_alter_ne by lia. done.
  - apply bindM_inr in Hrun as (map & s1 & H1 & Hrun).
    apply lift_inr in H1. unfold alloc in H1. injection H1 as <- <-.
    apply bindM_inr in Hrun as (pr & s2 & H2 & Hrun).
    pose proof (item_ok yaml m code (length (store s)) doc _ pr s2
                  ltac:(split; apply Forall_forall; intros; apply walk_built)
                  H2) as (-> & E & x & Hx & Hpair & Hp).
    simpl in *. rewrite length_app in *. simpl in *.
    apply isPair_inv in Hpair as (k & v & p & lp & ->).
    simpl in Hp. injection Hp as ->.
    apply bindM_inr in Hrun as ([] & s3 & H3 & H4).
    apply lift_inr in H3. unfold modify in H3. injection H3 as <-.
    apply lift_inr in H4. unfold modify in H4. injection H4 as <-.
    simpl.
    assert (Hmap : store s2 !! length (store s)
                   = Some (YAMLMapping block [] None None parent
                             (getConvertLocation (mi_position m)))).
    { eapply evolves_keep; [exact E|lia| |done]. apply lookup_alloc_new. }
    split.
    + intros r y Hr Hy Hd. pose proof (lookup_lt_Some _ _ _ Hy).
      rewrite list_lookup_alter_ne by done.
      rewrite list_lookup_alter_ne by lia.
      eapply evolves_keep; [exact E|lia| |done].
      by apply lookup_app_l_Some.
    + exists [length (store s)]. rewrite list_lookup_alter_eq.
      rewrite list_lookup_alter_ne by lia.
      rewrite (evolves_keep _ _ _ _ ast _ E ltac:(lia)
                 (lookup_app_l_Some _ _ _ _ Hast) eq_refl). simpl.
      split; [done|]. rewrite filter_cons, filter_nil.
      simpl.
      constructor; [|constructor]. split; [lia|].
      exists (length (store s) + 1)%nat, k, v, lp.
      split; [lia|]. split.
      * rewrite list_lookup_alter_ne by lia.
        by rewrite list_lookup_alter_eq, Hmap.
      * rewrite list_lookup_alter_ne by lia.
        by rewrite list_lookup_alter_ne by lia.
Qed.

(** The loop of [convertFlowSequence]. *)
Lemma flowChildren_loop cs code ast parent doc l :
  ∀ s s' es,
    store s !! ast = Some (YAMLSequence flow es None None parent l) →
    forEach (fun n => convertFlowSequenceChild (convertContentNode yaml)
                        n code ast parent doc) cs s = inr (tt, s') →
    (∀ r x, r ≠ ast → store s !! r = Some x → isDocument x = false →
            store s' !! r = Some x)
    ∧ ∃ new, store s' !! ast
             = Some (YAMLSequence flow (es ++ new) None None parent l)
             ∧ Forall2 (entryOf (store s') ast parent)
                 (filter (λ n, contributes n = true) cs) new.
Proof.
  induction cs as [|n cs IH]; intros s s' es Hast Hrun; simpl in Hrun.
  - apply retM_inr in Hrun as [_ ->]. split; [done|].
    exists []. rewrite app_nil_r. split; [done|]. constructor.
  - apply bindM_inr in Hrun as ([] & s1 & H1 & H2).
    destruct (flowChild_round _ _ _ _ _ _ _ _ _ Hast H1)
      as (K1 & new1 & Hast1 & F1).
    destruct (IH _ _ _ Hast1 H2) as (K2 & new2 & Hast2 & F2).
    split.
    + intros r x Hr Hx Hd. apply K2; [done| |done]. by apply K1.
    + exists (new1 ++ new2). rewrite app_assoc. split; [done|].
      change (n :: cs) with ([n] ++ cs). rewrite filter_app.
      apply Forall2_app; [|done].
      eapply Forall2_impl; [exact F1|].
      intros c e. by apply entryOf_keep.
Qed.

(** The node that [convertFlowSequence] returns, and its entries. *)
Lemma flowSequence_entries h cs code parent doc st r st' :
  convertContentNode yaml (flowSequence h cs) code parent doc st
  = inr (r, st') →
  r = length (store st)
  ∧ ∃ es a t,
      store st' !! r
      = Some (YAMLSequence flow es a t parent
                (getConvertLocation (position h)))
      ∧ Forall2 (entryOf (store st') r parent)
          (filter (λ n, contributes n = true) cs) es.
Proof.
  simpl. unfold convertFlowSequence. intros Hrun.
  apply bindM_inr in Hrun as (ast & s1 & H1 & Hrun).
  apply lift_inr in H1. unfold alloc in H1. injection H1 as <- <-.
  apply bindM_inr in Hrun as ([] & s2 & H2 & Hrun).
  apply bindM_inr in Hrun as ([] & s3 & H3 & H4).
  apply retM_inr in H4 as [-> ->]. split; [done|].
  destruct (flowChildren_loop cs code (length (store st)) parent doc
              (getConvertLocation (position h))
              {| tokens := tokens st;
                 store := store st ++
                          [YAMLSequence flow [] None None parent
                             (getConvertLocation (position h))] |}
              s2 [] (lookup_alloc_new _ _) H2) as (K & es & Hast & F).
  apply lift_inr in H3.
  destruct (convertAnchorAndTag_lookup h code (length (store st)) doc s2
              _ _ Hast eq_refl) as (a & t & Hast3).
  rewrite H3 in Hast3. simpl in Hast3. rewrite decide_True in Hast3 by done.
  exists es, a, t. split; [done|].
  eapply Forall2_impl; [exact F|]. intros c e. apply entryOf_keep.
  intros r x Hr Hx Hd.
  destruct (convertAnchorAndTag_lookup h code (length (store st)) doc s2
              _ _ Hx Hd) as (a' & t' & Hx3).
  rewrite H3 in Hx3. simpl in Hx3. by rewrite decide_False in Hx3.
Qed.



(** C10. The block mapping made for a key/value pair of a flow sequence
    has as its parent the parent of the sequence, not the sequence; the
    pair has the mapping as its parent. The entry of an item with a body
    has the sequence as its parent. *)
Theorem C10_synthetic_mapping_parent h cs code parent doc st r st' :
  convertContentNode yaml (flowSequence h cs) code parent doc st
  = inr (r, st') →
  ∃ es a t,
    store st' !! r
    = Some (YAMLSequence flow es a t parent
              (getConvertLocation (position h)))
    ∧ Forall2
        (λ n e,
           match n with
           | flowMappingItem m =>
               ∃ map pr p,
                 store st' !! e = Some map
                 ∧ map = YAMLMapping block [p] None None parent
                           (getConvertLocation (mi_position m))
                 ∧ parentOf map = Some parent
                 ∧ store st' !! p = Some pr
                 ∧ isPair pr = true
                 ∧ parentOf pr = Some e
           | flowSequenceItem i =>
               ∃ x, store st' !! e = Some x ∧ parentOf x = Some r
           end)
        (filter (λ n, contributes n = true) cs) es
    ∧ ((parent < length (store st))%nat → parent ≠ r).
Proof.
  intros Hrun.
  destruct (flowSequence_entries _ _ _ _ _ _ _ _ Hrun)
    as (-> & es & a & t & Hr & F).
  exists es, a, t. split; [done|]. split; [|lia].
  eapply Forall2_impl; [exact F|]. intros [i|m] e [_ H].
  - destruct H as (x & Hx & _ & Hp). eauto.
  - destruct H as (p & k & v & l & _ & Hm & Hp).
    by exists (YAMLMapping block [p] None None parent
                 (getConvertLocation (mi_position m))), (YAMLPair k v e l), p.
Qed.

End FlowSequence.


Lemma C10_synthetic_mapping_parent_witness :
  ∃ r st',
    convertContentNode Sample.decimalYaml Sample.flowNode Sample.flowSource
      1%nat 1%nat Sample.flowStart = inr (r, st')
    ∧ ∃ (es : list ref) a t,
        store st' !! r
        = Some (YAMLSequence flow es a t 1%nat
                  (getConvertLocation (Sample.span 0 9)))
        ∧ length es = 2%nat ∧ 1%nat ≠ r.
Proof.
  eexists _, _. split; [vm_compute; reflexivity|].
  destruct (C10_synthetic_mapping_parent Sample.decimalYaml
              (Sample.bare (Sample.span 0 9))
              [flowMappingItem
                 (Sample.item (Sample.span 1 5) (Sample.span 1 2)
                    (Sample.span 2 5)
                    [plain (Sample.bare (Sample.span 1 2)) (js "a")]
                    [plain (Sample.bare (Sample.span 4 5)) (js "1")]);
               flowSequenceItem
                 {| si_position := Sample.span 7 8;
                    si_children :=
                      [plain (Sample.bare (Sample.span 7 8)) (js "b")] |};
               flowSequenceItem
                 {| si_position := Sample.span 8 8; si_children := [] |}]
              Sample.flowSource 1%nat 1%nat Sample.flowStart _ _
              ltac:(vm_compute; reflexivity))
    as (es & a & t & Hr & F & Hne).
  exists es, a, t. split; [exact Hr|].
  split; [|apply Hne; simpl; lia].
  apply Forall2_length in F. rewrite <- F. reflexivity.
Defined.

(* ================================================================== *)
(** ** The anchor registry *)

Lemma register_lookup (s : list YAMLNode) (lo : nat) name x :
  ∀ k,
    register ∅ (anchorsBetween s lo (lo + k)) !! name = Some x
    ↔ lastAnchor s lo (lo + k) name x.
Proof.
  induction k as [|k IH].
  - rewrite Nat.add_0_r, anchorsBetween_nil. simpl.
    rewrite lookup_empty. split; [done|]. intros [? _]. lia.
  - replace (lo + S k)%nat with (S (lo + k)) by lia.
    rewrite (anchorsBetween_app s lo (lo + k) (S (lo + k))) by lia.
    rewrite register_app, anchorsBetween_single.
    destruct (anchorAt s (lo + k)) as [nm|] eqn:Hat; simpl.
    + destruct (decide (nm = name)) as [->|Hne].
      * rewrite lookup_insert_eq. split.
        -- intros [= <-]. split; [lia|]. split; [done|]. intros; lia.
        -- intros (Hx & Hn & Hlast).
           destruct (decide (x = lo + k)%nat) as [->|Hxk]; [done|].
           exfalso. apply (Hlast (lo + k)%nat); [lia|done].
      * rewrite lookup_insert_ne by done. rewrite IH. split.
        -- intros (Hx & Hn & Hlast). split; [lia|]. split; [done|].
           intros x' Hx'. destruct (decide (x' = lo + k)%nat) as [->|?].
           ++ rewrite Hat. congruence.
           ++ apply Hlast. lia.
        -- intros (Hx & Hn & Hlast).
           assert (x ≠ (lo + k)%nat) by (intros ->; congruence).
           split; [lia|]. split; [done|]. intros x' Hx'. apply Hlast. lia.
    + rewrite IH. split.
      * intros (Hx & Hn & Hlast). split; [lia|]. split; [done|].
        intros x' Hx'. destruct (decide (x' = lo + k)%nat) as [->|?].
        -- by rewrite Hat.
        -- apply Hlast. lia.
      * intros (Hx & Hn & Hlast).
        assert (x ≠ (lo + k)%nat) by (intros ->; congruence).
        split; [lia|]. split; [done|]. intros x' Hx'. apply Hlast. lia.
Qed.

Lemma register_lastAnchor (s : list YAMLNode) lo hi name x :
  (lo ≤ hi)%nat →
  register ∅ (anchorsBetween s lo hi) !! name = Some x
  ↔ lastAnchor s lo hi name x.
Proof.
  intros H. replace hi with (lo + (hi - lo))%nat by lia.
  apply register_lookup.
Qed.

Lemma skeleton_document n p l :
  skeleton n = skeleton (YAMLDocument [] None p ∅ l) →
  ∃ ds c a, n = YAMLDocument ds c p a l.
Proof. destruct n; simpl; intros [=]; subst; eauto. Qed.

Lemma push_directives_skeleton x n : skeleton (push_directives x n) = skeleton n.
Proof. by destruct n. Qed.
Lemma push_directives_anchors x n :
  anchorsOf (push_directives x n) = anchorsOf n.
Proof. by destruct n. Qed.
Lemma set_content_skeleton x n : skeleton (set_content x n) = skeleton n.
Proof. by destruct n. Qed.
Lemma set_content_anchors x n : anchorsOf (set_content x n) = anchorsOf n.
Proof. by destruct n. Qed.

Lemma evolves_convertDirectives lo doc l code parent :
  ∀ s, evolves lo doc (store s)
         (store (convertDirectives l code parent s).2).
Proof.
  induction l as [|n l IH]; intros s; simpl.
  - apply evolves_refl.
  - unfold bind, ret, convertDirective, alloc, addToken. simpl.
    set (s1 := {| tokens := _; store := _ |}).
    specialize (IH s1). destruct (convertDirectives l code parent s1).
    simpl in *. eapply evolves_trans; [|exact IH].
    by apply evolves_alloc.
Qed.

Lemma evolves_convertDocumentHead lo doc node code parent s :
  evolves lo doc (store s) (store (convertDocumentHead node code parent s).2).
Proof.
  unfold convertDocumentHead, bind, ret.
  pose proof (evolves_convertDirectives lo doc (dh_children node) code
                parent s) as E.
  destruct (convertDirectives (dh_children node) code parent s) as [ds s1].
  simpl in *.
  pose proof (store_markerToken "-"
                (getConvertLocation (dh_position node)) code s1) as Hm.
  destruct (markerToken "-" _ code s1) as [u s2]. simpl in *.
  by rewrite Hm.
Qed.

Section Documents.

Variable yaml : Yaml.

(** The node that [convertDocument] returns: its registry holds the
    Anchor nodes created after it, and the nodes created before it are
    as they were. *)
Lemma convertDocument_anchors node code parent st d st' :
  convertDocument yaml node code parent st = inr (d, st') →
  d = length (store st)
  ∧ (length (store st) < length (store st'))%nat
  ∧ (∀ r, (r < length (store st))%nat → store st' !! r = store st !! r)
  ∧ ∃ ds c a,
      store st' !! d
      = Some (YAMLDocument ds c parent a
                (getConvertLocation (doc_position node)))
      ∧ a = register ∅ (anchorsBetween (store st') (S d)
                          (length (store st'))).
Proof.
  unfold convertDocument. intros Hrun.
  set (N := YAMLDocument [] None parent ∅
              (getConvertLocation (doc_position node))) in *.
  set (lo := length (store st)).
  apply bindM_inr in Hrun as (ast & s1 & H1 & Hrun).
  apply lift_inr in H1. unfold alloc in H1. injection H1 as <- <-.
  fold lo in Hrun.
  apply bindM_inr in Hrun as (ds & s2 & H2 & Hrun).
  apply lift_inr in H2.
  pose proof (evolves_convertDocumentHead lo lo (doc_head node) code lo
                {| tokens := tokens st; store := store st ++ [N] |}) as E2.
  rewrite H2 in E2. simpl in E2.
  apply bindM_inr in Hrun as ([] & s3 & H3 & Hrun).
  apply evolves_modify_state with (lo := lo) (doc := lo) in H3;
    [|done|apply push_directives_skeleton|apply push_directives_anchors].
  apply bindM_inr in Hrun as (c & s4 & H4 & Hrun).
  assert (E4 : evolves lo lo (store s3) (store s4)).
  { pose proof (ev_len _ _ _ _ E2) as L2. rewrite length_app in L2.
    pose proof (ev_len _ _ _ _ H3) as L3.
    unfold convertDocumentBody in H4.
    eapply evolves_weaken;
      [|eapply (head_child_ok yaml); [|exact H4]].
    - simpl in L2. lia.
    - apply Forall_forall. intros; apply walk_built. }
  apply bindM_inr in Hrun as ([] & s5 & H5 & Hrun).
  apply evolves_modify_state with (lo := lo) (doc := lo) in H5;
    [|done|apply set_content_skeleton|apply set_content_anchors].
  apply bindM_inr in Hrun as ([] & s6 & H6 & Hrun).
  apply lift_inr in H6.
  pose proof (store_markerToken "." (getConvertLocation (doc_position node))
                code s5) as Hm. rewrite H6 in Hm. simpl in Hm.
  apply retM_inr in Hrun as [-> ->].
  assert (E : evolves lo lo (store st ++ [N]) (store s6)).
  { rewrite Hm. eapply evolves_trans; [exact E2|].
    eapply evolves_trans; [exact H3|].
    eapply evolves_trans; [exact E4|exact H5]. }
  pose proof (ev_len _ _ _ _ E) as L. rewrite length_app in L. simpl in L.
  split; [done|]. split; [fold lo; lia|]. split.
  - intros r Hr.
    destruct (lookup_lt_is_Some_2 (store st) r Hr) as [x Hx].
    destruct (ev_frame _ _ _ _ E r x Hr (lookup_app_l_Some _ _ _ _ Hx))
      as (x' & Hx' & _ & Hsame).
    rewrite Hx', Hx. f_equal. apply Hsame. fold lo in Hr. lia.
  - destruct (ev_anchors _ _ _ _ E N (lookup_alloc_new _ _) eq_refl)
      as (n' & Hn' & Ha).
    destruct (ev_kind _ _ _ _ E lo N (lookup_alloc_new _ _))
      as (n'' & Hn'' & Hs).
    assert (n'' = n') by congruence. subst n''.
    apply skeleton_document in Hs as (ds' & c' & a & ->).
    exists ds', c', a. split; [done|].
    simpl in Ha. rewrite Ha, length_app. simpl.
    by replace (length (store st) + 1)%nat with (S lo) by (unfold lo; lia).
Qed.

End Documents.

Section Program.

Variable yaml : Yaml.

(** One round of the loop of [convertRoot]. *)
Lemma documents_round n code s s' body comments l :
  store s !! 0%nat = Some (YAMLProgram body comments l) →
  documentsOK (store s) body →
  (let! d := convertDocument yaml n code 0%nat in
   lift (modify 0%nat (push_body d))) s = inr (tt, s') →
  ∃ d, store s' !! 0%nat = Some (YAMLProgram (body ++ [d]) comments l)
       ∧ documentsOK (store s') (body ++ [d]).
Proof.
  intros Hprog Hok Hrun.
  pose proof (lookup_lt_Some _ _ _ Hprog) as H0.
  apply bindM_inr in Hrun as (d & s1 & H1 & H2).
  apply convertDocument_anchors in H1
    as (-> & Hlen & Hold & ds & c & a & Hd & Ha).
  apply lift_inr in H2. unfold modify in H2. injection H2 as <-. simpl.
  exists (length (store s)). split.
  { by rewrite list_lookup_alter_eq, Hold, Hprog by done. }
  intros i x Hx. rewrite length_alter.
  destruct (decide (i < length body)%nat) as [Hi|Hi].
  - rewrite lookup_app_l in Hx by done.
    destruct (Hok i x Hx) as (Hx0 & Hseg & ds' & c' & a' & ld & Hdoc & Ha').
    assert (Hend : segmentEnd (body ++ [length (store s)]) i
                     (length (store s1))
                   = segmentEnd body i (length (store s))).
    { unfold segmentEnd.
      destruct (decide (S i < length body)%nat) as [Hlt|Hge].
      - destruct (lookup_lt_is_Some_2 body (S i) Hlt) as [y Hy].
        by rewrite lookup_app_l, Hy.
      - assert (S i = length body) as -> by lia.
        rewrite lookup_app_r by lia. rewrite Nat.sub_diag. simpl.
        by rewrite (lookup_ge_None_2 body (length body)) by lia. }
    rewrite Hend. split; [lia|]. split; [lia|].
    exists ds', c', a', ld. split.
    + rewrite list_lookup_alter_ne by lia. rewrite Hold by lia. done.
    + rewrite Ha'. f_equal. symmetry. apply anchorsBetween_ext.
      intros r Hr. unfold anchorAt.
      rewrite list_lookup_alter_ne by lia. rewrite Hold by lia. done.
  - assert (i = length body) as ->.
    { apply lookup_lt_Some in Hx. rewrite length_app in Hx. simpl in Hx.
      lia. }
    rewrite lookup_app_r in Hx by lia. rewrite Nat.sub_diag in Hx.
    injection Hx as <-.
    assert (Hend : segmentEnd (body ++ [length (store s)]) (length body)
                     (length (store s1)) = length (store s1)).
    { unfold segmentEnd. rewrite lookup_ge_None_2; [done|].
      rewrite length_app. simpl. lia. }
    rewrite Hend. split; [lia|]. split; [lia|].
    exists ds, c, a, (getConvertLocation (doc_position n)). split.
    + rewrite list_lookup_alter_ne by lia. done.
    + rewrite Ha. f_equal. symmetry. apply anchorsBetween_ext.
      intros r Hr. unfold anchorAt.
      rewrite list_lookup_alter_ne by lia. done.
Qed.

Lemma documents_loop code comments l :
  ∀ docs s s' body,
    store s !! 0%nat = Some (YAMLProgram body comments l) →
    documentsOK (store s) body →
    forEach (fun n => let! d := convertDocument yaml n code 0%nat in
                      lift (modify 0%nat (push_body d))) docs s
    = inr (tt, s') →
    ∃ body', store s' !! 0%nat = Some (YAMLProgram body' comments l)
             ∧ documentsOK (store s') body'.
Proof.
  induction docs as [|n docs IH]; intros s s' body Hprog Hok Hrun;
    simpl in Hrun.
  - apply retM_inr in Hrun as [_ ->]. eauto.
  - apply bindM_inr in Hrun as ([] & s1 & H1 & H2).
    destruct (documents_round _ _ _ _ _ _ _ Hprog Hok H1)
      as (d & Hprog1 & Hok1).
    by eapply IH.
Qed.

Lemma convertDocuments_documentsOK node code r s :
  convertDocuments yaml node code = inr (r, s) →
  r = 0%nat
  ∧ ∃ body, store s !! 0%nat
            = Some (YAMLProgram body (convertComments node)
                      (getConvertLocation (root_position node)))
            ∧ documentsOK (store s) body.
Proof.
  unfold convertDocuments. intros Hrun.
  apply bindM_inr in Hrun as (ast & s1 & H1 & Hrun).
  apply lift_inr in H1. unfold alloc in H1. injection H1 as <- <-.
  apply bindM_inr in Hrun as ([] & s2 & H2 & H3).
  apply retM_inr in H3 as [-> ->]. split; [done|].
  eapply documents_loop; [| |exact H2]; simpl; [done|].
  intros i d Hd. by rewrite lookup_nil in Hd.
Qed.

Lemma store_scan text rest index line column s :
  store (scan text rest index line column s).2 = store s.
Proof.
  revert index line column s.
  induction rest as [|c rest IH]; intros index line column s; simpl; [done|].
  destruct (c =? 10)%N; [apply IH|].
  unfold bind.
  destruct (trimTruthy c && isPunctuator c); simpl; by rewrite IH.
Qed.

(** [convertRoot] returns the store of the walk. *)
Lemma convertRoot_store node code r s :
  convertRoot yaml node code = inr (r, s) →
  ∃ s1, convertDocuments yaml node code = inr (r, s1)
        ∧ store s = store s1.
Proof.
  unfold convertRoot.
  destruct (convertDocuments yaml node code) as [e|[ast s1]]; [done|].
  pose proof (store_scan
                (stripTokens (stripComments code (convertComments node))
                   (tokens s1))
                (stripTokens (stripComments code (convertComments node))
                   (tokens s1)) 0 1 0 s1) as Hs.
  destruct (scan _ _ 0 1 0 s1) as [u s2]. simpl in Hs.
  intros [= <- <-]. exists s1. by rewrite <- Hs.
Qed.

(** C6. In the result of [convertRoot], the registry of every document
    maps a name to the last Anchor node with that name among the nodes
    created for the document: those between the Document node and the
    next Document node, or the end of the store. A name without such a
    node has no entry. An anchor name that occurs twice does not make the
    conversion fail: without an unsupported node [convertRoot] returns. *)
Theorem C6_registry_holds_last_anchor node code :
  (rootUnsupported node = None →
   ∃ r s, convertRoot yaml node code = inr (r, s))
  ∧ ∀ r s,
      convertRoot yaml node code = inr (r, s) →
      ∃ body comments l,
        store s !! r = Some (YAMLProgram body comments l)
        ∧ ∀ i d, body !! i = Some d →
            ∃ ds c a ld,
              store s !! d = Some (YAMLDocument ds c r a ld)
              ∧ ∀ name x,
                  a !! name = Some x
                  ↔ lastAnchor (store s) (S d)
                      (segmentEnd body i (length (store s))) name x.
Proof.
  split.
  - intros Hu. pose proof (convertRoot_outcome yaml node code) as H.
    by rewrite Hu in H.
  - intros r s Hrun.
    apply convertRoot_store in Hrun as (s1 & H1 & ->).
    apply convertDocuments_documentsOK in H1 as (-> & body & Hprog & Hok).
    exists body, (convertComments node),
      (getConvertLocation (root_position node)).
    split; [done|]. intros i d Hd.
    destruct (Hok i d Hd) as (_ & Hseg & ds & c & a & ld & Hdoc & Ha).
    exists ds, c, a, ld. split; [done|]. intros name x.
    rewrite Ha. apply register_lastAnchor. lia.
Qed.

End Program.

(** On the two lines [- &a x] and [- &a y] the registry of the document
    maps [a] to the second Anchor node, at 6. *)
Lemma C6_registry_holds_last_anchor_witness :
  ∃ r s,
    convertRoot Sample.decimalYaml Sample.twoAnchorsTree
      Sample.twoAnchorsSource = inr (r, s)
    ∧ anchorAt (store s) 4 = Some (js "a")
    ∧ anchorAt (store s) 6 = Some (js "a")
    ∧ ∃ ds c a ld,
        store s !! 1%nat = Some (YAMLDocument ds c r a ld)
        ∧ a !! js "a" = Some 6%nat.
Proof.
  eexists _, _. split; [vm_compute; reflexivity|].
  split; [reflexivity|]. split; [reflexivity|].
  destruct (proj2 (C6_registry_holds_last_anchor Sample.decimalYaml
                     Sample.twoAnchorsTree Sample.twoAnchorsSource)
              _ _ ltac:(vm_compute; reflexivity))
    as (body & comments & l & Hprog & Hdocs).
  vm_compute in Hprog. injection Hprog as <- _ _.
  destruct (Hdocs 0%nat 1%nat eq_refl) as (ds & c & a & ld & Hdoc & Ha).
  exists ds, c, a, ld. split; [exact Hdoc|].
  apply Ha. split; [vm_compute; lia|]. split; [reflexivity|].
  intros x' Hx'. vm_compute in Hx'. lia.
Defined.

(* ================================================================== *)
(** ** The sort *)

Lemma insertToken_Permutation t l : insertToken t l ≡ₚ t :: l.
Proof.
  induction l as [|u l IH]; simpl; [done|].
  destruct (startOf t <=? startOf u); [done|].
  rewrite IH. apply Permutation_swap.
Qed.

Lemma sortTokens_Permutation l : sortTokens l ≡ₚ l.
Proof.
  induction l as [|t l IH]; simpl; [done|].
  unfold sortTokens in *. simpl. rewrite insertToken_Permutation.
  by constructor.
Qed.

Lemma insertToken_ordered t l : ordered l → ordered (insertToken t l).
Proof.
  unfold ordered. induction 1 as [|u l Hl IH Hu]; simpl.
  - repeat constructor.
  - destruct (startOf t <=? startOf u) eqn:E.
    + apply Z.leb_le in E. constructor; [by constructor|].
      constructor; [done|]. eapply Forall_impl; [exact Hu|].
      simpl. intros. lia.
    + apply Z.leb_gt in E. constructor; [done|].
      rewrite insertToken_Permutation. constructor; [lia|done].
Qed.

Lemma sortTokens_ordered l : ordered (sortTokens l).
Proof.
  induction l as [|t l IH]; [constructor|].
  unfold sortTokens in *. simpl. by apply insertToken_ordered.
Qed.

Lemma apart_sym a b : apart a b → apart b a.
Proof. unfold apart. tauto. Qed.

Lemma pairwiseApart_Permutation l l' :
  l ≡ₚ l' → pairwiseApart l → pairwiseApart l'.
Proof.
  induction 1 as [|x l l' Hp IH|x y l|l1 l2 l3 _ IH1 _ IH2]; simpl.
  - done.
  - intros [Hx Hl]. split; [by rewrite <- Hp|auto].
  - intros [Hy [Hx Hl]]. apply Forall_cons_1 in Hy as [Hyx Hy].
    split; [|done]. constructor; [by apply apart_sym|done].
  - auto.
Qed.

Lemma pairwiseApart_app l1 l2 :
  pairwiseApart l1 → pairwiseApart l2 →
  Forall (λ a, Forall (apart a) l2) l1 →
  pairwiseApart (l1 ++ l2).
Proof.
  induction l1 as [|a l1 IH]; simpl; [done|].
  intros [Ha H1] H2 H12. apply Forall_cons_1 in H12 as [Ha2 H12].
  split; [|by apply IH]. by apply Forall_app.
Qed.

(** Tokens that do not meet and are not empty, once ordered by start,
    are strictly ordered and each ends before the next starts. *)
Lemma ordered_apart_strict n l :
  Forall (inBounds n) l → pairwiseApart l → ordered l → strictlyOrdered l.
Proof.
  unfold ordered, strictlyOrdered.
  intros Hb Hp Ho. induction Ho as [|a l Hl IH Ha]; [constructor|].
  apply Forall_cons_1 in Hb as [Hba Hb]. destruct Hp as [Hpa Hp].
  constructor; [by apply IH|].
  rewrite Forall_forall in Ha, Hpa, Hb. apply Forall_forall.
  intros b Hin. specialize (Ha b Hin). specialize (Hpa b Hin).
  specialize (Hb b Hin). unfold inBounds, apart in *. lia.
Qed.

(* ================================================================== *)
(** ** Blanking and the scan *)

Lemma scan_scanList text rest index line column s :
  tokens (scan text rest index line column s).2
  = tokens s ++ scanList text rest index line column.
Proof.
  revert index line column s.
  induction rest as [|c rest IH]; intros index line column s; simpl.
  - by rewrite app_nil_r.
  - destruct (c =? 10)%N; [apply IH|].
    unfold bind. destruct (trimTruthy c && isPunctuator c); simpl.
    + rewrite IH. simpl. by rewrite <- app_assoc.
    + by rewrite IH.
Qed.

Lemma gapTokens_scanList text toks :
  gapTokens text toks
  = scanList (stripTokens text toks) (stripTokens text toks) 0 1 0.
Proof. unfold gapTokens. by rewrite scan_scanList. Qed.

(** The tokens of the scan: each covers one unit of the text that is
    not a space, and they come in the order of the text. *)
Lemma scanList_spec text rest :
  ∀ index line column,
    Forall (λ t, ∃ i c, rest !! i = Some c ∧ isSpace c = false
                        ∧ isPunctuator c = true
                        ∧ tk_type t = Punctuator
                        ∧ range (tk_loc t)
                          = (index + Z.of_nat i, index + Z.of_nat i + 1))
      (scanList text rest index line column)
    ∧ StronglySorted (λ a b, endOf a <= startOf b)
        (scanList text rest index line column).
Proof.
  induction rest as [|c rest IH]; intros index line column; simpl.
  - split; constructor.
  - assert (Hshift : ∀ l,
      Forall (λ t, ∃ i c0, rest !! i = Some c0 ∧ isSpace c0 = false
                           ∧ isPunctuator c0 = true
                           ∧ tk_type t = Punctuator
                           ∧ range (tk_loc t)
                             = (index + 1 + Z.of_nat i,
                                index + 1 + Z.of_nat i + 1)) l →
      Forall (λ t, ∃ i c0, (c :: rest) !! i = Some c0 ∧ isSpace c0 = false
                           ∧ isPunctuator c0 = true
                           ∧ tk_type t = Punctuator
                           ∧ range (tk_loc t)
                             = (index + Z.of_nat i,
                                index + Z.of_nat i + 1)) l).
    { intros l Hl. eapply Forall_impl; [exact Hl|].
      intros t (i & c0 & Hi & Hs & Hp & Hty & Hr).
      exists (S i), c0. repeat split; try done.
      rewrite Hr. f_equal; lia. }
    destruct (c =? 10)%N.
    + destruct (IH (index + 1) (line + 1) 0) as [F S]. split; [|done].
      by apply Hshift.
    + destruct (IH (index + 1) line (column + 1)) as [F S].
      destruct (trimTruthy c && isPunctuator c) eqn:E; simpl.
      * apply andb_prop in E as [Et Ep]. split.
        -- constructor; [|by apply Hshift].
           exists 0%nat, c. unfold trimTruthy in Et.
           apply negb_true_iff in Et. repeat split; try done.
           simpl. f_equal; lia.
        -- constructor; [done|].
           eapply Forall_impl; [exact F|].
           intros t (i & c0 & _ & _ & _ & _ & Hr).
           unfold endOf, startOf. rewrite Hr. simpl. lia.
      * split; [by apply Hshift|done].
Qed.

Lemma StronglySorted_pairwiseApart l :
  StronglySorted (λ a b, endOf a <= startOf b) l → pairwiseApart l.
Proof.
  induction 1 as [|a l _ IH Ha]; simpl; [done|].
  split; [|done]. eapply Forall_impl; [exact Ha|].
  intros b Hb. by left.
Qed.

Lemma replaceNonSpace_fmap text :
  noHighSurrogate text → replaceNonSpace text = blankUnit <$> text.
Proof.
  induction 1 as [|c text Hc _ IH]; [done|].
  simpl. rewrite Hc. by rewrite IH.
Qed.

Lemma isSpace_blankUnit c : isSpace (blankUnit c) = true.
Proof. unfold blankUnit. by destruct (isSpace c) eqn:E. Qed.

Lemma noHigh_blankUnit c :
  isHighSurrogate c = false → isHighSurrogate (blankUnit c) = false.
Proof. unfold blankUnit. by destruct (isSpace c). Qed.

Lemma clamp_inside (s : jsstring) i : 0 <= i <= len s → clamp s i = i.
Proof.
  intros H. unfold clamp. destruct (i <? 0) eqn:E.
  - apply Z.ltb_lt in E. lia.
  - lia.
Qed.

(** Blanking a range inside a text without surrogate pairs: the text
    in three parts, the middle one blanked unit by unit. *)
Lemma blank_parts text a b :
  noHighSurrogate text → 0 <= a → a <= b → b <= len text →
  ∃ l1 l2 l3,
    text = l1 ++ l2 ++ l3
    ∧ Z.of_nat (length l1) = a ∧ Z.of_nat (length l2) = b - a
    ∧ blank text (a, b) = l1 ++ (blankUnit <$> l2) ++ l3.
Proof.
  intros Hn Ha Hab Hb. unfold len in Hb.
  exists (take (Z.to_nat a) text),
    (take (Z.to_nat (b - a)) (drop (Z.to_nat a) text)),
    (drop (Z.to_nat b) text).
  split; [|split; [|split]].
  - rewrite <- (take_drop (Z.to_nat a) text) at 1. f_equal.
    rewrite <- (take_drop (Z.to_nat (b - a)) (drop (Z.to_nat a) text)) at 1.
    f_equal. rewrite drop_drop. f_equal. lia.
  - rewrite length_take. lia.
  - rewrite length_take, length_drop. lia.
  - unfold blank, slice, sliceFrom. simpl.
    rewrite !clamp_inside by (unfold len; lia).
    rewrite Z.sub_0_r. simpl. f_equal. f_equal.
    apply replaceNonSpace_fmap.
    apply Forall_take, Forall_drop. exact Hn.
Qed.

Lemma blank_spec text a b :
  noHighSurrogate text → 0 <= a → a <= b → b <= len text →
  length (blank text (a, b)) = length text
  ∧ noHighSurrogate (blank text (a, b))
  ∧ ∀ i c, blank text (a, b) !! i = Some c → isSpace c = false →
           text !! i = Some c ∧ ¬ (a <= Z.of_nat i < b).
Proof.
  intros Hn Ha Hab Hb.
  destruct (blank_parts text a b Hn Ha Hab Hb)
    as (l1 & l2 & l3 & Ht & H1 & H2 & ->).
  subst text. unfold noHighSurrogate in *.
  apply Forall_app in Hn as [Hn1 Hn23]. apply Forall_app in Hn23 as [Hn2 Hn3].
  split; [|split].
  - rewrite !length_app, length_fmap. done.
  - apply Forall_app. split; [done|]. apply Forall_app. split; [|done].
    apply Forall_fmap. eapply Forall_impl; [exact Hn2|].
    intros c. apply noHigh_blankUnit.
  - intros i c Hi Hs.
    destruct (decide (i < length l1)%nat) as [Hlt|Hge].
    + rewrite lookup_app_l in Hi by done.
      rewrite lookup_app_l by done. split; [done|]. lia.
    + rewrite lookup_app_r in Hi by lia. rewrite lookup_app_r by lia.
      destruct (decide (i - length l1 < length l2)%nat) as [Hlt2|Hge2].
      * rewrite lookup_app_l in Hi by (by rewrite length_fmap).
        rewrite list_lookup_fmap in Hi.
        destruct (l2 !! (i - length l1)%nat) as [c0|]; [|done].
        simpl in Hi. injection Hi as <-.
        by rewrite isSpace_blankUnit in Hs.
      * rewrite lookup_app_r in Hi by (rewrite length_fmap; lia).
        rewrite length_fmap in Hi.
        rewrite lookup_app_r by lia. split; [done|]. lia.
Qed.

(** After all the tokens are blanked, a unit that is not a space is a
    unit of the text before, outside every token. *)
Lemma stripTokens_spec toks :
  ∀ text,
    noHighSurrogate text → Forall (inBounds (len text)) toks →
    length (stripTokens text toks) = length text
    ∧ ∀ i c, stripTokens text toks !! i = Some c → isSpace c = false →
             text !! i = Some c
             ∧ Forall (λ t, ¬ (startOf t <= Z.of_nat i < endOf t)) toks.
Proof.
  induction toks as [|t toks IH]; intros text Hn Hb; simpl.
  - split; [done|]. intros i c Hi _. split; [done|constructor].
  - apply Forall_cons_1 in Hb as [[H0 [Hlt Hle]] Hb].
    destruct (range (tk_loc t)) as [a b] eqn:Hr.
    unfold startOf, endOf in H0, Hlt, Hle. rewrite Hr in H0, Hlt, Hle.
    simpl in *.
    destruct (blank_spec text a b Hn H0 ltac:(lia) Hle) as (Hlen & Hn' & Hb').
    destruct (IH (blank text (a, b)) Hn') as [Hlen2 Hsp].
    { unfold len. rewrite Hlen. exact Hb. }
    unfold stripTokens in *. simpl. rewrite ?Hr.
    split; [congruence|].
    intros i c Hi Hs. destruct (Hsp i c Hi Hs) as [Hi' Hout].
    destruct (Hb' i c Hi' Hs) as [Hi'' Hnot].
    split; [done|]. constructor; [|done].
    unfold startOf, endOf. by rewrite Hr.
Qed.

Lemma noHigh_blank text r : noHighSurrogate text → noHighSurrogate (blank text r).
Proof.
  intros Hn. unfold blank, slice, sliceFrom, noHighSurrogate in *.
  apply Forall_app. split; [by apply Forall_take, Forall_drop|].
  apply Forall_app. split; [|by apply Forall_drop].
  rewrite replaceNonSpace_fmap by (by apply Forall_take, Forall_drop).
  apply Forall_fmap. apply Forall_take, Forall_drop.
  eapply Forall_impl; [exact Hn|]. intros c. apply noHigh_blankUnit.
Qed.

Lemma noHigh_stripComments comments :
  ∀ code, noHighSurrogate code → noHighSurrogate (stripComments code comments).
Proof.
  induction comments as [|c cs IH]; intros code Hn; [done|].
  unfold stripComments in *. simpl. apply IH. by apply noHigh_blank.
Qed.

Section TokenOrder.

Variable yaml : Yaml.

(** The token buffer that [convertRoot] returns is the sorted buffer of
    the walk followed by the tokens of the scan. *)
Lemma convertRoot_tokens node code r s :
  convertRoot yaml node code = inr (r, s) →
  ∃ s1, convertDocuments yaml node code = inr (r, s1)
        ∧ tokens s
          = sortTokens
              (tokens s1
               ++ gapTokens (stripComments code (convertComments node))
                    (tokens s1)).
Proof.
  unfold convertRoot.
  destruct (convertDocuments yaml node code) as [e|[ast s1]]; [done|].
  set (text := stripTokens _ _).
  pose proof (scan_scanList text text 0 1 0 s1) as Hs.
  destruct (scan text text 0 1 0 s1) as [u s2]. simpl in Hs.
  intros [= <- <-]. exists s1. split; [done|]. simpl.
  by rewrite Hs, gapTokens_scanList.
Qed.

(** The tokens of the scan do not meet the tokens of the walk, when
    those lie in the text and the text has no surrogate pair. *)
Lemma gapTokens_apart text toks :
  noHighSurrogate text → Forall (inBounds (len text)) toks →
  Forall (inBounds (len text)) (gapTokens text toks)
  ∧ pairwiseApart (gapTokens text toks)
  ∧ Forall (λ a, Forall (apart a) (gapTokens text toks)) toks.
Proof.
  intros Hn Hb. rewrite gapTokens_scanList.
  destruct (stripTokens_spec toks text Hn Hb) as [Hlen Hsp].
  destruct (scanList_spec (stripTokens text toks) (stripTokens text toks)
              0 1 0) as [F S].
  split; [|split].
  - eapply Forall_impl; [exact F|].
    intros t (i & c & Hi & _ & _ & _ & Hr).
    apply lookup_lt_Some in Hi. rewrite Hlen in Hi.
    unfold inBounds, startOf, endOf, len. rewrite Hr. simpl. lia.
  - by apply StronglySorted_pairwiseApart.
  - apply Forall_forall. intros a Ha.
    eapply Forall_impl; [exact F|].
    intros t (i & c & Hi & Hs & _ & _ & Hr).
    destruct (Hsp i c Hi Hs) as [_ Hout].
    rewrite Forall_forall in Hout. specialize (Hout a Ha).
    unfold apart, startOf, endOf in *. rewrite Hr. simpl. lia.
Qed.

(** What the sort and the scan give for every input. The token array of
    the result holds the tokens of the walk and the tokens of the scan,
    each once, ordered by start offset. The scan adds no token that meets
    another one: the array is strictly ordered, every token ending before
    the next one starts, when the tokens of the walk have non-empty
    ranges inside the text, no two of which meet, and the text has no
    surrogate pair. *)
Theorem tokens_sorted_and_apart node code r s :
  convertRoot yaml node code = inr (r, s) →
  ∃ s1,
    convertDocuments yaml node code = inr (r, s1)
    ∧ tokens s
      ≡ₚ tokens s1
         ++ gapTokens (stripComments code (convertComments node))
              (tokens s1)
    ∧ ordered (tokens s)
    ∧ (noHighSurrogate code →
       Forall (inBounds (len (stripComments code (convertComments node))))
         (tokens s1) →
       pairwiseApart (tokens s1) →
       strictlyOrdered (tokens s)).
Proof.
  intros Hrun. apply convertRoot_tokens in Hrun as (s1 & H1 & ->).
  exists s1. split; [done|]. split; [apply sortTokens_Permutation|].
  split; [apply sortTokens_ordered|].
  intros Hn Hb Hp.
  set (text := stripComments code (convertComments node)) in *.
  destruct (gapTokens_apart text (tokens s1)
              (noHigh_stripComments _ _ Hn) Hb) as (Hgb & Hgp & Hcross).
  apply (ordered_apart_strict (len text)).
  - rewrite sortTokens_Permutation. by apply Forall_app.
  - eapply pairwiseApart_Permutation;
      [symmetry; apply sortTokens_Permutation|].
    by apply pairwiseApart_app.
  - apply sortTokens_ordered.
Qed.

End TokenOrder.

(** The hypotheses hold of the input [a: 1]. *)
Lemma tokens_sorted_and_apart_witness :
  ∃ s, convertRoot Sample.decimalYaml Sample.pairTree Sample.pairSource
       = inr (0%nat, s)
       ∧ tokenTexts (tokens s)
         = [((0, 1), js "a"); ((1, 2), js ":"); ((3, 4), js "1")]
       ∧ strictlyOrdered (tokens s).
Proof.
  eexists. split; [vm_compute; reflexivity|].
  split; [vm_compute; reflexivity|].
  destruct (tokens_sorted_and_apart Sample.decimalYaml Sample.pairTree
              Sample.pairSource 0%nat _ ltac:(vm_compute; reflexivity))
    as (s1 & H1 & _ & _ & Hstrict).
  vm_compute in H1. injection H1 as <-.
  apply Hstrict.
  - repeat constructor.
  - repeat constructor; vm_compute; congruence.
  - simpl. repeat split; repeat constructor; vm_compute; congruence.
Defined.

(** C3. The tokens of a result are not always strictly ordered and
    apart. The input [a: b.], without a line break at its end, is well
    formed: it has no surrogate pair, and every token of its result has
    a non-empty range inside the text. The document ends in a dot, so
    [convertDocument] pushes a Marker token on its last three characters,
    [2, 5]; the Identifier token of the scalar [b.] is on [3, 5]. The
    two tokens meet, and the sorted array is ordered by start offset, but
    the Marker token does not end before the Identifier token starts. *)
Theorem C3_tokens_meet_on_marker_slip (yaml : Yaml) :
  ∃ s, convertRoot yaml Sample.dotTree Sample.dotSource = inr (0%nat, s)
       ∧ tokenTexts (tokens s)
         = [((0, 1), js "a"); ((1, 2), js ":");
            ((2, 5), js " b."); ((3, 5), js "b.")]
       ∧ noHighSurrogate Sample.dotSource
       ∧ Forall (inBounds (len Sample.dotSource)) (tokens s)
       ∧ ordered (tokens s)
       ∧ ¬ pairwiseApart (tokens s)
       ∧ ¬ strictlyOrdered (tokens s).
Proof.
  eexists. split; [vm_compute; reflexivity|].
  split; [vm_compute; reflexivity|].
  split; [repeat constructor|].
  split; [repeat constructor; vm_compute; congruence|].
  split; [repeat constructor; vm_compute; congruence|].
  split.
  - simpl. intros (_ & _ & H & _).
    apply Forall_cons_1 in H as [[H|H] _]; vm_compute in H; by apply H.
  - intros H.
    do 2 (apply StronglySorted_inv in H as [H _]).
    apply StronglySorted_inv in H as [_ H].
    apply Forall_cons_1 in H as [[_ H] _]. vm_compute in H. by apply H.
Qed.

(* ================================================================== *)
(** ** The token buffer during a walk *)

Lemma pushes_refl P s s' : tokens s' = tokens s → pushes P s s'.
Proof. intros H. exists []. by rewrite app_nil_r. Qed.

Lemma pushes_trans P s1 s2 s3 :
  pushes P s1 s2 → pushes P s2 s3 → pushes P s1 s3.
Proof.
  intros (n1 & H1 & F1) (n2 & H2 & F2). exists (n1 ++ n2).
  rewrite H2, H1, app_assoc. split; [done|]. by apply Forall_app.
Qed.

Lemma pushesSt_ret P {A} (a : A) : pushesSt P (ret a).
Proof. intros s. by apply pushes_refl. Qed.

Lemma pushesSt_alloc P n : pushesSt P (alloc n).
Proof. intros s. by apply pushes_refl. Qed.

Lemma pushesSt_modify P r f : pushesSt P (modify r f).
Proof. intros s. by apply pushes_refl. Qed.

Lemma pushesSt_addToken code ty l : pushesSt (fromCode code) (addToken ty l code).
Proof.
  intros s. eexists. split; [reflexivity|]. by repeat constructor.
Qed.

Lemma pushesSt_bind P {A B} (m : St A) (k : A → St B) :
  pushesSt P m → (∀ a, pushesSt P (k a)) → pushesSt P (bind m k).
Proof.
  intros Hm Hk s. unfold bind. specialize (Hm s).
  destruct (m s) as [a s1]. simpl in Hm.
  eapply pushes_trans; [exact Hm|apply Hk].
Qed.

Lemma pushesM_ret P {A} (a : A) : pushesM P (retM a).
Proof. intros s b s' [-> ->]%retM_inr. by apply pushes_refl. Qed.

Lemma pushesM_throw P {A} msg : pushesM P (@throw A msg).
Proof. by intros s b s'. Qed.

Lemma pushesM_lift P {A} (m : St A) : pushesSt P m → pushesM P (lift m).
Proof. intros Hm s a s' H%lift_inr. specialize (Hm s). by rewrite H in Hm. Qed.

Lemma pushesM_bind P {A B} (m : M A) (k : A → M B) :
  pushesM P m → (∀ a, pushesM P (k a)) → pushesM P (bindM m k).
Proof.
  intros Hm Hk s b s' (a & s1 & H1 & H2)%bindM_inr.
  eapply pushes_trans; [by eapply Hm|by eapply Hk].
Qed.

Lemma pushesM_forEach P {A} (body : A → M unit) l :
  Forall (λ x, pushesM P (body x)) l → pushesM P (forEach body l).
Proof.
  induction 1 as [|x l Hx _ IH]; simpl.
  - apply pushesM_ret.
  - apply pushesM_bind; [done|]. by intros _.
Qed.

Section WalkTokens.

Variable yaml : Yaml.
Variable code : jsstring.

Local Abbreviation P := (fromCode code).

Lemma pushes_sigilTokens l n : pushesSt P (sigilTokens l n code).
Proof.
  unfold sigilTokens. apply pushesSt_bind; [apply pushesSt_addToken|].
  intros _. apply pushesSt_addToken.
Qed.

Lemma pushes_blockTokens ind ty l : pushesSt P (blockTokens ind ty l code).
Proof.
  unfold blockTokens. destruct (startsWith _ _); [|apply pushesSt_addToken].
  destruct (headerScan _ _ _ _) as [[? ?] ?].
  apply pushesSt_bind; [apply pushesSt_addToken|]. intros _.
  destruct (bodyScan _ _ _ _) as [[? ?] ?]. apply pushesSt_addToken.
Qed.

Lemma pushes_markerToken c l : pushesSt P (markerToken c l code).
Proof.
  unfold markerToken. destruct (bool_decide _);
    [apply pushesSt_addToken|apply pushesSt_ret].
Qed.

Lemma pushes_convertAnchor n parent doc :
  pushesSt P (convertAnchor n code parent doc).
Proof.
  unfold convertAnchor.
  apply pushesSt_bind; [apply pushesSt_alloc|]. intros ast.
  apply pushesSt_bind; [apply pushesSt_modify|]. intros _.
  apply pushesSt_bind; [|intros _; apply pushesSt_ret].
  destruct (startsWith _ _);
    [apply pushes_sigilTokens|apply pushesSt_addToken].
Qed.

Lemma pushes_convertTag n parent : pushesSt P (convertTag n code parent).
Proof.
  unfold convertTag.
  apply pushesSt_bind; [apply pushesSt_alloc|]. intros ast.
  apply pushesSt_bind; [|intros _; apply pushesSt_ret].
  destruct (startsWith _ _);
    [apply pushes_sigilTokens|apply pushesSt_addToken].
Qed.

Lemma pushes_convertAnchorAndTag h parent doc :
  pushesSt P (convertAnchorAndTag h code parent doc).
Proof.
  unfold convertAnchorAndTag.
  apply pushesSt_bind.
  { destruct (anchor h); [|apply pushesSt_ret].
    apply pushesSt_bind; [apply pushes_convertAnchor|].
    intros ?. apply pushesSt_ret. }
  intros a. apply pushesSt_bind.
  { destruct (tag h); [|apply pushesSt_ret].
    apply pushesSt_bind; [apply pushes_convertTag|].
    intros ?. apply pushesSt_ret. }
  intros t. apply pushesSt_modify.
Qed.

(** A scalar or alias converter. *)
Lemma pushes_leaf N h (toks : St unit) doc :
  pushesSt P toks →
  pushesSt P (let* ast := alloc N in
              convertAnchorAndTag h code ast doc ;; toks ;; ret ast).
Proof.
  intros Ht.
  apply pushesSt_bind; [apply pushesSt_alloc|]. intros ast.
  apply pushesSt_bind; [apply pushes_convertAnchorAndTag|]. intros _.
  apply pushesSt_bind; [done|]. intros _. apply pushesSt_ret.
Qed.

Lemma pushes_head (cs : list ContentNode) {B} (wrap : ref → B) (none : B)
    parent doc :
  Forall (walk_pushes yaml code) cs →
  pushesM P
    (match cs with
     | c :: _ => let! r := convertContentNode yaml c code parent doc in
                 retM (wrap r)
     | [] => retM none
     end).
Proof.
  intros Hcs. destruct cs as [|c cs]; [apply pushesM_ret|].
  apply Forall_cons_1 in Hcs as [Hc _].
  apply pushesM_bind; [apply Hc|]. intros ?. apply pushesM_ret.
Qed.

Lemma pushes_item n parent doc :
  PItem (walk_pushes yaml code) n →
  pushesM P (convertMappingItem (convertContentNode yaml) n code parent doc).
Proof.
  intros [Hk Hv]. unfold convertMappingItem.
  apply pushesM_bind; [apply pushesM_lift, pushesSt_alloc|]. intros ast.
  apply pushesM_bind; [by apply pushes_head|]. intros k.
  apply pushesM_bind; [apply pushesM_lift, pushesSt_modify|]. intros _.
  apply pushesM_bind; [by apply pushes_head|]. intros v.
  apply pushesM_bind; [apply pushesM_lift, pushesSt_modify|]. intros _.
  apply pushesM_ret.
Qed.

Lemma pushes_seqItem n parent doc :
  PSeqItem (walk_pushes yaml code) n →
  pushesM P (convertSequenceItem (convertContentNode yaml) n code parent doc).
Proof. intros Hn. unfold convertSequenceItem. by apply pushes_head. Qed.

Lemma pushes_finish h ast doc :
  pushesM P (lift (convertAnchorAndTag h code ast doc) ;;! retM ast).
Proof.
  apply pushesM_bind; [apply pushesM_lift, pushes_convertAnchorAndTag|].
  intros _. apply pushesM_ret.
Qed.

Lemma walk_pushes_all (c : ContentNode) : (walk_pushes yaml code) c.
Proof.
  induction c using ContentNode_nested_ind; intros parent doc; simpl.
  - unfold convertMapping, convertMappingOf.
    apply pushesM_bind; [apply pushesM_lift, pushesSt_alloc|]. intros ast.
    apply pushesM_bind; [|intros _; apply pushes_finish].
    apply pushesM_forEach. eapply Forall_impl; [exact H|]. intros n Hn.
    apply pushesM_bind; [by apply pushes_item|]. intros p.
    apply pushesM_lift, pushesSt_modify.
  - unfold convertFlowMapping, convertMappingOf.
    apply pushesM_bind; [apply pushesM_lift, pushesSt_alloc|]. intros ast.
    apply pushesM_bind; [|intros _; apply pushes_finish].
    apply pushesM_forEach. eapply Forall_impl; [exact H|]. intros n Hn.
    apply pushesM_bind; [by apply pushes_item|]. intros p.
    apply pushesM_lift, pushesSt_modify.
  - unfold convertSequence.
    apply pushesM_bind; [apply pushesM_lift, pushesSt_alloc|]. intros ast.
    apply pushesM_bind; [|intros _; apply pushes_finish].
    apply pushesM_forEach. eapply Forall_impl; [exact H|]. intros n Hn.
    apply pushesM_bind; [by apply pushes_seqItem|]. intros p.
    apply pushesM_lift, pushesSt_modify.
  - unfold convertFlowSequence.
    apply pushesM_bind; [apply pushesM_lift, pushesSt_alloc|]. intros ast.
    apply pushesM_bind; [|intros _; apply pushes_finish].
    apply pushesM_forEach. eapply Forall_impl; [exact H|].
    intros [n|n] Hn; simpl.
    + apply pushesM_bind; [by apply pushes_seqItem|]. intros p.
      apply pushesM_lift, pushesSt_modify.
    + apply pushesM_bind; [apply pushesM_lift, pushesSt_alloc|]. intros map.
      apply pushesM_bind; [by apply pushes_item|]. intros pr.
      apply pushesM_bind; [apply pushesM_lift, pushesSt_modify|].
      intros _. apply pushesM_lift, pushesSt_modify.
  - apply pushesM_lift, pushes_leaf, pushesSt_addToken.
  - apply pushesM_lift, pushes_leaf, pushesSt_addToken.
  - apply pushesM_lift, pushes_leaf, pushesSt_addToken.
  - apply pushesM_lift, pushes_leaf, pushes_blockTokens.
  - apply pushesM_lift, pushes_leaf, pushes_blockTokens.
  - apply pushesM_lift, pushes_leaf.
    destruct (startsWith _ _);
      [apply pushes_sigilTokens|apply pushesSt_addToken].
  - apply pushesM_throw.
Qed.

Lemma pushes_convertDirectives l parent :
  pushesSt P (convertDirectives l code parent).
Proof.
  induction l as [|n l IH]; simpl; [apply pushesSt_ret|].
  apply pushesSt_bind.
  { unfold convertDirective.
    apply pushesSt_bind; [apply pushesSt_alloc|]. intros ast.
    apply pushesSt_bind; [apply pushesSt_addToken|].
    intros _. apply pushesSt_ret. }
  intros d. apply pushesSt_bind; [done|]. intros ds. apply pushesSt_ret.
Qed.

Lemma pushes_convertDocument d parent :
  pushesM P (convertDocument yaml d code parent).
Proof.
  unfold convertDocument.
  apply pushesM_bind; [apply pushesM_lift, pushesSt_alloc|]. intros ast.
  apply pushesM_bind.
  { apply pushesM_lift. unfold convertDocumentHead.
    apply pushesSt_bind; [apply pushes_convertDirectives|]. intros ds.
    apply pushesSt_bind; [apply pushes_markerToken|].
    intros _. apply pushesSt_ret. }
  intros ds. apply pushesM_bind; [apply pushesM_lift, pushesSt_modify|].
  intros _. apply pushesM_bind.
  { unfold convertDocumentBody. apply pushes_head.
    apply Forall_forall. intros c _. apply walk_pushes_all. }
  intros c. apply pushesM_bind; [apply pushesM_lift, pushesSt_modify|].
  intros _. apply pushesM_bind; [apply pushesM_lift, pushes_markerToken|].
  intros _. apply pushesM_ret.
Qed.

End WalkTokens.

(* ================================================================== *)
(** ** The text of the tokens *)

Lemma slice_single (text : jsstring) (i : nat) c :
  text !! i = Some c → slice text (Z.of_nat i) (Z.of_nat i + 1) = [c].
Proof.
  intros Hi. pose proof (lookup_lt_Some _ _ _ Hi) as Hlt.
  unfold slice. rewrite !clamp_inside by (unfold len; lia).
  replace (Z.to_nat (Z.of_nat i + 1 - Z.of_nat i)) with 1%nat by lia.
  rewrite Nat2Z.id. by rewrite (drop_S _ _ _ Hi).
Qed.

Lemma slice_ext (t1 t2 : jsstring) a b :
  length t1 = length t2 → 0 <= a → a <= b → b <= len t1 →
  (∀ i : nat, a <= Z.of_nat i < b → t1 !! i = t2 !! i) →
  slice t1 a b = slice t2 a b.
Proof.
  intros Hlen Ha Hab Hb Hext. unfold slice.
  rewrite !clamp_inside by (unfold len in *; lia).
  apply list_eq. intros j.
  destruct (decide (j < Z.to_nat (b - a))%nat) as [Hj|Hj].
  - rewrite !lookup_take_lt, !lookup_drop by done. apply Hext. lia.
  - rewrite !lookup_take_ge by lia. done.
Qed.

Lemma scanList_fromCode text rest :
  ∀ index line column,
    Forall (fromCode text) (scanList text rest index line column).
Proof.
  induction rest as [|c rest IH]; intros index line column; simpl.
  - constructor.
  - destruct (c =? 10)%N; [apply IH|].
    apply Forall_app. split; [|apply IH].
    destruct (trimTruthy c && isPunctuator c); by repeat constructor.
Qed.

(** Every token of the scan is one structural character. *)
Lemma scanList_gap text :
  Forall isGapToken (scanList text text 0 1 0).
Proof.
  destruct (scanList_spec text text 0 1 0) as [F _].
  pose proof (scanList_fromCode text text 0 1 0) as V.
  rewrite Forall_forall in F, V. apply Forall_forall. intros t Ht.
  destruct (F t Ht) as (i & c & Hi & _ & Hp & Hty & Hr).
  split; [done|]. exists (Z.of_nat i), c.
  rewrite Hr. split; [f_equal; lia|]. split; [lia|]. split; [done|].
  rewrite (V t Ht), Hr. unfold sliceRange. simpl.
  replace (0 + Z.of_nat i) with (Z.of_nat i) by lia.
  by apply slice_single.
Qed.

Lemma blank_outside text a b :
  noHighSurrogate text → 0 <= a → a <= b → b <= len text →
  ∀ i : nat, ¬ (a <= Z.of_nat i < b) → blank text (a, b) !! i = text !! i.
Proof.
  intros Hn Ha Hab Hb i Hi.
  destruct (blank_parts text a b Hn Ha Hab Hb)
    as (l1 & l2 & l3 & Ht & H1 & H2 & ->).
  subst text.
  destruct (decide (i < length l1)%nat) as [Hlt|Hge].
  - by rewrite !lookup_app_l by done.
  - rewrite !(lookup_app_r l1) by lia.
    rewrite !lookup_app_r by (rewrite ?length_fmap; lia).
    by rewrite length_fmap.
Qed.

(** The working copy without the comments: as long as the text, and
    equal to it outside the comments and wherever it holds a unit that
    is not a space. *)
Lemma stripComments_spec comments :
  ∀ code,
    noHighSurrogate code →
    Forall (λ c, rangeInside (len code) (range (c_loc c))) comments →
    length (stripComments code comments) = length code
    ∧ (∀ i c, stripComments code comments !! i = Some c →
              isSpace c = false → code !! i = Some c)
    ∧ (∀ i : nat,
         Forall (λ c, ¬ (fst (range (c_loc c)) <= Z.of_nat i
                         < snd (range (c_loc c)))) comments →
         stripComments code comments !! i = code !! i).
Proof.
  induction comments as [|c cs IH]; intros code Hn Hin.
  - split; [done|]. split; [by intros|by intros].
  - apply Forall_cons_1 in Hin as [(H0 & Hab & Hb) Hin].
    destruct (range (c_loc c)) as [a b] eqn:Hr. simpl in *.
    destruct (blank_spec code a b Hn H0 Hab Hb) as (Hlen & Hn' & Hsp).
    destruct (IH (blank code (a, b)) Hn') as (Hlen2 & Hsp2 & Hout2).
    { unfold len. rewrite Hlen. exact Hin. }
    unfold stripComments in *. simpl. rewrite ?Hr.
    split; [congruence|]. split.
    + intros i x Hi Hx.
      by destruct (Hsp i x (Hsp2 i x Hi Hx) Hx) as [? _].
    + intros i Hi. apply Forall_cons_1 in Hi as [Hi1 Hi2].
      rewrite Hout2 by done. apply blank_outside; try done.
      by rewrite Hr in Hi1.
Qed.

Section TokenText.

Variable yaml : Yaml.

Lemma convertDocuments_fromCode node code r s1 :
  convertDocuments yaml node code = inr (r, s1) →
  Forall (fromCode (stripComments code (convertComments node))) (tokens s1).
Proof.
  unfold convertDocuments. intros Hrun.
  set (text := stripComments code (convertComments node)) in *.
  match type of Hrun with
  | ?m ?s0 = _ => assert (Hp : pushesM (fromCode text) m)
  end.
  { apply pushesM_bind; [apply pushesM_lift, pushesSt_alloc|]. intros ast.
    apply pushesM_bind; [|intros _; apply pushesM_ret].
    apply pushesM_forEach. apply Forall_forall. intros d _.
    apply pushesM_bind; [apply pushes_convertDocument|]. intros x.
    apply pushesM_lift, pushesSt_modify. }
  destruct (Hp _ _ _ Hrun) as (new & Hnew & F). simpl in Hnew.
  by rewrite Hnew.
Qed.

(** Every token of the result holds the text of the working copy
    without the comments at its range, or is one structural character
    from the scan. *)
Theorem tokens_hold_working_copy node code r s :
  convertRoot yaml node code = inr (r, s) →
  Forall (λ t, fromCode (stripComments code (convertComments node)) t
               ∨ isGapToken t)
    (tokens s).
Proof.
  intros Hrun. apply convertRoot_tokens in Hrun as (s1 & H1 & ->).
  rewrite sortTokens_Permutation. apply Forall_app. split.
  - eapply Forall_impl; [by eapply convertDocuments_fromCode|].
    intros t Ht. by left.
  - rewrite gapTokens_scanList.
    eapply Forall_impl; [apply scanList_gap|]. intros t Ht. by right.
Qed.

(** Every token holds the text of the source at its range, when the
    source has no surrogate pair, the comments and the tokens of the walk
    lie in the text, and no token of the walk meets a comment. *)
Theorem tokens_hold_source_text node code r s s1 :
  convertRoot yaml node code = inr (r, s) →
  convertDocuments yaml node code = inr (r, s1) →
  noHighSurrogate code →
  Forall (λ c, rangeInside (len code) (range (c_loc c)))
    (convertComments node) →
  Forall (inBounds (len code)) (tokens s1) →
  Forall (λ t, Forall (λ c, rangesApart (range (tk_loc t))
                              (range (c_loc c)))
                 (convertComments node)) (tokens s1) →
  Forall (fromCode code) (tokens s).
Proof.
  intros Hrun H1 Hn Hc Hb Hapart.
  apply convertRoot_tokens in Hrun as (s1' & H1' & ->).
  assert (s1' = s1) by congruence. subst s1'.
  set (text := stripComments code (convertComments node)) in *.
  destruct (stripComments_spec (convertComments node) code Hn Hc)
    as (Hlen & Hsp & Hout). fold text in Hlen, Hsp, Hout.
  rewrite sortTokens_Permutation. apply Forall_app. split.
  - pose proof (convertDocuments_fromCode _ _ _ _ H1) as F.
    fold text in F. rewrite Forall_forall in F, Hb, Hapart.
    apply Forall_forall. intros t Ht.
    specialize (F t Ht). specialize (Hb t Ht). specialize (Hapart t Ht).
    unfold fromCode in *. rewrite F. unfold sliceRange.
    destruct Hb as (B0 & B1 & B2). unfold startOf, endOf in *.
    apply slice_ext; [done|done|lia|unfold len in *; lia|].
    intros i Hi. apply Hout.
    eapply Forall_impl; [exact Hapart|]. intros c Hc'.
    unfold rangesApart in Hc'. lia.
  - rewrite gapTokens_scanList.
    assert (Hb' : Forall (inBounds (len text)) (tokens s1)).
    { unfold len. by rewrite Hlen. }
    destruct (stripTokens_spec (tokens s1) text
                (noHigh_stripComments _ _ Hn) Hb') as [_ Hst].
    set (text2 := stripTokens text (tokens s1)) in *.
    destruct (scanList_spec text2 text2 0 1 0) as [F _].
    pose proof (scanList_fromCode text2 text2 0 1 0) as V.
    rewrite Forall_forall in F, V. apply Forall_forall. intros t Ht.
    destruct (F t Ht) as (i & c & Hi & Hs & _ & _ & Hr).
    unfold fromCode. rewrite (V t Ht), Hr. unfold sliceRange. simpl.
    replace (0 + Z.of_nat i) with (Z.of_nat i) by lia.
    rewrite (slice_single _ _ _ Hi).
    destruct (Hst i c Hi Hs) as [Hi' _].
    symmetry. apply slice_single. by apply Hsp.
Qed.

End TokenText.

(** The hypotheses hold of the two lines [a: 1 # c] and [b: 2]. *)
Lemma tokens_hold_source_text_witness :
  ∃ s, convertRoot Sample.decimalYaml Sample.commentTree Sample.commentSource
       = inr (0%nat, s)
       ∧ tokenTexts (tokens s)
         = [((0, 1), js "a"); ((1, 2), js ":"); ((3, 4), js "1");
            ((9, 10), js "b"); ((10, 11), js ":"); ((12, 13), js "2")]
       ∧ Forall (fromCode Sample.commentSource) (tokens s).
Proof.
  eexists. split; [vm_compute; reflexivity|]. split; [reflexivity|].
  eapply (tokens_hold_source_text Sample.decimalYaml Sample.commentTree
            Sample.commentSource 0%nat).
  - vm_compute. reflexivity.
  - vm_compute. reflexivity.
  - repeat constructor.
  - repeat constructor; vm_compute; congruence.
  - repeat constructor; vm_compute; congruence.
  - repeat (constructor; [repeat constructor; vm_compute; congruence|]).
    constructor.
Defined.

Lemma tokens_hold_working_copy_witness :
  ∃ s, convertRoot Sample.decimalYaml Sample.commentTree Sample.commentSource
       = inr (0%nat, s)
       ∧ Forall (λ t, fromCode (stripComments Sample.commentSource
                                  (convertComments Sample.commentTree)) t
                      ∨ isGapToken t) (tokens s).
Proof.
  eexists. split; [vm_compute; reflexivity|].
  apply (tokens_hold_working_copy Sample.decimalYaml Sample.commentTree
           Sample.commentSource 0%nat).
  vm_compute. reflexivity.
Defined.

(* ================================================================== *)
(** ** Markers *)

Lemma charAt_of_slice3 (code : jsstring) e a b c :
  3 <= e → e <= len code → slice code (e - 3) e = [a; b; c] →
  charAt code (e - 1) = Some c.
Proof.
  intros H3 He Hs. unfold slice in Hs.
  rewrite !clamp_inside in Hs by (unfold len in *; lia).
  assert (Hl : take (Z.to_nat (e - (e - 3))) (drop (Z.to_nat (e - 3)) code)
               !! 2%nat = Some c) by (by rewrite Hs).
  rewrite lookup_take_lt in Hl by lia. rewrite lookup_drop in Hl.
  unfold charAt. destruct (e - 1 <? 0) eqn:E; [apply Z.ltb_lt in E; lia|].
  rewrite <- Hl. f_equal. lia.
Qed.

(** The Marker token of a document or of a document head. When the
    range ends, inside the text, with three times the character of the
    marker, one Marker token is pushed, on these three characters. When
    the range ends at the start of the text or after its end, there is no
    character to test and no token is pushed. *)
Theorem marker_token_on_marker (c : ascii) (l : Locations) (code : jsstring)
    (s : State) :
  let e := snd (range l) in
  let s' := (markerToken c l code s).2 in
  (3 <= e → e <= len code →
   sliceRange code (e - 3, e) = [ord c; ord c; ord c] →
   ∃ t, tokens s' = tokens s ++ [t]
        ∧ tk_type t = Marker
        ∧ tk_value t = [ord c; ord c; ord c]
        ∧ range (tk_loc t) = (e - 3, e))
  ∧ (e <= 0 ∨ len code < e → s' = s).
Proof.
  intros e s'. split.
  - intros H3 He Hs. unfold s', markerToken.
    rewrite bool_decide_eq_true_2
      by (by eapply charAt_of_slice3).
    eexists. split; [reflexivity|]. simpl. done.
  - intros He. unfold s', markerToken.
    rewrite bool_decide_eq_false_2; [done|].
    unfold charAt. fold e. destruct (e - 1 <? 0) eqn:E; [done|].
    apply Z.ltb_ge in E. rewrite lookup_ge_None_2; [done|].
    unfold len in He. lia.
Qed.

Lemma marker_token_on_marker_witness :
  ∃ t, tokens (markerToken "-"
                 (getConvertLocation (Sample.span 0 3)) (js "---")
                 {| tokens := []; store := [] |}).2
       = [] ++ [t]
       ∧ tk_type t = Marker
       ∧ tk_value t = js "---"
       ∧ range (tk_loc t) = (0, 3).
Proof.
  apply (marker_token_on_marker "-" (getConvertLocation (Sample.span 0 3))
           (js "---") {| tokens := []; store := [] |}).
  - simpl. lia.
  - vm_compute. congruence.
  - reflexivity.
Defined.

(* ================================================================== *)
(** ** Block scalars *)

Lemma not_space_not_newline c : isSpace c = false → (c =? 10)%N = false.
Proof.
  intros H. destruct (c =? 10)%N eqn:E; [|done].
  apply N.eqb_eq in E. subst c. done.
Qed.

(** The first loop stops at the first space, and never leaves the
    line: its branch for a line break is dead, a line break being a
    space. *)
Lemma headerScan_spec rest :
  ∀ line column index,
    ∃ n : nat,
      headerScan rest line column index
      = (line, column + Z.of_nat n, index + Z.of_nat n)
      ∧ (n ≤ length rest)%nat
      ∧ Forall (λ c, isSpace c = false) (take n rest)
      ∧ (∀ c, rest !! n = Some c → isSpace c = true).
Proof.
  induction rest as [|c rest IH]; intros line column index; simpl.
  - exists 0%nat. rewrite !Z.add_0_r. repeat split; [done|constructor|done].
  - unfold trimTruthy. rewrite negb_involutive.
    destruct (isSpace c) eqn:Hc.
    + exists 0%nat. rewrite !Z.add_0_r. simpl.
      repeat split; [lia|constructor|]. by intros ? [= <-].
    + rewrite (not_space_not_newline c Hc).
      destruct (IH line (column + 1) (index + 1)) as (n & -> & Hn & F & Hstop).
      exists (S n). simpl. repeat split; [f_equal; [f_equal|]; lia|lia| |done].
      by constructor.
Qed.

(** The second loop stops at the first unit that is not a space. *)
Lemma bodyScan_spec rest :
  ∀ line column index,
    ∃ n : nat,
      (bodyScan rest line column index).2 = index + Z.of_nat n
      ∧ (n ≤ length rest)%nat
      ∧ Forall (λ c, isSpace c = true) (take n rest)
      ∧ (∀ c, rest !! n = Some c → isSpace c = false)
      ∧ (bodyScan rest line column index).1.1
        = line + Z.of_nat (length (filter (λ c, c = 10%N) (take n rest))).
Proof.
  induction rest as [|c rest IH]; intros line column index; simpl.
  - exists 0%nat. simpl.
    split; [lia|]. split; [lia|]. split; [constructor|].
    split; [done|lia].
  - unfold trimTruthy. destruct (isSpace c) eqn:Hc; simpl.
    + destruct (c =? 10)%N eqn:E.
      * destruct (IH (line + 1) 0 (index + 1))
          as (n & Hi & Hn & F & Hstop & Hl).
        exists (S n). rewrite Hi, Hl. simpl.
        apply N.eqb_eq in E. subst c.
        rewrite filter_cons_True by done. simpl.
        split; [lia|]. split; [lia|]. split; [by constructor|].
        split; [done|lia].
      * destruct (IH line (column + 1) (index + 1))
          as (n & Hi & Hn & F & Hstop & Hl).
        exists (S n). rewrite Hi, Hl. simpl.
        apply N.eqb_neq in E.
        rewrite filter_cons_False by done.
        split; [lia|]. split; [lia|]. split; [by constructor|].
        split; [done|lia].
    + exists 0%nat. simpl.
      split; [lia|]. split; [lia|]. split; [constructor|].
      split; [by intros ? [= <-]|lia].
Qed.

(** The tokens of a block scalar whose text starts with its indicator:
    a Punctuator from the indicator up to the first space, which ends on
    the line of the indicator, and the token of the body from the first
    unit after it that is not a space up to the end of the node; between
    the two there are spaces only. A text that does not start with the
    indicator gets one token on the whole range. *)
Theorem block_scalar_tokens (ind : ascii) (ty : TokenType) (l : Locations)
    (code : jsstring) (s : State) :
  ind = "|"%char ∨ ind = ">"%char →
  let text := sliceRange code (range l) in
  let s' := (blockTokens ind ty l code s).2 in
  (startsWith text [ord ind] = true →
   ∃ (k k' : nat) p b,
     tokens s' = tokens s ++ [p; b]
     ∧ tk_type p = Punctuator ∧ tk_type b = ty
     ∧ range (tk_loc p) = (fst (range l), fst (range l) + Z.of_nat k)
     ∧ range (tk_loc b) = (fst (range l) + Z.of_nat k', snd (range l))
     ∧ (1 ≤ k ≤ k')%nat ∧ (k' ≤ length text)%nat
     ∧ Forall (λ c, isSpace c = false) (take k text)
     ∧ (∀ c, text !! k = Some c → isSpace c = true)
     ∧ Forall (λ c, isSpace c = true) (take (k' - k) (drop k text))
     ∧ (∀ c, text !! k' = Some c → isSpace c = false)
     ∧ loc_end (loc (tk_loc p))
       = {| loc_line := loc_line (loc_start (loc l));
            loc_column := loc_column (loc_start (loc l)) + Z.of_nat k |})
  ∧ (startsWith text [ord ind] = false →
     ∃ b, tokens s' = tokens s ++ [b]
          ∧ tk_type b = ty ∧ tk_loc b = l).
Proof.
  intros Hind text s'. unfold s', blockTokens. fold text. split.
  - intros Hstart. rewrite Hstart.
    destruct text as [|c0 text'] eqn:Ht; [done|]. simpl in Hstart.
    destruct (decide (ord ind = c0)) as [<-|]; [|done].
    change (drop 1 (ord ind :: text')) with text'.
    destruct (headerScan_spec text' (loc_line (loc_start (loc l)))
                (loc_column (loc_start (loc l)) + 1) 1)
      as (n & -> & Hn & F & Hstop).
    unfold bind. simpl.
    replace (Z.to_nat (1 + Z.of_nat n)) with (S n) by lia.
    change (drop (S n) (ord ind :: text')) with (drop n text').
    destruct (bodyScan_spec (drop n text') (loc_line (loc_start (loc l)))
                (loc_column (loc_start (loc l)) + 1 + Z.of_nat n)
                (1 + Z.of_nat n))
      as (m & Hi & Hm & Fm & Hstopm & _).
    destruct (bodyScan (drop n text') _ _ _) as [[line' column'] index'].
    simpl in Hi. subst index'. simpl.
    rewrite length_drop in Hm.
    exists (S n), (S n + m)%nat. eexists _, _.
    split; [rewrite <- app_assoc; reflexivity|]. simpl.
    split; [done|]. split; [done|].
    split; [f_equal; lia|]. split; [f_equal; lia|].
    split; [lia|]. split; [lia|]. split.
    { constructor; [|done]. by destruct Hind as [->| ->]. }
    split; [done|]. split.
    { by replace (n + m - n)%nat with m by lia. }
    split; [|f_equal; lia].
    intros c. rewrite <- (lookup_drop text' n m). apply Hstopm.
  - intros Hstart. rewrite Hstart. eexists. split; [reflexivity|]. done.
Qed.

(** The block literal of the two lines [|-] and [  x], read from the
    text itself. *)
Lemma block_scalar_tokens_witness :
  ∃ (k k' : nat) p b,
    tokens (blockTokens "|" BlockLiteralT
              (getConvertLocation (Sample.spanAt 0 1 1 6 2 4))
              (js "|-" ++ [10%N] ++ js "  x")
              {| tokens := []; store := [] |}).2
    = [] ++ [p; b]
    ∧ tk_type p = Punctuator ∧ tk_type b = BlockLiteralT
    ∧ range (tk_loc p) = (0, 0 + Z.of_nat k)
    ∧ range (tk_loc b) = (0 + Z.of_nat k', 6)
    ∧ (1 ≤ k ≤ k')%nat.
Proof.
  destruct (proj1 (block_scalar_tokens "|" BlockLiteralT
                     (getConvertLocation (Sample.spanAt 0 1 1 6 2 4))
                     (js "|-" ++ [10%N] ++ js "  x")
                     {| tokens := []; store := [] |}
                     (or_introl eq_refl)) eq_refl)
    as (k & k' & p & b & Ht & Hp & Hb & Hrp & Hrb & Hk & _).
  exists k, k', p, b. repeat split; try done; lia.
Defined.

(* ================================================================== *)
(** ** The positions of the tokens of the scan *)

Lemma lineFeeds_snoc pre c :
  lineFeeds (pre ++ [c])
  = lineFeeds pre + (if (c =? 10)%N then 1 else 0).
Proof.
  unfold lineFeeds. rewrite filter_app, length_app.
  destruct (c =? 10)%N eqn:E.
  - apply N.eqb_eq in E. subst c. rewrite filter_cons_True by done.
    simpl. lia.
  - apply N.eqb_neq in E. rewrite filter_cons_False by done. simpl. lia.
Qed.

Lemma scanList_atPosition text :
  ∀ rest pre (k : nat),
    text = pre ++ rest →
    (k ≤ length pre)%nat →
    (k = 0%nat ∨ pre !! (k - 1)%nat = Some 10%N) →
    Forall (λ c, c ≠ 10%N) (drop k pre) →
    Forall (atPosition text)
      (scanList text rest (len pre) (1 + lineFeeds pre)
         (len pre - Z.of_nat k)).
Proof.
  induction rest as [|c rest IH]; intros pre k Ht Hk Hstart Hno; simpl.
  - constructor.
  - assert (Hlen : len (pre ++ [c]) = len pre + 1).
    { unfold len. rewrite length_app. simpl. lia. }
    assert (Ht' : text = (pre ++ [c]) ++ rest)
      by (by rewrite <- app_assoc).
    destruct (c =? 10)%N eqn:E.
    + apply N.eqb_eq in E. subst c.
      specialize (IH (pre ++ [10%N]) (S (length pre)) Ht').
      rewrite Hlen, lineFeeds_snoc in IH. simpl in IH.
      replace (1 + (lineFeeds pre + 1)) with (1 + lineFeeds pre + 1) in IH
        by lia.
      replace (len pre + 1 - Z.of_nat (S (length pre))) with 0 in IH
        by (unfold len; lia).
      apply IH.
      * rewrite length_app. simpl. lia.
      * right. simpl. rewrite Nat.sub_0_r.
        by rewrite lookup_app_r, Nat.sub_diag.
      * rewrite drop_ge; [constructor|]. rewrite length_app. simpl. lia.
    + specialize (IH (pre ++ [c]) k Ht').
      rewrite Hlen, lineFeeds_snoc, E, Z.add_0_r in IH.
      replace (len pre + 1 - Z.of_nat k) with (len pre - Z.of_nat k + 1)
        in IH by lia.
      apply Forall_app. split.
      * destruct (trimTruthy c && isPunctuator c); [|constructor].
        constructor; [|constructor].
        exists pre, c, rest, k. simpl. done.
      * apply IH.
        -- rewrite length_app. simpl. lia.
        -- destruct Hstart as [->|Hs]; [by left|right].
           rewrite lookup_app_l; [done|].
           by eapply lookup_lt_Some.
        -- rewrite drop_app_le by done. apply Forall_app. split; [done|].
           constructor; [|constructor]. by apply N.eqb_neq.
Qed.

(** Every token of the scan has the line and the column of its
    character in the text that the scan reads: the line counts the line
    feeds before it, from 1, and the column counts the units since the
    start of the line, from 0; the token ends one column further on the
    same line. Only a line feed starts a line. *)
Theorem gap_token_positions (text : jsstring) (toks : list Token) :
  Forall (atPosition (stripTokens text toks)) (gapTokens text toks).
Proof.
  rewrite gapTokens_scanList.
  apply (scanList_atPosition (stripTokens text toks)
           (stripTokens text toks) [] 0%nat); try done.
  - by left.
Qed.

(* ================================================================== *)
(** ** The matcher *)

















Section IntTag.

Variable yaml : Yaml.


End IntTag.


(* ================================================================== *)
(** ** The Numeric token *)

(** A text of one of the six numeric forms is none of the literals. *)
Lemma needParse_not_literal str :
  needParse str = true →
  isTrue str = false ∧ isFalse str = false ∧ isNull str = false.
Proof.
  intros Hn. rewrite isTrue_spec, isFalse_spec, isNull_spec.
  repeat split; apply bool_decide_eq_false_2; intros Hin;
    repeat (apply elem_of_cons in Hin as [->|Hin]; [by vm_compute in Hn|]);
    by apply elem_of_nil in Hin.
Qed.

Section NumericToken.

Variable yaml : Yaml.

(** The token of a plain scalar is Numeric exactly when the text has one
    of the six numeric forms and [yaml.parse] reads a finite number other
    than zero from it. A text that is read as zero, as an infinity or as
    [NaN] gets an Identifier token, and so does every number that
    [yaml.parse] reads from a text of another form. *)
Theorem plain_numeric_token (h : Header) (str code : jsstring)
    (parent doc : ref) (st : State) :
  ∃ tok,
    last (tokens (convertPlain yaml h str code parent doc st).2) = Some tok
    ∧ (tk_type tok = Numeric
       ↔ needParse str = true
         ∧ ∃ sg m e, parse yaml str = JNumber (S754_finite sg m e))
    ∧ (needParse str = true →
       (∃ sg, parse yaml str = JNumber (S754_zero sg))
       ∨ (∃ sg, parse yaml str = JNumber (S754_infinity sg))
       ∨ parse yaml str = JNumber S754_nan →
       tk_type tok = Identifier).
Proof.
  eexists. split; [apply convertPlain_token|]. simpl.
  unfold plainTokenValue. split; [split|].
  - destruct (isTrue str); [done|]. destruct (isFalse str); [done|].
    destruct (isNull str); [done|].
    destruct (needParse str); [|done].
    unfold or_else. intros H. split; [done|].
    destruct (parse yaml str) as [| |b|x|s|l|l]; simpl in H;
      [done|done|by destruct b|..|by destruct s|done|done].
    destruct x as [sg|sg| |sg m e]; try done.
    by exists sg, m, e.
  - intros [Hn (sg & m & e & Hp)].
    destruct (needParse_not_literal str Hn) as (-> & -> & ->).
    by rewrite Hn, Hp.
  - intros Hn Hp.
    destruct (needParse_not_literal str Hn) as (-> & -> & ->).
    rewrite Hn.
    by destruct Hp as [[sg ->]|[[sg ->]| ->]].
Qed.

End NumericToken.

(* ================================================================== *)
(** ** The documents of the Program *)

Lemma convertDirectives_store l code parent :
  ∀ s, let res := convertDirectives l code parent s in
       res.1 = seq (length (store s)) (length l)
       ∧ store res.2 = store s ++ (directiveNode code parent <$> l).
Proof.
  induction l as [|n l IH]; intros s; simpl.
  - by rewrite app_nil_r.
  - unfold bind, ret, convertDirective, alloc, addToken. simpl.
    set (s1 := {| tokens := _; store := _ |}).
    destruct (IH s1) as [I1 I2].
    destruct (convertDirectives l code parent s1) as [ds s2].
    simpl in *. subst ds. rewrite I2. unfold s1. simpl.
    rewrite length_app, <- app_assoc. simpl.
    by replace (length (store s) + 1)%nat with (S (length (store s))) by lia.
Qed.

Lemma convertDocumentHead_store node code parent s :
  let res := convertDocumentHead node code parent s in
  res.1 = seq (length (store s)) (length (dh_children node))
  ∧ store res.2
    = store s ++ (directiveNode code parent <$> dh_children node).
Proof.
  unfold convertDocumentHead, bind, ret.
  destruct (convertDirectives_store (dh_children node) code parent s)
    as [I1 I2].
  destruct (convertDirectives (dh_children node) code parent s) as [ds s1].
  simpl in *.
  pose proof (store_markerToken "-"
                (getConvertLocation (dh_position node)) code s1) as Hm.
  destruct (markerToken "-" _ code s1) as [u s2]. simpl in *.
  by rewrite Hm.
Qed.

Lemma documentShape_keep code parent s s' d doc :
  (0 < d)%nat →
  (∀ r, (0 < r < length s)%nat → s' !! r = s !! r) →
  documentShape code parent s d doc → documentShape code parent s' d doc.
Proof.
  intros Hd Hsame (Hdoc & Hdirs & Hc).
  assert (Hk : ∀ r n, (d ≤ r)%nat → s !! r = Some n → s' !! r = Some n).
  { intros r n Hr Hn. rewrite Hsame; [done|].
    apply lookup_lt_Some in Hn. lia. }
  split; [|split].
  - destruct Hdoc as [a Ha]. exists a. by apply Hk.
  - intros i dir Hi. apply Hk; [lia|]. by apply Hdirs.
  - destruct (db_children (doc_body doc)); [done|].
    destruct Hc as (n & Hn & Hq & Hp). exists n.
    split; [|done]. apply Hk; [lia|done].
Qed.

Section DocumentShape.

Variable yaml : Yaml.

Lemma convertDocument_shape node code parent st d st' :
  convertDocument yaml node code parent st = inr (d, st') →
  documentShape code parent (store st') d node.
Proof.
  unfold convertDocument. intros Hrun.
  set (l := getConvertLocation (doc_position node)) in *.
  set (N := YAMLDocument [] None parent ∅ l) in *.
  set (lo := length (store st)).
  set (dirs := dh_children (doc_head node)).
  apply bindM_inr in Hrun as (ast & s1 & H1 & Hrun).
  apply lift_inr in H1. unfold alloc in H1. injection H1 as <- <-.
  fold lo in Hrun.
  apply bindM_inr in Hrun as (ds & s2 & H2 & Hrun).
  apply lift_inr in H2.
  destruct (convertDocumentHead_store (doc_head node) code lo
              {| tokens := tokens st; store := store st ++ [N] |})
    as [Hds Hs2].
  rewrite H2 in Hds, Hs2. simpl in Hds, Hs2. fold dirs in Hds, Hs2.
  rewrite length_app in Hds. simpl in Hds.
  replace (length (store st) + 1)%nat with (S lo) in Hds by (unfold lo; lia).
  apply bindM_inr in Hrun as ([] & s3 & H3 & Hrun).
  apply lift_inr in H3. unfold modify in H3. injection H3 as <-.
  apply bindM_inr in Hrun as (c & s4 & H4 & Hrun).
  set (s3 := {| tokens := tokens s2;
                store := alter (push_directives ds) lo (store s2) |}) in *.
  assert (L3 : length (store s3) = (S lo + length dirs)%nat).
  { unfold s3. simpl. rewrite length_alter, Hs2, !length_app, length_fmap.
    simpl. unfold lo. lia. }
  assert (Hdoc3 : store s3 !! lo
                  = Some (YAMLDocument ds None parent ∅ l)).
  { unfold s3. simpl. rewrite list_lookup_alter_eq, Hs2.
    rewrite lookup_app_l by (rewrite length_app; simpl; unfold lo; lia).
    unfold lo. by rewrite lookup_alloc_new. }
  assert (Hdirs3 : ∀ i dir, dirs !! i = Some dir →
            store s3 !! (S lo + i)%nat = Some (directiveNode code lo dir)).
  { intros i dir Hi. unfold s3. simpl.
    rewrite list_lookup_alter_ne by lia. rewrite Hs2.
    rewrite lookup_app_r by (rewrite length_app; simpl; unfold lo; lia).
    rewrite length_app. simpl.
    replace (S (lo + i) - (length (store st) + 1))%nat with i
      by (unfold lo; lia).
    by rewrite list_lookup_fmap, Hi. }
  unfold convertDocumentBody in H4.
  destruct (head_child_ok yaml (db_children (doc_body node)) code lo lo
              s3 c s4) as [E4 Hc4];
    [apply Forall_forall; intros; apply walk_built|exact H4|].
  apply bindM_inr in Hrun as ([] & s5 & H5 & Hrun).
  apply lift_inr in H5. unfold modify in H5. injection H5 as <-.
  apply bindM_inr in Hrun as ([] & s6 & H6 & Hrun).
  apply lift_inr in H6.
  pose proof (store_markerToken "." l code
                {| tokens := tokens s4;
                   store := alter (set_content c) lo (store s4) |}) as Hm.
  rewrite H6 in Hm. simpl in Hm.
  apply retM_inr in Hrun as [-> ->]. rewrite Hm.
  destruct (ev_frame _ _ _ _ E4 lo _ ltac:(lia) Hdoc3)
    as (n' & Hn' & He & _).
  assert (∃ a, n' = YAMLDocument ds None parent a l) as [a ->].
  { destruct n'; simpl in He; try done. injection He as -> -> -> ->.
    by eexists. }
  split; [|split].
  - exists a. rewrite list_lookup_alter_eq, Hn'. simpl. rewrite Hds.
    do 3 f_equal.
    destruct (db_children (doc_body node)) as [|c0 cs].
    + by destruct Hc4 as [-> _].
    + destruct Hc4 as (n & -> & _). by rewrite L3.
  - intros i dir Hi. rewrite list_lookup_alter_ne by lia.
    assert (Hlt : (i < length dirs)%nat) by exact (lookup_lt_Some _ _ _ Hi).
    destruct (ev_frame _ _ _ _ E4 (S lo + i)%nat _ ltac:(lia)
                (Hdirs3 i dir Hi)) as (n' & Hn1 & _ & Hsame).
    rewrite Hn1. f_equal. apply Hsame. lia.
  - destruct (db_children (doc_body node)) as [|c0 cs]; [done|].
    destruct Hc4 as (n & _ & Hn & Hq & Hp). exists n.
    fold dirs. rewrite <- L3.
    rewrite list_lookup_alter_ne by (rewrite L3; lia). done.
Qed.

Lemma documents_shape_loop code comments l :
  ∀ docs s s' body done,
    store s !! 0%nat = Some (YAMLProgram body comments l) →
    Forall2 (documentShape code 0%nat (store s)) body done →
    forEach (fun n => let! d := convertDocument yaml n code 0%nat in
                      lift (modify 0%nat (push_body d))) docs s
    = inr (tt, s') →
    ∃ body', store s' !! 0%nat = Some (YAMLProgram body' comments l)
             ∧ Forall2 (documentShape code 0%nat (store s')) body'
                 (done ++ docs).
Proof.
  induction docs as [|n docs IH]; intros s s' body done Hprog Hok Hrun;
    simpl in Hrun.
  - apply retM_inr in Hrun as [_ ->]. rewrite app_nil_r. eauto.
  - apply bindM_inr in Hrun as ([] & s1 & H1 & H2).
    apply bindM_inr in H1 as (d & s0 & H0 & H1).
    pose proof (convertDocument_shape _ _ _ _ _ _ H0) as Hshape.
    apply convertDocument_anchors in H0
      as (-> & Hlen & Hold & _).
    apply lift_inr in H1. unfold modify in H1. injection H1 as <-.
    pose proof (lookup_lt_Some _ _ _ Hprog) as Hpos.
    replace (done ++ n :: docs) with ((done ++ [n]) ++ docs)
      by (by rewrite <- app_assoc).
    eapply (IH _ _ (body ++ [length (store s)])); [| |exact H2].
    + simpl. by rewrite list_lookup_alter_eq, Hold, Hprog by done.
    + simpl. apply Forall2_app.
      * eapply Forall2_impl; [exact Hok|].
        intros d doc Hd.
        assert (0 < d)%nat.
        { destruct Hd as [[a Ha] _]. destruct d; [|lia].
          rewrite Hprog in Ha. done. }
        eapply documentShape_keep; [done| |exact Hd].
        intros r Hr. rewrite list_lookup_alter_ne by lia.
        apply Hold. lia.
      * constructor; [|constructor].
        eapply documentShape_keep; [done| |exact Hshape].
        intros r Hr. by rewrite list_lookup_alter_ne by lia.
Qed.

(** The Program node of [convertRoot] is the first node of the store. It
    holds the comments and one Document node for each upstream document,
    in their order. The directives of a Document are the nodes created
    right after it, one for each upstream directive, with the text of
    their range in the working copy without comments; its content is the
    node created next, with the Document as parent, or [null] when the
    upstream body is empty. *)
Theorem program_documents (node : Root) (code : jsstring) (r : ref)
    (s : State) :
  convertRoot yaml node code = inr (r, s) →
  r = 0%nat
  ∧ ∃ body,
      store s !! 0%nat
      = Some (YAMLProgram body (convertComments node)
                (getConvertLocation (root_position node)))
      ∧ Forall2 (documentShape (stripComments code (convertComments node))
                   0%nat (store s))
          body (root_children node).
Proof.
  intros Hrun.
  apply convertRoot_store in Hrun as (s1 & Hrun & ->).
  unfold convertDocuments in Hrun.
  apply bindM_inr in Hrun as (ast & s0 & H1 & Hrun).
  apply lift_inr in H1. unfold alloc in H1. injection H1 as <- <-.
  apply bindM_inr in Hrun as ([] & s2 & H2 & H3).
  apply retM_inr in H3 as [-> ->]. split; [done|].
  eapply (documents_shape_loop _ _ _ _ _ _ [] []) in H2;
    [exact H2|done|constructor].
Qed.

End DocumentShape.

Lemma program_documents_witness :
  ∃ s body,
    convertRoot Sample.decimalYaml directiveTree directiveSource
    = inr (0%nat, s)
    ∧ store s !! 0%nat
      = Some (YAMLProgram body (convertComments directiveTree)
                (getConvertLocation (root_position directiveTree)))
    ∧ Forall2 (documentShape
                 (stripComments directiveSource
                    (convertComments directiveTree)) 0%nat (store s))
        body (root_children directiveTree)
    ∧ store s !! 2%nat
      = Some (YAMLDirective (js "%YAML 1.2") 1%nat
                (getConvertLocation (Sample.span 0 9)))
    ∧ tokenSummary (tokens s)
      = [(DirectiveT, js "%YAML 1.2"); (Marker, js "---");
         (Identifier, js "a"); (Punctuator, js ":"); (Numeric, js "1")].
Proof.
  eexists.
  destruct (program_documents Sample.decimalYaml directiveTree
              directiveSource 0%nat _ ltac:(vm_compute; reflexivity))
    as (_ & body & Hprog & Hdocs).
  exists body. split; [vm_compute; reflexivity|]. split; [exact Hprog|].
  split; [exact Hdocs|]. split; vm_compute; reflexivity.
Defined.
